(** * SLAPIWrapper: the field-mask engine and the request builder of
      [src/index.js], embedded in Rocq.

    The development has two parts, mirroring the two classes of the source:

    - [Mask]: the class [SLAPIMask] (the mask tree, [set], [unset], [push],
      [_checkKeys], [_getRef], [_objToStr], [toString]);
    - [Request]: the class [SLAPIRequest] ([url], [urlQuery], [page],
      [exec], [getNumOfPages], [employeeLogin]).

    Modelling conventions.

    - A JavaScript object is the list of its own enumerable properties in
      enumeration order (the order of [Object.keys] and [for ... in]): array
      index keys in ascending numeric order first, then the other keys in
      creation order.  Objects are finite trees: a value handed to the mask
      is owned by it (the caller keeps no alias to it and it has no cycle).
    - A method that mutates [this] is a function from the instance to a
      completion and the instance after the call.  A completion is a normal
      return, a thrown exception, or [Foreign]: the call has reached an
      object of the JavaScript runtime through the prototype chain (an
      inherited member such as [toString], or the [__proto__] setter), about
      which this development states nothing.
    - What the runtime provides to the builder ([JSON.stringify], [btoa],
      [Date.now], [fetch]) is a parameter of its methods; what a call does
      to the outside (requests, log lines, pauses) is recorded, in order, in
      a [world] that is passed along with the instance.
    - Strings are sequences of characters with codes below 256.
    - A number is a double that holds an integer, an infinity or NaN
      ([Num]).  An integer [z] stands for the Number value for [z]: the
      double nearest to it.  Subtraction and multiplication round as the
      doubles do, and the string of a number is the one JavaScript gives:
      the decimal digits of a safe integer, the shortest digits that
      round-trip beyond, in exponent form from 10^21.

    The definitions come first ([Num], [Str], [Mask], [Request]); the facts
    follow ([NumFacts], [StrFacts], [MaskFacts], [RequestFacts]). *)

From Stdlib Require Import ZArith NArith List String Ascii Bool Lia.
From Stdlib Require Import DecimalString.
From Equations Require Import Equations.
Import ListNotations.

Open Scope string_scope.
Open Scope list_scope.

(** ** Numbers *)

Module Num.

(** A JavaScript number that holds an integer, an infinity, or NaN.
    [Finite z] is the Number value for the integer [z]: the double nearest
    to [z], ties to the even mantissa, and an infinity from
    2^1024 - 2^970 on.  The sign of a zero is not kept: none of the
    operations below shows it. *)
Inductive number : Type :=
| Finite (z : Z)
| Infinity (negative : bool)
| NaN.

(** 2^53: below it every integer is a double. *)
Definition two53 : Z := 9007199254740992.

(** [Number.isSafeInteger] *)
Definition safe (z : Z) : Prop := (Z.abs z < two53)%Z.

(** A non-negative integer rounded to 53 significant bits, ties to even. *)
Definition round53 (a : Z) : Z :=
  if (a <? two53)%Z then a
  else
    let e := (Z.log2 a - 52)%Z in
    let m := Z.shiftr a e in
    let r := (a - Z.shiftl m e)%Z in
    let half := Z.shiftl 1 (e - 1) in
    let m' := if (r <? half)%Z then m
              else if (half <? r)%Z then (m + 1)%Z
              else if Z.even m then m else (m + 1)%Z in
    Z.shiftl m' e.

(** 2^1024: what rounds to it overflows. *)
Definition overflow : Z := Z.shiftl 1 1024.

(** The Number value for an integer. *)
Definition value_of (z : Z) : number :=
  let a := round53 (Z.abs z) in
  if (overflow <=? a)%Z then Infinity (z <? 0)%Z else Finite (Z.sgn z * a).

Definition norm (x : number) : number :=
  match x with Finite z => value_of z | _ => x end.

Definition is_zero (x : number) : bool :=
  match x with Finite z => (z =? 0)%Z | _ => false end.

Definition negative (x : number) : bool :=
  match x with Finite z => (z <? 0)%Z | Infinity s => s | NaN => false end.

(** [x - y] *)
Definition sub (x y : number) : number :=
  match norm x, norm y with
  | NaN, _ | _, NaN => NaN
  | Infinity s, Infinity s' => if Bool.eqb s s' then NaN else Infinity s
  | Infinity s, Finite _ => Infinity s
  | Finite _, Infinity s => Infinity (negb s)
  | Finite a, Finite b => value_of (a - b)
  end.

(** [x * y] *)
Definition mul (x y : number) : number :=
  match norm x, norm y with
  | NaN, _ | _, NaN => NaN
  | Finite a, Finite b => value_of (a * b)
  | a, b =>
      if is_zero a || is_zero b then NaN
      else Infinity (xorb (negative a) (negative b))
  end.

(** The decimal digits of an integer. *)
Definition decimal (z : Z) : string := NilZero.string_of_int (Z.to_int z).

(** [v] rounds to the double [x], at least 2^53: four times [v] lies
    between four times [x] less half the gap below [x] and four times [x]
    plus half the gap above it, the bounds included when the mantissa of [x]
    is even. *)
Definition inside (x v : Z) : bool :=
  let e := (Z.log2 x - 52)%Z in
  let m := Z.shiftr x e in
  let below := if (m =? 4503599627370496)%Z then Z.shiftl 1 e else Z.shiftl 1 (e + 1) in
  let above := Z.shiftl 1 (e + 1) in
  if Z.even m
  then (4 * x - below <=? 4 * v)%Z && (4 * v <=? 4 * x + above)%Z
  else (4 * x - below <? 4 * v)%Z && (4 * v <? 4 * x + above)%Z.

(** The integer with the fewest significant digits that rounds to the
    double [x]; of two, the one nearer to [x]; of two as near, the even
    one.  [p] is the power of ten of the last significant digit tried. *)
Fixpoint shortest (fuel : nat) (x p : Z) : Z :=
  match fuel with
  | O => x
  | S fuel' =>
      let lo := (x / p * p)%Z in
      let hi := (lo + p)%Z in
      match inside x lo, inside x hi with
      | true, true =>
          if (x - lo <? hi - x)%Z then lo
          else if (hi - x <? x - lo)%Z then hi
          else if Z.even (x / p) then lo else hi
      | true, false => lo
      | false, true => hi
      | false, false => shortest fuel' x (p / 10)%Z
      end
  end.

Fixpoint strip_zeros (rev_digits : list ascii) : list ascii :=
  match rev_digits with
  | c :: r => if Ascii.eqb c "0" then strip_zeros r else rev_digits
  | [] => []
  end.

(** The digits without their final zeros. *)
Definition significant (digits : string) : string :=
  string_of_list_ascii (rev (strip_zeros (rev (list_ascii_of_string digits)))).

(** The string of a non-negative double that holds an integer: up to 21
    digits, the significant digits and zeros; beyond, the exponent form. *)
Definition printed (x : Z) : string :=
  if (x <? two53)%Z then decimal x
  else
    let n := String.length (decimal x) in
    let v := shortest n x (10 ^ Z.of_nat (n - 1)) in
    let digits := decimal v in
    let n := String.length digits in
    if (n <=? 21)%nat then digits
    else
      match significant digits with
      | String d EmptyString => String d ("e+" ++ decimal (Z.of_nat (n - 1)))
      | String d rest => String d ("." ++ rest ++ "e+" ++ decimal (Z.of_nat (n - 1)))
      | EmptyString => digits
      end.

(** The string of a number: in a template literal, as a property key. *)
Definition to_string (x : number) : string :=
  match norm x with
  | NaN => "NaN"
  | Infinity false => "Infinity"
  | Infinity true => "-Infinity"
  | Finite z => if (z <? 0)%Z then "-" ++ printed (- z) else printed z
  end.

End Num.

(** An integer in the place of a number is the Number value for it. *)
Coercion Num.Finite : Z >-> Num.number.

(** ** Strings *)

Module Str.

(** The double-quote character, for messages that quote a name. *)
Definition dquote : string := String (ascii_of_nat 34) EmptyString.

(** [key.indexOf('.') > -1] *)
Fixpoint has_dot (s : string) : bool :=
  match s with
  | EmptyString => false
  | String c r => if Ascii.eqb c "." then true else has_dot r
  end.

(** [s.split('.')]: never the empty list; [''.split('.')] is [['']]. *)
Fixpoint split_dot (s : string) : list string :=
  match s with
  | EmptyString => [EmptyString]
  | String c r =>
      if Ascii.eqb c "." then EmptyString :: split_dot r
      else match split_dot r with
           | h :: t => String c h :: t
           | [] => [String c EmptyString]
           end
  end.

(** [l.join(sep)] for an array of strings. *)
Fixpoint join (sep : string) (l : list string) : string :=
  match l with
  | [] => EmptyString
  | [x] => x
  | x :: r => (x ++ sep ++ join sep r)%string
  end.

(** The string conversion of a JavaScript number that holds an integer. *)
Definition of_Z (n : Z) : string := Num.to_string (Num.Finite n).

(** An array index in the sense of ECMAScript: the canonical decimal form of
    an integer between 0 and 2^32 - 2. *)
Definition array_index (s : string) : option N :=
  match NilZero.uint_of_string s with
  | Some u =>
      let n := N.of_uint u in
      if String.eqb (NilZero.string_of_uint (N.to_uint n)) s && (n <? 4294967295)%N
      then Some n else None
  | None => None
  end.

End Str.

(** ** The mask tree: class [SLAPIMask] *)

Module Mask.

Import Str.

(** *** Values *)

(** The prototype of an object: [{}] has [Object.prototype],
    [Object.create(null)] has none. *)
Inductive proto : Type := ObjectProto | NullProto.

Unset Elimination Schemes.
Inductive value : Type :=
| VUndefined
| VNull
| VBool (b : bool)
| VNumber (n : Z)
| VObject (p : proto) (props : list (string * value)).
Set Elimination Schemes.

(** Induction with a hypothesis for every property of an object. *)
Definition value_induction (P : value -> Prop)
  (Hundef : P VUndefined) (Hnull : P VNull)
  (Hbool : forall b, P (VBool b)) (Hnum : forall n, P (VNumber n))
  (Hobj : forall p props, Forall (fun kv => P (snd kv)) props -> P (VObject p props)) :
  forall v, P v :=
  fix F (v : value) : P v :=
    match v with
    | VUndefined => Hundef
    | VNull => Hnull
    | VBool b => Hbool b
    | VNumber n => Hnum n
    | VObject p props =>
        Hobj p props
          ((fix G (l : list (string * value)) : Forall (fun kv => P (snd kv)) l :=
              match l with
              | [] => Forall_nil _
              | kv :: r => Forall_cons kv (F (snd kv)) (G r)
              end) props)
    end.

Definition empty_object : value := VObject ObjectProto [].

(** Truthiness: the test of [if (v)], [!v] and [v && ...]. *)
Definition truthy (v : value) : bool :=
  match v with
  | VUndefined | VNull => false
  | VBool b => b
  | VNumber n => negb (n =? 0)%Z
  | VObject _ _ => true
  end.

(** [typeof v === 'object'] *)
Definition typeof_object (v : value) : bool :=
  match v with
  | VNull | VObject _ _ => true
  | _ => false
  end.

(** *** Own properties *)

Definition props := list (string * value).

Fixpoint lookup (k : string) (ps : props) : option value :=
  match ps with
  | [] => None
  | (k', v) :: r => if String.eqb k k' then Some v else lookup k r
  end.

Definition has_key (k : string) (ps : props) : bool :=
  match lookup k ps with Some _ => true | None => false end.

(** Where a new key goes: an array index before the first key that is not
    an array index or is a larger one; any other key at the end. *)
Fixpoint place (k : string) (v : value) (ps : props) : props :=
  match ps with
  | [] => [(k, v)]
  | (k', v') :: r =>
      match array_index k, array_index k' with
      | Some n, Some n' =>
          if (n <? n')%N then (k, v) :: ps else (k', v') :: place k v r
      | Some _, None => (k, v) :: ps
      | None, _ => (k', v') :: place k v r
      end
  end.

(** Overwrite the value of a key that is present, in place. *)
Fixpoint overwrite (k : string) (v : value) (ps : props) : props :=
  match ps with
  | [] => []
  | (k', v') :: r =>
      if String.eqb k k' then (k, v) :: r else (k', v') :: overwrite k v r
  end.

(** [o[k] = v] on the own properties of an ordinary object. *)
Definition insert (k : string) (v : value) (ps : props) : props :=
  if has_key k ps then overwrite k v ps else place k v ps.

(** [delete o[k]] *)
Fixpoint remove (k : string) (ps : props) : props :=
  match ps with
  | [] => []
  | (k', v') :: r =>
      if String.eqb k k' then remove k r else (k', v') :: remove k r
  end.

(** *** Completions *)

Inductive exn : Type :=
| SyntaxError (msg : string)
| ReferenceError (msg : string)
| TypeError
| Error (msg : string).

Inductive completion (A : Type) : Type :=
| Normal (a : A)
| Throw (e : exn)
| Foreign.
Arguments Normal {A} a.
Arguments Throw {A} e.
Arguments Foreign {A}.

Definition bind {A B} (c : completion A) (k : A -> completion B) : completion B :=
  match c with
  | Normal a => k a
  | Throw e => Throw e
  | Foreign => Foreign
  end.

Notation "x <- c ;; k" := (bind c (fun x => k))
  (at level 61, c at next level, right associativity).

(** *** The members a value inherits in a pristine runtime *)

Definition Object_prototype_names : list string :=
  [ "constructor"; "hasOwnProperty"; "isPrototypeOf"; "propertyIsEnumerable";
    "toLocaleString"; "toString"; "valueOf"; "__proto__";
    "__defineGetter__"; "__defineSetter__"; "__lookupGetter__"; "__lookupSetter__" ].

Definition Number_prototype_names : list string :=
  [ "constructor"; "toExponential"; "toFixed"; "toLocaleString"; "toPrecision";
    "toString"; "valueOf" ].

Definition Boolean_prototype_names : list string :=
  [ "constructor"; "toString"; "valueOf" ].

Definition mem (k : string) (l : list string) : bool :=
  existsb (String.eqb k) l.

(** [ref[key]] read: an own property, else an inherited member (outside the
    tree), else [undefined]; reading a property of [null] or [undefined]
    throws. *)
Definition get (ref : value) (key : string) : completion value :=
  match ref with
  | VUndefined | VNull => Throw TypeError
  | VBool _ =>
      if mem key (Boolean_prototype_names ++ Object_prototype_names)
      then Foreign else Normal VUndefined
  | VNumber _ =>
      if mem key (Number_prototype_names ++ Object_prototype_names)
      then Foreign else Normal VUndefined
  | VObject p ps =>
      match lookup key ps with
      | Some v => Normal v
      | None =>
          match p with
          | ObjectProto =>
              if mem key Object_prototype_names then Foreign else Normal VUndefined
          | NullProto => Normal VUndefined
          end
      end
  end.

(** [ref[target] = val] in strict code (a class body): creates or overwrites
    an own property of an object; on an object that inherits the [__proto__]
    accessor the setter runs instead; on a primitive it throws. *)
Definition put (ref : value) (target : string) (val : value) : completion value :=
  match ref with
  | VUndefined | VNull => Throw TypeError
  | VBool _ | VNumber _ =>
      if String.eqb target "__proto__" then Foreign else Throw TypeError
  | VObject p ps =>
      match p with
      | ObjectProto =>
          if String.eqb target "__proto__" && negb (has_key target ps)
          then Foreign
          else Normal (VObject p (insert target val ps))
      | NullProto => Normal (VObject p (insert target val ps))
      end
  end.

(** [delete ref[target]] *)
Definition del (ref : value) (target : string) : completion value :=
  match ref with
  | VUndefined | VNull => Throw TypeError
  | VBool _ | VNumber _ => Normal ref
  | VObject p ps => Normal (VObject p (remove target ps))
  end.

(** [Object.keys(v)] *)
Definition Object_keys (v : value) : completion (list string) :=
  match v with
  | VUndefined | VNull => Throw TypeError
  | VBool _ | VNumber _ => Normal []
  | VObject _ ps => Normal (map fst ps)
  end.

(** The number of own enumerable keys of a truthy value. *)
Definition keys_length (v : value) : nat :=
  match v with
  | VObject _ ps => List.length ps
  | _ => 0
  end.

(** [v.constructor === Object] for a truthy [v]: an object with prototype
    [Object.prototype] and no own property named [constructor].  (No value
    of this model is the function [Object] itself, so an own [constructor]
    property never compares equal to it.) *)
Definition constructor_is_Object (v : value) : bool :=
  match v with
  | VObject ObjectProto ps => negb (has_key "constructor" ps)
  | _ => false
  end.

(** *** The class *)

Record SLAPIMask : Type := { _maskObj : value }.

(** [constructor ()] *)
Definition new : SLAPIMask := {| _maskObj := VObject NullProto [] |}.

(** The message of the [SyntaxError] of [_checkKeys]. *)
Definition periods : string := "Object keys cannot include periods".

(** The test under which [_checkKeys] calls itself on [obj[key]]:
    [obj[key] && obj[key].constructor === Object &&
     Object.keys(obj[key]).length > 0]. *)
Definition descends (c : value) : bool :=
  truthy c && constructor_is_Object c && (0 <? keys_length c)%nat.

(** [_checkKeys (obj = {})] *)
Fixpoint _checkKeys (obj : value) : completion unit :=
  match obj with
  | VNull => Throw TypeError
  | VObject _ ps =>
      (fix each (l : props) : completion unit :=
         match l with
         | [] => Normal tt
         | (key, child) :: rest =>
             if has_dot key
             then Throw (SyntaxError periods)
             else
               _ <- (if descends child then _checkKeys child else Normal tt) ;;
               each rest
         end) ps
  | _ => Normal tt
  end.

(** [newKey = (current ? current + '.' + key : key)]; [current] is
    [undefined] at the root. *)
Definition newKey (current : option string) (key : string) : string :=
  match current with
  | Some c => if String.eqb c "" then key else (c ++ "." ++ key)%string
  | None => key
  end.

(** The inner function [recurse (obj, current)] of [_objToStr]; the result
    is what the call appends to [res]. *)
Fixpoint recurse (obj : value) (current : option string) : list string :=
  match obj with
  | VObject _ ps =>
      (fix each (l : props) : list string :=
         match l with
         | [] => []
         | (key, v) :: rest =>
             (if truthy v && typeof_object v && (0 <? keys_length v)%nat
              then recurse v (Some (newKey current key))
              else [newKey current key]) ++ each rest
         end) ps
  | _ => []
  end.

(** [_objToStr (obj)] *)
Definition _objToStr (obj : value) : string := join "," (recurse obj None).

(** [toString ()] and the accessors [mask], [maskString] *)
Definition toString (m : SLAPIMask) : string :=
  ("mask[" ++ _objToStr (_maskObj m) ++ "]")%string.
Definition mask (m : SLAPIMask) : string := toString m.
Definition maskString (m : SLAPIMask) : string := mask m.

(** The message of the [ReferenceError] of [_getRef]. *)
Definition not_found_message (key path : string) (m : SLAPIMask) : string :=
  (dquote ++ key ++ dquote ++ " of path " ++ dquote ++ path ++ dquote
     ++ " doesn't exist in the current mask. (" ++ toString m ++ ")")%string.

(** The loop of [_getRef]: [ref = ref[key]; if (!ref) throw ...] for each
    segment in turn. *)
Fixpoint walk (m : SLAPIMask) (path : string) (hierarchyArr : list string)
  (ref : value) : completion value :=
  match hierarchyArr with
  | [] => Normal ref
  | key :: rest =>
      r <- get ref key ;;
      if truthy r then walk m path rest r
      else Throw (ReferenceError (not_found_message key path m))
  end.

(** [_getRef (path = '')] *)
Definition _getRef (path : string) (m : SLAPIMask) : completion value :=
  if String.eqb path "" then Normal (_maskObj m)
  else walk m path (split_dot path) (_maskObj m).

(** The object reached by [_getRef] is a node of the tree, and a write
    through the reference is a write in the tree: [graft segs new root] is
    the root once the node at [segs] has become [new]. *)
Fixpoint graft (segs : list string) (new : value) (root : value) : value :=
  match segs with
  | [] => new
  | key :: rest =>
      match root with
      | VObject p ps =>
          match lookup key ps with
          | Some child => VObject p (overwrite key (graft rest new child) ps)
          | None => root
          end
      | _ => root
      end
  end.

(** The segments that lead from the root to the object denoted by the
    parent path [shortenedKey]. *)
Definition parent_segments (shortenedKey : string) : list string :=
  if String.eqb shortenedKey "" then [] else split_dot shortenedKey.

(** [shortenedKey === '' ? this._maskObj : this._getRef(shortenedKey)] *)
Definition parent_ref (shortenedKey : string) (m : SLAPIMask) : completion value :=
  if String.eqb shortenedKey "" then Normal (_maskObj m)
  else _getRef shortenedKey m.

(** A method: the completion of the call and the instance after it. *)
Definition method (A : Type) : Type := SLAPIMask -> completion A * SLAPIMask.

(** [unset (path = '')] *)
Definition unset (path : string) : method unit := fun m =>
  if String.eqb path "" then (Normal tt, {| _maskObj := empty_object |})
  else
    let segs := split_dot path in
    let target := last segs "" in
    let shortenedKey := join "." (removelast segs) in
    match parent_ref shortenedKey m with
    | Normal ref =>
        match del ref target with
        | Normal ref' =>
            (Normal tt,
             {| _maskObj := graft (parent_segments shortenedKey) ref' (_maskObj m) |})
        | Throw e => (Throw e, m)
        | Foreign => (Foreign, m)
        end
    | Throw e => (Throw e, m)
    | Foreign => (Foreign, m)
    end.

(** The default [val = {}] of a parameter that is [undefined]. *)
Definition default_object (val : value) : value :=
  match val with VUndefined => empty_object | _ => val end.

(** [set (val = {}, path = '')] *)
Definition set (val : value) (path : string) : method unit := fun m =>
  let val := default_object val in
  match _checkKeys val with
  | Throw e => (Throw e, m)
  | Foreign => (Foreign, m)
  | Normal _ =>
      if String.eqb path "" then (Normal tt, {| _maskObj := val |})
      else
        let segs := split_dot path in
        let target := last segs "" in
        let shortenedKey := join "." (removelast segs) in
        match parent_ref shortenedKey m with
        | Normal ref =>
            match put ref target val with
            | Normal ref' =>
                (Normal tt,
                 {| _maskObj := graft (parent_segments shortenedKey) ref' (_maskObj m) |})
            | Throw e => (Throw e, m)
            | Foreign => (Foreign, m)
            end
        | Throw e => (Throw e, m)
        | Foreign => (Foreign, m)
        end
  end.

(** An element of an array given to [push], used as a property name. *)
Inductive name : Type :=
| NString (s : string)
| NNumber (n : Z)
| NBool (b : bool)
| NNull
| NUndefined.

(** The property key a name is converted to by [tempObj[prop[i]]]. *)
Definition property_key (n : name) : string :=
  match n with
  | NString s => s
  | NNumber z => of_Z z
  | NBool true => "true"
  | NBool false => "false"
  | NNull => "null"
  | NUndefined => "undefined"
  end.

(** The first argument of [push]: any value; [POther] is an object that is
    neither a string nor an array. *)
Inductive prop : Type :=
| PUndefined
| PNull
| PBool (b : bool)
| PNumber (n : Z)
| PString (s : string)
| PArray (names : list name)
| POther.

Definition prop_truthy (p : prop) : bool :=
  match p with
  | PUndefined | PNull => false
  | PBool b => b
  | PNumber n => negb (n =? 0)%Z
  | PString s => negb (String.eqb s "")
  | PArray _ | POther => true
  end.

Definition typeof_string (p : prop) : bool :=
  match p with PString _ => true | _ => false end.

Definition Array_isArray (p : prop) : bool :=
  match p with PArray _ => true | _ => false end.

(** [tempObj[prop[i]] = {}] on the own properties of [tempObj]. *)
Definition add_name (o : props) (n : name) : props :=
  insert (property_key n) empty_object o.

(** [tempObj], an object without prototype, after the loop or the single
    assignment of [push]. *)
Definition tempObj (p : prop) : value :=
  VObject NullProto
    match p with
    | PArray names => fold_left add_name names []
    | PString s => insert s empty_object []
    | _ => []
    end.

(** The message of the [Error] of [push]. *)
Definition invalid : string := "Invalid property/properties name/s".

(** [push (prop, path = '')] *)
Definition push (p : prop) (path : string) : method unit := fun m =>
  if negb (prop_truthy p) || (negb (typeof_string p) && negb (Array_isArray p))
  then (Throw (Error invalid), m)
  else set (tempObj p) path m.

(** *** Notions the specification uses *)

(** A mask tree: a mapping whose values are mask trees. *)
Fixpoint tree (v : value) : bool :=
  match v with
  | VObject _ ps =>
      (fix all (l : props) : bool :=
         match l with
         | [] => true
         | (_, c) :: r => tree c && all r
         end) ps
  | _ => false
  end.

(** A leaf: a node whose mapping is empty. *)
Definition is_leaf (v : value) : bool := (keys_length v =? 0)%nat.

(** The root-to-leaf paths of a tree, depth first, in enumeration order. *)
Fixpoint leaf_paths (v : value) : list (list string) :=
  match v with
  | VObject _ ps =>
      (fix each (l : props) : list (list string) :=
         match l with
         | [] => []
         | (k, c) :: r =>
             (if is_leaf c then [[k]] else map (cons k) (leaf_paths c)) ++ each r
         end) ps
  | _ => []
  end.

(** The serialization as the specification words it: the comma-joined list
    of the dot-joined leaf paths, wrapped as [mask[...]]. *)
Definition serialization_spec (v : value) : string :=
  ("mask[" ++ join "," (map (join ".") (leaf_paths v)) ++ "]")%string.

(** The string [recurse] has built when it reaches the end of a path that
    it entered with the prefix [current]. *)
Fixpoint keyed (current : option string) (path : list string) : string :=
  match path with
  | [] => match current with Some c => c | None => "" end
  | key :: rest => keyed (Some (newKey current key)) rest
  end.

(** A path without its leading segments that are the empty string. *)
Fixpoint skip_empty (path : list string) : list string :=
  match path with
  | EmptyString :: rest => skip_empty rest
  | _ => path
  end.

(** Two trees that hold the same mapping, whatever the order in which
    their keys were created. *)
#[warnings="-register-all"]
Inductive same_mapping : value -> value -> Prop :=
| same_mapping_object p1 ps1 p2 ps2 :
    (forall k c1, In (k, c1) ps1 ->
       exists c2, In (k, c2) ps2 /\ same_mapping c1 c2) ->
    (forall k c2, In (k, c2) ps2 ->
       exists c1, In (k, c1) ps1 /\ same_mapping c1 c2) ->
    same_mapping (VObject p1 ps1) (VObject p2 ps2).

(** Some key of the value, at any depth, contains a ['.']. *)
Fixpoint dotted_anywhere (v : value) : bool :=
  match v with
  | VObject _ ps =>
      (fix some (l : props) : bool :=
         match l with
         | [] => false
         | (k, c) :: r => has_dot k || dotted_anywhere c || some r
         end) ps
  | _ => false
  end.

(** A plain nested mapping: an object literal, with prototype
    [Object.prototype], that has no property of its own named
    [constructor]. *)
Definition plain_mapping (v : value) : Prop :=
  exists ps, v = VObject ObjectProto ps /\ lookup "constructor" ps = None.

(** A key with a ['.'] that is a key of the value itself, or of a value
    nested in it through plain nested mappings only. *)
Inductive dotted_through_plain : value -> Prop :=
| dotted_here p ps k c :
    In (k, c) ps -> has_dot k = true -> dotted_through_plain (VObject p ps)
| dotted_below p ps k c :
    In (k, c) ps -> plain_mapping c -> dotted_through_plain c ->
    dotted_through_plain (VObject p ps).


(** The argument of [push] names a property with a ['.']. *)
Definition dotted_name (p : prop) : Prop :=
  match p with
  | PString s => has_dot s = true
  | PArray names => exists n, In n names /\ has_dot (property_key n) = true
  | _ => False
  end.

(** [k] is one of the property names given to [push]. *)
Definition named (p : prop) (k : string) : Prop :=
  match p with
  | PString s => k = s
  | PArray names => In k (map property_key names)
  | _ => False
  end.

(** The own properties of a value. *)
Definition own_props (v : value) : props :=
  match v with VObject _ ps => ps | _ => [] end.

(** The operations of the class, and a run of them that stops at the first
    one that does not return normally. *)
Inductive op : Type :=
| OpSet (val : value) (path : string)
| OpUnset (path : string)
| OpPush (p : prop) (path : string).

Definition apply_op (o : op) : method unit :=
  match o with
  | OpSet val path => set val path
  | OpUnset path => unset path
  | OpPush p path => push p path
  end.



(** The node that the segments lead to, through own properties that hold
    truthy values. *)
Fixpoint resolve (segs : list string) (v : value) : option value :=
  match segs with
  | [] => Some v
  | key :: rest =>
      match v with
      | VObject _ ps =>
          match lookup key ps with
          | Some c => if truthy c then resolve rest c else None
          | None => None
          end
      | _ => None
      end
  end.

(** The tree [{a: {x: {}}, b: {}}] built step by step
    ([push('a')], [push('x', 'a')], [set({}, 'b')]) and the tree
    [{b: {}, a: {x: {}}}] assigned in one call. *)
Definition built_stepwise : SLAPIMask :=
  snd (set empty_object "b"
         (snd (push (PString "x") "a" (snd (push (PString "a") "" new))))).

Definition built_at_once : SLAPIMask :=
  snd (set (VObject ObjectProto
              [("b", empty_object); ("a", VObject ObjectProto [("x", empty_object)])])
           "" new).

(** The tree [{'': {a: {}}}]: a root key that is the empty string, with a
    child. *)
Definition empty_key_tree : value :=
  VObject ObjectProto [("", VObject ObjectProto [("a", empty_object)])].


(** Reading [r[key]] gives nothing, or a falsy value: the node [r] holds no
    property [key], or a falsy value under it, and inherits no member of
    that name from a prototype of the runtime. *)
Definition vacant (r : value) (key : string) : Prop :=
  match r with
  | VUndefined | VNull => False
  | VBool _ => mem key (Boolean_prototype_names ++ Object_prototype_names) = false
  | VNumber _ => mem key (Number_prototype_names ++ Object_prototype_names) = false
  | VObject p ps =>
      match lookup key ps with
      | Some v => truthy v = false
      | None => p = NullProto \/ mem key Object_prototype_names = false
      end
  end.

(** The assignment [ref[target] = val] creates or overwrites an own property
    of [ref]: [ref] is an object, and [target] is not [__proto__] where the
    object inherits that accessor and holds no property of that name. *)
Definition assigns_own (ref : value) (target : string) : Prop :=
  match ref with
  | VObject p ps => p = NullProto \/ target <> "__proto__" \/ has_key target ps = true
  | _ => False
  end.

(** A [set] at [path] writes in the tree: the parent path is empty or leads
    from the root through own properties that hold truthy values, to a node
    of which the assignment creates or overwrites an own property. *)
Definition writes_in_tree (path : string) (m : SLAPIMask) : Prop :=
  exists ref,
    resolve (parent_segments (join "." (removelast (split_dot path)))) (_maskObj m)
    = Some ref /\
    assigns_own ref (last (split_dot path) "").

(** *** Chains of keys *)

(** The keys [ks] nested one under the other, as [push] nests them, with
    [v] under the last. *)
Definition chain_onto (ks : list string) (v : value) : value :=
  fold_right (fun k c => VObject NullProto [(k, c)]) v ks.

(** The chain of the keys [ks], ending in [{}]. *)
Definition chain (ks : list string) : value := chain_onto ks empty_object.

(** [mask.push(k1).push(k2, 'k1').push(k3, 'k1.k2')] and so on: each of
    the names [todo] pushed at the path of the names before it, after the
    names [done]; it stops at the first call that does not return. *)
Fixpoint push_chain (done todo : list string) (m : SLAPIMask)
  : completion unit * SLAPIMask :=
  match todo with
  | [] => (Normal tt, m)
  | k :: rest =>
      match push (PString k) (join "." done) m with
      | (Normal _, m') => push_chain (done ++ [k]) rest m'
      | other => other
      end
  end.

(** A name that is a single segment of a path: no ['.'], and not empty. *)
Definition field_name (k : string) : Prop := has_dot k = false /\ k <> "".

End Mask.


(** ** The request builder: class [SLAPIRequest] *)

Module Request.

Import Str.

(** *** Values *)

(** The values the builder handles: credentials, filters, the JSON bodies
    of responses, and the [Error] object that [exec] returns. *)
Unset Elimination Schemes.
Inductive js : Type :=
| JUndefined
| JNull
| JBool (b : bool)
| JNumber (n : Z)
| JString (s : string)
| JArray (items : list js)
| JObject (fields : list (string * js))
| JError (message : string).
Set Elimination Schemes.

Definition truthy (v : js) : bool :=
  match v with
  | JUndefined | JNull => false
  | JBool b => b
  | JNumber n => negb (n =? 0)%Z
  | JString s => negb (String.eqb s "")
  | JArray _ | JObject _ | JError _ => true
  end.

(** The string a value becomes in a template literal and in
    [new Error(v)]. *)
Fixpoint to_string (v : js) : string :=
  match v with
  | JUndefined => "undefined"
  | JNull => "null"
  | JBool true => "true"
  | JBool false => "false"
  | JNumber n => of_Z n
  | JString s => s
  | JArray items =>
      (fix each (l : list js) : string :=
         match l with
         | [] => ""
         | x :: r =>
             (match x with JUndefined | JNull => "" | _ => to_string x end
              ++ match r with [] => "" | _ => "," ++ each r end)%string
         end) items
  | JObject _ => "[object Object]"
  | JError message => ("Error: " ++ message)%string
  end.

(** Exceptions are those of the mask; a call returns or throws. *)
Definition exn : Type := Mask.exn.

Inductive outcome (A : Type) : Type :=
| Returns (a : A)
| Throws (e : exn).
Arguments Returns {A} a.
Arguments Throws {A} e.

Fixpoint field_of (name : string) (fields : list (string * js)) : js :=
  match fields with
  | [] => JUndefined
  | (k, v) :: r => if String.eqb name k then v else field_of name r
  end.

(** [v.name] for the names [error], [userId] and [hash], which no built-in
    prototype defines: a field of an object, [undefined] on any other
    value, and a [TypeError] on [null] and [undefined]. *)
Definition get_field (v : js) (name : string) : outcome js :=
  match v with
  | JUndefined | JNull => Throws Mask.TypeError
  | JObject fields => Returns (field_of name fields)
  | _ => Returns JUndefined
  end.

(** *** The query string of [URLSearchParams] *)

Definition params := list (string * string).

(** [params.set(name, value)]: the first pair of that name gets the value
    and the others go; without such a pair, a new one at the end. *)
Fixpoint params_set (name value : string) (l : params) : params :=
  match l with
  | [] => [(name, value)]
  | (n, v) :: r =>
      if String.eqb n name
      then (n, value) :: List.filter (fun nv => negb (String.eqb (fst nv) name)) r
      else (n, v) :: params_set name value r
  end.

Definition hex_digit (n : nat) : ascii :=
  match n with
  | 0 => "0" | 1 => "1" | 2 => "2" | 3 => "3" | 4 => "4" | 5 => "5" | 6 => "6"
  | 7 => "7" | 8 => "8" | 9 => "9" | 10 => "A" | 11 => "B" | 12 => "C"
  | 13 => "D" | 14 => "E" | _ => "F"
  end%char.

(** The bytes that [application/x-www-form-urlencoded] leaves as they are:
    the ASCII letters and digits and [* - . _]. *)
Definition unreserved (b : nat) : bool :=
  ((48 <=? b) && (b <=? 57) || (65 <=? b) && (b <=? 90)
   || (97 <=? b) && (b <=? 122)
   || (b =? 42) || (b =? 45) || (b =? 46) || (b =? 95))%nat.

Definition encode_byte (b : nat) : string :=
  if unreserved b then String (ascii_of_nat b) EmptyString
  else if (b =? 32)%nat then "+"
  else String "%" (String (hex_digit (b / 16)) (String (hex_digit (b mod 16)) EmptyString)).

(** The UTF-8 bytes of a character with a code below 256. *)
Definition utf8 (c : ascii) : list nat :=
  let n := nat_of_ascii c in
  if (n <? 128)%nat then [n] else [192 + n / 64; 128 + n mod 64]%nat.

Fixpoint urlencode (s : string) : string :=
  match s with
  | EmptyString => EmptyString
  | String c r =>
      (fold_right (fun b acc => encode_byte b ++ acc) "" (utf8 c) ++ urlencode r)%string
  end.

(** [params.toString()] *)
Definition params_toString (l : params) : string :=
  join "&" (map (fun nv => (urlencode (fst nv) ++ "=" ++ urlencode (snd nv))%string) l).

(** [s.toLocaleLowerCase()] on characters with codes below 256. *)
Definition lower (c : ascii) : ascii :=
  let n := nat_of_ascii c in
  if ((65 <=? n) && (n <=? 90) || (192 <=? n) && (n <=? 222) && negb (n =? 215))%nat
  then ascii_of_nat (n + 32) else c.

Fixpoint toLocaleLowerCase (s : string) : string :=
  match s with
  | EmptyString => EmptyString
  | String c r => String (lower c) (toLocaleLowerCase r)
  end.

(** *** The transport and the other services of the runtime *)

(** A [Headers] object and a [FormData] object, as their entries. *)
Definition Headers := list (string * string).
Definition FormData := list (string * string).

(** [headers.set(name, value)]; header names are compared without regard
    to case and kept in lower case. *)
Definition Headers_set (name value : string) (h : Headers) : Headers :=
  params_set (toLocaleLowerCase name) value h.

(** The second argument of [fetch]. *)
Record RequestInit : Type := {
  init_headers : Headers;
  init_method : string;
  init_body : option FormData;
  init_mode : string;
  init_credentials : string
}.

(** A response: its headers, and what [res.json()] gives: the value the
    body parses to, or the exception the promise rejects with. *)
Record Response : Type := {
  response_headers : Headers;
  response_json : outcome js
}.

(** What the runtime provides and the source does not define:
    [JSON.stringify] ([None] for a result of [undefined]), [btoa],
    [Date.now] (the value of its n-th call) and [fetch] (the answer to the
    n-th request: a response, or the exception the promise rejects with). *)
Record runtime : Type := {
  JSON_stringify : js -> option string;
  btoa : string -> string;
  Date_now : nat -> Z;
  fetch : nat -> string -> RequestInit -> outcome Response
}.

(** What a call does to the world, in order. *)
Inductive event : Type :=
| EvFetch (url : string) (init : RequestInit)
| EvLog (message : string)
| EvTimeout (ms : Z).

Record world : Type := {
  ticks : nat;
  fetches : nat;
  log : list event
}.

(** *** The class *)

Record Results : Type := {
  res : option Response;
  start : option Z;
  end_ : option Z
}.

Record Options : Type := {
  offset : Num.number;
  limit : Num.number;
  filter : js;
  headers : Headers;
  body : FormData;
  method : string
}.

Record Config : Type := {
  endpoint : string;
  service : js;
  func : js;
  username : js;
  password : js
}.

Record SLAPIRequest : Type := {
  results : Results;
  options : Options;
  config : Config;
  mask : Mask.SLAPIMask;
  resArr : option (list js)
}.

Definition with_results (r : SLAPIRequest) (x : Results) : SLAPIRequest :=
  {| results := x; options := options r; config := config r; mask := mask r;
     resArr := resArr r |}.

Definition with_options (r : SLAPIRequest) (x : Options) : SLAPIRequest :=
  {| results := results r; options := x; config := config r; mask := mask r;
     resArr := resArr r |}.

Definition with_config (r : SLAPIRequest) (x : Config) : SLAPIRequest :=
  {| results := results r; options := options r; config := x; mask := mask r;
     resArr := resArr r |}.

Definition with_resArr (r : SLAPIRequest) (x : list js) : SLAPIRequest :=
  {| results := results r; options := options r; config := config r; mask := mask r;
     resArr := Some x |}.

(** [constructor ({service, func, mask, filter, username, password})], every
    option given, on the initial values of the class fields. *)
Definition new (service func : js) (mask : Mask.SLAPIMask) (filter username password : js)
  : SLAPIRequest :=
  {| results := {| res := None; start := None; end_ := None |};
     options := {| offset := 0%Z; limit := 25%Z; filter := filter; headers := [];
                   body := []; method := "get" |};
     config := {| endpoint := "https://api.softlayer.com/rest/v3.1/";
                  service := service; func := func;
                  username := username; password := password |};
     mask := mask;
     resArr := None |}.

Section Methods.

Variable R : runtime.

(** [get url ()] *)
Definition url (r : SLAPIRequest) : outcome string :=
  if negb (truthy (service (config r))) then Throws (Mask.Error "Invalid service")
  else if negb (truthy (func (config r))) then Throws (Mask.Error "Invalid function")
  else Returns (endpoint (config r) ++ to_string (service (config r)) ++ "/"
                  ++ to_string (func (config r)))%string.

(** [params], the [URLSearchParams] of [urlQuery], after its [set] calls.
    When [JSON.stringify] gives [undefined], [filter !== '{}'] holds and
    [set] converts [undefined] to a string. *)
Definition query_params (r : SLAPIRequest) : params :=
  let mask := Mask.maskString (mask r) in
  let params := [] in
  let params :=
    if negb (String.eqb mask "mask[]") then params_set "objectMask" mask params
    else params in
  let params :=
    match JSON_stringify R (filter (options r)) with
    | Some filter =>
        if negb (String.eqb filter "{}") then params_set "objectFilter" filter params
        else params
    | None => params_set "objectFilter" "undefined" params
    end in
  params_set "resultLimit"
    (Num.to_string (offset (options r)) ++ ","
       ++ Num.to_string (limit (options r)))%string params.

(** The string [urlQuery] returns when it does not throw. *)
Definition query_url (r : SLAPIRequest) : string :=
  (endpoint (config r) ++ to_string (service (config r)) ++ "/"
     ++ to_string (func (config r)) ++ "?" ++ params_toString (query_params r))%string.

(** [get urlQuery ()] *)
Definition urlQuery (r : SLAPIRequest) : outcome string :=
  if negb (truthy (service (config r))) then Throws (Mask.Error "Invalid service")
  else if negb (truthy (func (config r))) then Throws (Mask.Error "Invalid function")
  else Returns (query_url r).

(** [null] counts as 0 in a subtraction. *)
Definition number_of (t : option Z) : Z :=
  match t with Some z => z | None => 0%Z end.

(** [get duration ()] *)
Definition duration (r : SLAPIRequest) : string :=
  (of_Z (number_of (end_ (results r)) - number_of (start (results r))) ++ "ms")%string.

(** [set username (username)] and [set password (password)] *)
Definition set_username (u : js) (r : SLAPIRequest) : SLAPIRequest :=
  with_config r {| endpoint := endpoint (config r); service := service (config r);
                   func := func (config r); username := u;
                   password := password (config r) |}.

Definition set_password (p : js) (r : SLAPIRequest) : SLAPIRequest :=
  with_config r {| endpoint := endpoint (config r); service := service (config r);
                   func := func (config r); username := username (config r);
                   password := p |}.

(** [page (page = 1)]: [this.options.offset = (page - 1) * this.options.limit] *)
Definition page (page : Num.number) (r : SLAPIRequest) : SLAPIRequest :=
  with_options r {| offset := Num.mul (Num.sub page 1%Z) (limit (options r));
                    limit := limit (options r); filter := filter (options r);
                    headers := headers (options r); body := body (options r);
                    method := method (options r) |}.

(** [method (method = 'get')] and [body (body = new FormData())] *)
Definition set_method (m : string) (r : SLAPIRequest) : SLAPIRequest :=
  with_options r {| offset := offset (options r); limit := limit (options r);
                    filter := filter (options r); headers := headers (options r);
                    body := body (options r); method := m |}.

Definition set_body (b : FormData) (r : SLAPIRequest) : SLAPIRequest :=
  with_options r {| offset := offset (options r); limit := limit (options r);
                    filter := filter (options r); headers := headers (options r);
                    body := b; method := method (options r) |}.

(** [_this.options.headers.set(name, value)] *)
Definition set_header (name value : string) (r : SLAPIRequest) : SLAPIRequest :=
  with_options r {| offset := offset (options r); limit := limit (options r);
                    filter := filter (options r);
                    headers := Headers_set name value (headers (options r));
                    body := body (options r); method := method (options r) |}.

(** [Date.now()] *)
Definition now (w : world) : Z * world :=
  (Date_now R (ticks w),
   {| ticks := S (ticks w); fetches := fetches w; log := log w |}).

Definition emit (e : event) (w : world) : world :=
  {| ticks := ticks w; fetches := fetches w; log := log w ++ [e] |}.

(** [await timeout()], with [timeout = (ms = 300) => new Promise(resolve =>
    setTimeout(resolve, ms))] *)
Definition timeout (ms : Z) (w : world) : world := emit (EvTimeout ms) w.

(** [console.log(message)] *)
Definition console_log (message : string) (w : world) : world :=
  emit (EvLog message) w.

(** [await fetch(url, init)] *)
Definition do_fetch (u : string) (init : RequestInit) (w : world)
  : outcome Response * world :=
  (fetch R (fetches w) u init,
   {| ticks := ticks w; fetches := S (fetches w); log := log w ++ [EvFetch u init] |}).

(** [_this.options.method || 'get'] *)
Definition sent_method (r : SLAPIRequest) : string :=
  if String.eqb (method (options r)) "" then "get" else method (options r).

(** A call of a method that awaits: what it returns or throws, the instance
    and the world after it. *)
Definition action (A : Type) : Type := outcome A * SLAPIRequest * world.

(** [async exec (_this = this)], called on the instance itself. *)
Definition exec (r : SLAPIRequest) (w : world) : action js :=
  if negb (truthy (username (config r))) || negb (truthy (password (config r)))
  then (Returns (JError "Invalid API token"), r, w)
  else
    let (t0, w) := now w in
    let r := with_results r {| res := res (results r); start := Some t0;
                               end_ := end_ (results r) |} in
    match urlQuery r with
    | Throws e => (Throws e, r, w)
    | Returns query =>
        let method := sent_method r in
        let authString := (to_string (username (config r)) ++ ":"
                           ++ to_string (password (config r)))%string in
        let r := set_header "Authorization" ("Basic " ++ btoa R authString) r in
        match (if String.eqb (toLocaleLowerCase method) "post"
               then match url r with
                    | Returns u => Returns (u, Some (body (options r)))
                    | Throws e => Throws e
                    end
               else Returns (query, None)) with
        | Throws e => (Throws e, r, w)
        | Returns (u, b) =>
            let init := {| init_headers := headers (options r);
                           init_method := method; init_body := b;
                           init_mode := "cors"; init_credentials := "include" |} in
            match do_fetch u init w with
            | (Throws e, w) => (Throws e, r, w)
            | (Returns response, w) =>
                let r := with_results r {| res := Some response;
                                           start := start (results r);
                                           end_ := end_ (results r) |} in
                let (t1, w) := now w in
                let r := with_results r {| res := res (results r);
                                           start := start (results r);
                                           end_ := Some t1 |} in
                match response_json response with
                | Throws e => (Throws e, r, w)
                | Returns result => (Returns result, r, w)
                end
            end
        end
    end.

(** [[].concat.apply([], resArr)]: an array among the results is spread,
    any other result is one element. *)
Definition concat_apply (resArr : list js) : list js :=
  flat_map (fun x => match x with JArray items => items | _ => [x] end) resArr.

(** The message [getNumOfPages] logs after a page. *)
Definition progress (i pages : Z) (r : SLAPIRequest) : string :=
  ("Retrieved page " ++ of_Z i ++ " of " ++ of_Z pages ++ " in " ++ duration r)%string.

(** The loop of [getNumOfPages] from the counter [i] on, with the results
    collected so far. *)
Equations? pages_loop (pages i : Z) (resArr : list js) (r : SLAPIRequest) (w : world)
  : action (list js) by wf (Z.to_nat (pages + 1 - i)) lt :=
  pages_loop pages i resArr r w with Z_le_gt_dec i pages => {
    | right _ => (Returns resArr, r, w);
    | left _ with exec (page i r) w => {
        | (Throws e, r', w') => (Throws e, r', w');
        | (Returns res, r', w') =>
            pages_loop pages (i + 1) (resArr ++ [res]) r'
              (timeout 300 (console_log (progress i pages r') w'))
      }
  }.
Proof. lia. Qed.

(** [async getNumOfPages (pages = 1)] *)
Definition getNumOfPages (pages : Z) (r : SLAPIRequest) (w : world) : action js :=
  match pages_loop pages 1 [] r w with
  | (Throws e, r, w) => (Throws e, r, w)
  | (Returns resArr, r, w) =>
      let r := with_resArr r (concat_apply resArr) in
      (Returns (JArray (concat_apply resArr)), r, w)
  end.

(** The builder [employeeLogin] creates and configures: [apiCall] after
    [apiCall.method('post').body(body)]. *)
Definition apiCall (username password token : js) : SLAPIRequest :=
  set_body [("remoteToken", to_string token)]
    (set_method "post"
       (new (JString "SoftLayer_User_Employee") (JString "getEncryptedSessionToken")
            Mask.new (JObject []) username password)).

(** [async employeeLogin (username, password, token)] *)
Definition employeeLogin (username password token : js) (r : SLAPIRequest) (w : world)
  : action unit :=
  if negb (truthy username) || negb (truthy password) || negb (truthy token)
  then (Throws (Mask.Error "Missing login credentials"), r, w)
  else
    match exec (apiCall username password token) w with
    | (Throws e, _, w) => (Throws e, r, w)
    | (Returns res, _, w) =>
        match get_field res "error" with
        | Throws e => (Throws e, r, w)
        | Returns error =>
            if truthy error then (Throws (Mask.Error (to_string error)), r, w)
            else
              match get_field res "userId", get_field res "hash" with
              | Returns userId, Returns hash =>
                  (Returns tt, set_password hash (set_username userId r), w)
              | Throws e, _ | _, Throws e => (Throws e, r, w)
              end
        end
    end.

(** *** Notions the specification uses *)

(** The page indices [i], [i + 1], ..., [pages]. *)
Definition indices_from (i pages : Z) : list Z :=
  map (fun k => (i + Z.of_nat k)%Z) (seq 0 (Z.to_nat (pages + 1 - i))).

(** The page indices 1 to [pages] inclusive. *)
Definition page_indices (pages : Z) : list Z := indices_from 1 pages.

(** The pagination as the specification words it: for each page index in
    turn, set the current page, execute, append the result to the
    accumulator, then pause; a failure of [exec] ends it. *)
Fixpoint fetch_pages (pages : Z) (indices : list Z) (r : SLAPIRequest) (w : world)
  : action (list js) :=
  match indices with
  | [] => (Returns [], r, w)
  | i :: rest =>
      match exec (page i r) w with
      | (Throws e, r', w') => (Throws e, r', w')
      | (Returns result, r', w') =>
          match fetch_pages pages rest r'
                  (timeout 300 (console_log (progress i pages r') w')) with
          | (Returns results, r'', w'') => (Returns (result :: results), r'', w'')
          | (Throws e, r'', w'') => (Throws e, r'', w'')
          end
      end
  end.

(** The flattened concatenation of the page results, stored and returned. *)
Definition flattened (a : action (list js)) : action js :=
  match a with
  | (Throws e, r, w) => (Throws e, r, w)
  | (Returns results, r, w) =>
      (Returns (JArray (concat_apply results)),
       with_resArr r (concat_apply results), w)
  end.

(** One level of flattening, as the specification words it: the elements of
    a result that is an array, a result that is not an array as it is, in
    the order of the results. *)
Fixpoint flattened_once (results : list js) : list js :=
  match results with
  | [] => []
  | JArray items :: rest => items ++ flattened_once rest
  | result :: rest => result :: flattened_once rest
  end.

(** The query parameters as the specification words them: [objectMask]
    unless the mask is the empty-tree serialization, [objectFilter] unless
    the filter serializes to [{}], and always [resultLimit]. *)
Definition mask_param (r : SLAPIRequest) : params :=
  if String.eqb (Mask.maskString (mask r)) "mask[]" then []
  else [("objectMask", Mask.maskString (mask r))].

Definition filter_param (r : SLAPIRequest) : params :=
  match JSON_stringify R (filter (options r)) with
  | Some f => if String.eqb f "{}" then [] else [("objectFilter", f)]
  | None => [("objectFilter", "undefined")]
  end.

Definition limit_param (r : SLAPIRequest) : params :=
  [("resultLimit", (Num.to_string (offset (options r)) ++ ","
                      ++ Num.to_string (limit (options r)))%string)].

Definition expected_params (r : SLAPIRequest) : params :=
  mask_param r ++ filter_param r ++ limit_param r.

(** The offset of page [i]: the limit, [i - 1] times. *)
Definition page_offset (i : Z) (r : SLAPIRequest) : Num.number :=
  Num.mul (Num.sub i 1%Z) (limit (options r)).

(** The URL of the request for page [i]: the endpoint, the service, the
    function and the query of the builder, with the offset of that page. *)
Definition page_url (i : Z) (r : SLAPIRequest) : string :=
  (endpoint (config r) ++ to_string (service (config r)) ++ "/"
     ++ to_string (func (config r)) ++ "?"
     ++ params_toString
          (mask_param r ++ filter_param r
             ++ [("resultLimit",
                  (Num.to_string (page_offset i r) ++ ","
                     ++ Num.to_string (limit (options r)))%string)])%list)%string.

(** The pages of [indices], fetched one by one from the n-th request on:
    the parsed bodies in page order, and the events in order: for each page
    one request at the URL of that page, then a progress line, then the
    pause of 300 ms. *)
Inductive page_rounds (r : SLAPIRequest) : nat -> list Z -> list js -> list event -> Prop :=
| page_rounds_nil n : page_rounds r n [] [] []
| page_rounds_cons n i rest init response result message results events :
    fetch R n (page_url i r) init = Returns response ->
    response_json response = Returns result ->
    page_rounds r (S n) rest results events ->
    page_rounds r n (i :: rest) (result :: results)
      (EvFetch (page_url i r) init :: EvLog message :: EvTimeout 300 :: events).

(** The transport answers every request with a body that parses. *)
Definition transport_answers : Prop :=
  forall n u init, exists response result,
    fetch R n u init = Returns response /\ response_json response = Returns result.

(** Two builders that send the same queries, page by page: they differ at
    most in the results, the offset and the headers. *)
Definition same_query (r r' : SLAPIRequest) : Prop :=
  config r' = config r /\ mask r' = mask r /\
  limit (options r') = limit (options r) /\
  filter (options r') = filter (options r) /\
  method (options r') = method (options r).

End Methods.

(** *** A runtime and a builder to run the methods on *)

(** A runtime whose transport answers every request with the same body. *)
Definition sample_runtime (body : js) : runtime := {|
  JSON_stringify := fun v => match v with JObject [] => Some "{}" | _ => None end;
  btoa := fun s => s;
  Date_now := fun n => Z.of_nat n;
  fetch := fun _ _ _ =>
    Returns {| response_headers := []; response_json := Returns body |}
|}.

Definition sample_request : SLAPIRequest :=
  new (JString "S") (JString "F") Mask.new (JObject []) (JString "user") (JString "key").

Definition fresh_world : world := {| ticks := 0; fetches := 0; log := [] |}.

(** *** More of the class *)

(** [headers.get(name)]: the values of the headers of that name, compared
    without regard to case, joined by a comma and a space; [None] for
    [null], when there is none. *)
Definition Headers_get (name : string) (h : Headers) : option string :=
  match List.filter (fun nv => String.eqb (toLocaleLowerCase (fst nv))
                                 (toLocaleLowerCase name)) h with
  | [] => None
  | found => Some (join ", " (map snd found))
  end.

(** What [totalItems] returns: [NaN], the text of the header, or the
    number 0. *)
Inductive total : Type :=
| TotalNaN
| TotalText (s : string)
| TotalZero.

(** [get totalItems ()] *)
Definition totalItems (r : SLAPIRequest) : total :=
  match res (results r) with
  | None => TotalNaN
  | Some response =>
      match Headers_get "SoftLayer-Total-Items" (response_headers response) with
      | Some s => if String.eqb s "" then TotalZero else TotalText s
      | None => TotalZero
      end
  end.

(** The chainable setters; [None] is an argument left out, which takes the
    default. *)

(** [endpoint (endpoint = 'https://api.softlayer.com/rest/v3.1/')] *)
Definition set_endpoint (e : option string) (r : SLAPIRequest) : SLAPIRequest :=
  with_config r {| endpoint := match e with
                               | Some e => e
                               | None => "https://api.softlayer.com/rest/v3.1/"
                               end;
                   service := service (config r); func := func (config r);
                   username := username (config r);
                   password := password (config r) |}.

(** [function (func = 'getObject')] *)
Definition set_function (f : js) (r : SLAPIRequest) : SLAPIRequest :=
  with_config r {| endpoint := endpoint (config r); service := service (config r);
                   func := match f with JUndefined => JString "getObject" | _ => f end;
                   username := username (config r);
                   password := password (config r) |}.

(** [service (val = 'SoftLayer_Hardware_Server')] *)
Definition set_service (val : js) (r : SLAPIRequest) : SLAPIRequest :=
  with_config r {| endpoint := endpoint (config r);
                   service := match val with
                              | JUndefined => JString "SoftLayer_Hardware_Server"
                              | _ => val
                              end;
                   func := func (config r); username := username (config r);
                   password := password (config r) |}.

(** [filter (filter = {})] and its alias [search] *)
Definition set_filter (f : js) (r : SLAPIRequest) : SLAPIRequest :=
  with_options r {| offset := offset (options r); limit := limit (options r);
                    filter := match f with JUndefined => JObject [] | _ => f end;
                    headers := headers (options r); body := body (options r);
                    method := method (options r) |}.

Definition search (f : js) (r : SLAPIRequest) : SLAPIRequest := set_filter f r.

(** [limit (limit = 25)] *)
Definition set_limit (l : option Num.number) (r : SLAPIRequest) : SLAPIRequest :=
  with_options r {| offset := offset (options r);
                    limit := match l with Some l => l | None => Num.Finite 25 end;
                    filter := filter (options r); headers := headers (options r);
                    body := body (options r); method := method (options r) |}.

(** [offset (offset = 0)] *)
Definition set_offset (o : option Num.number) (r : SLAPIRequest) : SLAPIRequest :=
  with_options r {| offset := match o with Some o => o | None => Num.Finite 0 end;
                    limit := limit (options r);
                    filter := filter (options r); headers := headers (options r);
                    body := body (options r); method := method (options r) |}.

(** The number of occurrences of a character in a string. *)
Fixpoint count_char (c : ascii) (s : string) : nat :=
  match s with
  | EmptyString => 0
  | String x r => (if Ascii.eqb x c then 1 else 0) + count_char c r
  end.

(** The URL [employeeLogin] posts to. *)
Definition login_url : string :=
  "https://api.softlayer.com/rest/v3.1/SoftLayer_User_Employee/getEncryptedSessionToken".

(** The header [exec] sets. *)
Definition authorization (R : runtime) (u p : js) : string :=
  ("Basic " ++ btoa R (to_string u ++ ":" ++ to_string p))%string.

(** *** The request [exec] sends *)

(** The string [url] returns when it does not throw. *)
Definition base_url (r : SLAPIRequest) : string :=
  (endpoint (config r) ++ to_string (service (config r)) ++ "/"
     ++ to_string (func (config r)))%string.

(** The second argument of the [fetch] of [exec]: the headers with the
    [Authorization] set, the method, and the body for a post. *)
Definition sent_init (R : runtime) (r : SLAPIRequest) : RequestInit :=
  {| init_headers :=
       Headers_set "Authorization"
         (authorization R (username (config r)) (password (config r)))
         (headers (options r));
     init_method := sent_method r;
     init_body := if String.eqb (toLocaleLowerCase (sent_method r)) "post"
                  then Some (body (options r)) else None;
     init_mode := "cors";
     init_credentials := "include" |}.

(** Its first argument: [url] for a post, [urlQuery] otherwise. *)
Definition sent_url (R : runtime) (r : SLAPIRequest) : string :=
  if String.eqb (toLocaleLowerCase (sent_method r)) "post"
  then base_url r else query_url R r.

(** The instance after [_this.results.start = Date.now()]. *)
Definition started (R : runtime) (r : SLAPIRequest) (w : world) : SLAPIRequest :=
  with_results r {| res := res (results r); start := Some (Date_now R (ticks w));
                    end_ := end_ (results r) |}.

(** [response.headers.get('SoftLayer-Total-Items') || 0] *)
Definition total_of (response : Response) : total :=
  match Headers_get "SoftLayer-Total-Items" (response_headers response) with
  | Some s => if String.eqb s "" then TotalZero else TotalText s
  | None => TotalZero
  end.

(** The second argument of the [fetch] of [employeeLogin]. *)
Definition login_init (R : runtime) (u p t : js) : RequestInit :=
  {| init_headers := [("authorization", authorization R u p)];
     init_method := "post";
     init_body := Some [("remoteToken", to_string t)];
     init_mode := "cors";
     init_credentials := "include" |}.

(** The world after one request that was sent, and after one that was
    answered. *)
Definition sent (u : string) (init : RequestInit) (w : world) : world :=
  {| ticks := S (ticks w); fetches := S (fetches w);
     log := log w ++ [EvFetch u init] |}.

Definition answered (u : string) (init : RequestInit) (w : world) : world :=
  {| ticks := S (S (ticks w)); fetches := S (fetches w);
     log := log w ++ [EvFetch u init] |}.

(** The parameters before [resultLimit], with the ['&'] that follows
    them. *)
Definition leading_params (l : params) : string :=
  match l with
  | [] => ""
  | _ => (params_toString l ++ "&")%string
  end.

(** *** More runtimes and builders to run the methods on *)

(** A runtime whose responses carry a total of 42 items. *)
Definition counting_runtime (body : js) : runtime := {|
  JSON_stringify := JSON_stringify (sample_runtime body);
  btoa := btoa (sample_runtime body);
  Date_now := fun n => (1000 + 7 * Z.of_nat n)%Z;
  fetch := fun _ _ _ =>
    Returns {| response_headers := [("softlayer-total-items", "42")];
               response_json := Returns body |}
|}.

(** A builder without a username. *)
Definition anonymous_request : SLAPIRequest :=
  new (JString "S") (JString "F") Mask.new (JObject []) JUndefined (JString "key").

End Request.

(** ** Facts about numbers *)

Module NumFacts.

Import Num.

Lemma two53_overflow : (two53 < overflow)%Z.
Proof. reflexivity. Qed.

(** A safe integer is its own Number value. *)
Lemma value_of_safe z : safe z -> value_of z = Finite z.
Proof.
  unfold safe, value_of, round53. intros H.
  pose proof two53_overflow as Ho.
  destruct (Z.ltb_spec (Z.abs z) two53) as [_|Hge]; [|lia].
  destruct (Z.leb_spec overflow (Z.abs z)) as [Hle|_]; [lia|].
  f_equal. destruct z; reflexivity.
Qed.

(** On safe integers with a safe result, the arithmetic is exact. *)
Lemma sub_safe a b :
  safe a -> safe b -> safe (a - b) -> sub (Finite a) (Finite b) = Finite (a - b).
Proof.
  intros Ha Hb Hab. unfold sub, norm.
  rewrite (value_of_safe a Ha), (value_of_safe b Hb). apply value_of_safe, Hab.
Qed.

Lemma mul_safe a b :
  safe a -> safe b -> safe (a * b) -> mul (Finite a) (Finite b) = Finite (a * b).
Proof.
  intros Ha Hb Hab. unfold mul, norm.
  rewrite (value_of_safe a Ha), (value_of_safe b Hb). apply value_of_safe, Hab.
Qed.

Lemma decimal_negative z : (z < 0)%Z -> decimal z = ("-" ++ decimal (- z))%string.
Proof. destruct z; try lia. intros _. reflexivity. Qed.

(** A safe integer prints as its decimal digits. *)
Lemma to_string_safe z : safe z -> to_string (Finite z) = decimal z.
Proof.
  intros H. unfold to_string, norm. rewrite (value_of_safe z H).
  unfold safe in H. unfold printed.
  destruct (Z.ltb_spec z 0) as [Hn|Hp].
  - destruct (Z.ltb_spec (- z) two53) as [_|Hge]; [|lia].
    symmetry. apply decimal_negative, Hn.
  - destruct (Z.ltb_spec z two53) as [_|Hge]; [reflexivity | lia].
Qed.

(** Beyond the safe integers: the rounding of a product, the shortest
    digits, the exponent form from 10^21, the infinities. *)
Example beyond_safe_integers :
  mul (Finite 3) (Finite (two53 - 1)) = Finite 27021597764222972 /\
  to_string (Finite (two53 + 1)) = "9007199254740992" /\
  to_string (Finite (2 ^ 64)) = "18446744073709552000" /\
  to_string (Finite 123456789012345678901) = "123456789012345680000" /\
  to_string (Finite (10 ^ 21)) = "1e+21" /\
  to_string (mul (Finite (10 ^ 11)) (Finite (10 ^ 11))) = "1e+22" /\
  to_string (Finite (2 ^ 70)) = "1.1805916207174113e+21" /\
  to_string (Finite (- 2 ^ 100)) = "-1.2676506002282294e+30" /\
  to_string (Finite ((two53 - 1) * 2 ^ 971)) = "1.7976931348623157e+308" /\
  mul (Finite (10 ^ 200)) (Finite (10 ^ 200)) = Infinity false /\
  to_string (Finite (2 ^ 1024)) = "Infinity" /\
  mul (Infinity true) (Finite 0) = NaN /\
  sub (Infinity false) (Finite 1) = Infinity false.
Proof. vm_compute. repeat split. Qed.

End NumFacts.

(** ** Facts about strings *)

Module StrFacts.

Import Str.

Lemma split_dot_not_nil s : split_dot s <> [].
Proof.
  destruct s as [|c r]; simpl; [discriminate|].
  destruct (Ascii.eqb c "."); [discriminate|].
  destruct (split_dot r); discriminate.
Qed.

Lemma split_dot_segments s : Forall (fun x => has_dot x = false) (split_dot s).
Proof.
  induction s as [|c r IH]; simpl.
  - repeat constructor.
  - destruct (Ascii.eqb c ".") eqn:E.
    + constructor; [reflexivity | exact IH].
    + destruct (split_dot r) as [|h t].
      * constructor; [simpl; rewrite E; reflexivity | constructor].
      * inversion IH; subst. constructor; [simpl; rewrite E; assumption | assumption].
Qed.

Lemma join_cons2 sep x y r :
  join sep (x :: y :: r) = (x ++ sep ++ join sep (y :: r))%string.
Proof. reflexivity. Qed.

Lemma join_split_dot s : join "." (split_dot s) = s.
Proof.
  induction s as [|c r IH]; simpl; [reflexivity|].
  destruct (Ascii.eqb c ".") eqn:E.
  - apply Ascii.eqb_eq in E; subst c.
    pose proof (split_dot_not_nil r) as Hn.
    destruct (split_dot r) as [|h t]; [contradiction|].
    simpl in *. rewrite IH. reflexivity.
  - pose proof (split_dot_not_nil r) as Hn.
    destruct (split_dot r) as [|h t]; [contradiction|].
    destruct t as [|h' t']; simpl in *; rewrite <- IH; reflexivity.
Qed.

Lemma split_dot_dotless x : has_dot x = false -> split_dot x = [x].
Proof.
  induction x as [|c r IH]; simpl; intros H; [reflexivity|].
  destruct (Ascii.eqb c "."); [discriminate|].
  rewrite (IH H). reflexivity.
Qed.

Lemma split_dot_prefix x s :
  has_dot x = false -> split_dot (x ++ "." ++ s) = x :: split_dot s.
Proof.
  induction x as [|c r IH]; intros H; [reflexivity|].
  simpl in H. destruct (Ascii.eqb c ".") eqn:E; [discriminate|].
  specialize (IH H). simpl in IH |- *. rewrite E, IH. reflexivity.
Qed.

Lemma split_dot_join l :
  l <> [] -> Forall (fun x => has_dot x = false) l -> split_dot (join "." l) = l.
Proof.
  induction l as [|x r IH]; intros Hn Hl; [contradiction|].
  inversion Hl as [|? ? Hx Hr]; subst.
  destruct r as [|y r'].
  - simpl. apply split_dot_dotless; assumption.
  - rewrite join_cons2, split_dot_prefix by assumption.
    rewrite IH; [reflexivity | discriminate | assumption].
Qed.

Lemma has_dot_app a b : has_dot (a ++ b) = has_dot a || has_dot b.
Proof.
  induction a as [|c r IH]; simpl; [reflexivity|].
  destruct (Ascii.eqb c "."); [reflexivity | exact IH].
Qed.

Lemma append_assoc (a b c : string) : ((a ++ b) ++ c = a ++ (b ++ c))%string.
Proof. induction a as [|x a IH]; simpl; [reflexivity | rewrite IH; reflexivity]. Qed.

Lemma append_empty_r (a : string) : (a ++ "")%string = a.
Proof. induction a as [|x a IH]; simpl; [reflexivity | rewrite IH; reflexivity]. Qed.

Lemma append_not_empty (a b : string) : b <> "" -> (a ++ b)%string <> "".
Proof. destruct a; simpl; [auto | discriminate]. Qed.

End StrFacts.

(** ** Facts about the mask tree *)

Module MaskFacts.

Import Str StrFacts Mask.

(** *** Unfolding the traversals of an object one property at a time *)

Lemma recurse_cons p k v r cur :
  recurse (VObject p ((k, v) :: r)) cur =
  (if truthy v && typeof_object v && (0 <? keys_length v)%nat
   then recurse v (Some (newKey cur k)) else [newKey cur k])
  ++ recurse (VObject p r) cur.
Proof. reflexivity. Qed.

Lemma leaf_paths_cons p k c r :
  leaf_paths (VObject p ((k, c) :: r)) =
  (if is_leaf c then [[k]] else map (cons k) (leaf_paths c))
  ++ leaf_paths (VObject p r).
Proof. reflexivity. Qed.

Lemma tree_cons p k c r :
  tree (VObject p ((k, c) :: r)) = tree c && tree (VObject p r).
Proof. reflexivity. Qed.

Lemma tree_object v : tree v = true -> exists p ps, v = VObject p ps.
Proof. destruct v; try discriminate. eauto. Qed.

Lemma tree_guard v :
  tree v = true ->
  truthy v && typeof_object v && (0 <? keys_length v)%nat = negb (is_leaf v).
Proof.
  intros H. destruct (tree_object v H) as (p & ps & ->).
  unfold is_leaf. simpl. destruct ps; reflexivity.
Qed.

Lemma leaf_paths_not_nil v : forall p, In p (leaf_paths v) -> p <> [].
Proof.
  induction v as [| | | |q ps IH] using value_induction; try (intros p []).
  induction IH as [|[k c] r Hc _ IHr]; intros p Hp; [destruct Hp|].
  rewrite leaf_paths_cons in Hp. apply in_app_or in Hp as [Hp|Hp].
  - destruct (is_leaf c).
    + destruct Hp as [<-|[]]. discriminate.
    + apply in_map_iff in Hp as (p' & <- & _). discriminate.
  - apply IHr; assumption.
Qed.

Lemma join_cons_path k p : p <> [] -> join "." (k :: p) = (k ++ "." ++ join "." p)%string.
Proof. destruct p; [contradiction | reflexivity]. Qed.

(** Below a prefix that is not empty the traversal dot-joins the path. *)
Lemma recurse_prefixed v :
  forall c, tree v = true -> c <> "" ->
  recurse v (Some c) = map (fun p => (c ++ "." ++ join "." p)%string) (leaf_paths v).
Proof.
  induction v as [| | | |q ps IH] using value_induction; try discriminate.
  induction IH as [|[k v] r Hv _ IHr]; intros c Ht Hc; [reflexivity|].
  rewrite tree_cons in Ht. apply andb_true_iff in Ht as [Htv Htr].
  rewrite recurse_cons, leaf_paths_cons, map_app, (IHr c Htr Hc), (tree_guard v Htv).
  f_equal. simpl in Hv.
  assert (Hk : newKey (Some c) k = (c ++ "." ++ k)%string).
  { unfold newKey. destruct (String.eqb_spec c ""); [contradiction | reflexivity]. }
  rewrite Hk.
  destruct (is_leaf v); cbn [negb map]; [reflexivity|].
  - rewrite Hv; [| assumption | apply append_not_empty; discriminate].
    rewrite map_map. apply map_ext_in. intros p Hp.
    rewrite (join_cons_path k p (leaf_paths_not_nil v p Hp)).
    rewrite !append_assoc. reflexivity.
Qed.

(** At the root the traversal dot-joins the path as long as no key of the
    root that has children is the empty string. *)
Lemma recurse_root q ps :
  tree (VObject q ps) = true ->
  (forall k c, In (k, c) ps -> k = "" -> is_leaf c = true) ->
  recurse (VObject q ps) None = map (join ".") (leaf_paths (VObject q ps)).
Proof.
  induction ps as [|[k v] r IHr]; intros Ht Hk; [reflexivity|].
  rewrite tree_cons in Ht. apply andb_true_iff in Ht as [Htv Htr].
  rewrite recurse_cons, leaf_paths_cons, map_app, (tree_guard v Htv).
  rewrite IHr; [| assumption | intros k' c' Hin; apply Hk; right; assumption].
  f_equal. destruct (is_leaf v) eqn:El; simpl; [reflexivity|].
  assert (k <> "") as Hne.
  { intros ->. rewrite (Hk "" v (or_introl eq_refl) eq_refl) in El. discriminate. }
  rewrite (recurse_prefixed v k Htv Hne), map_map.
  apply map_ext_in. intros p Hp.
  rewrite (join_cons_path k p (leaf_paths_not_nil v p Hp)). reflexivity.
Qed.

(** The serialization of a tree none of whose root keys with children is
    empty is the one the specification describes. *)
Lemma toString_leaf_paths q ps :
  tree (VObject q ps) = true ->
  (forall k c, In (k, c) ps -> k = "" -> is_leaf c = true) ->
  toString {| _maskObj := VObject q ps |} = serialization_spec (VObject q ps).
Proof.
  intros Ht Hk. unfold toString, serialization_spec, _objToStr. simpl _maskObj.
  rewrite (recurse_root q ps Ht Hk). reflexivity.
Qed.

(** What [toString] gives on any tree: every leaf path dot-joined without
    its leading empty segments. *)
Lemma recurse_keyed v :
  forall cur, tree v = true -> recurse v cur = map (keyed cur) (leaf_paths v).
Proof.
  induction v as [| | | |q ps IH] using value_induction; try discriminate.
  induction IH as [|[k v] r Hv _ IHr]; intros cur Ht; [reflexivity|].
  rewrite tree_cons in Ht. apply andb_true_iff in Ht as [Htv Htr].
  rewrite recurse_cons, leaf_paths_cons, map_app, (IHr cur Htr), (tree_guard v Htv).
  f_equal. simpl in Hv.
  destruct (is_leaf v); cbn [negb map]; [reflexivity|].
  rewrite (Hv _ Htv), map_map. reflexivity.
Qed.

Lemma keyed_prefixed path : forall c,
  c <> "" -> keyed (Some c) path = join "." (c :: path).
Proof.
  induction path as [|k rest IH]; intros c Hc; [reflexivity|].
  cbn [keyed]. unfold newKey. destruct (String.eqb_spec c ""); [contradiction|].
  rewrite IH by (apply append_not_empty; discriminate).
  rewrite (join_cons2 "." c k rest).
  destruct rest as [|y r']; [reflexivity|].
  rewrite !join_cons2, !append_assoc. reflexivity.
Qed.

Lemma keyed_empty_prefix path : keyed (Some "") path = keyed None path.
Proof. destruct path; reflexivity. Qed.

Lemma keyed_root path : keyed None path = join "." (skip_empty path).
Proof.
  induction path as [|k rest IH]; [reflexivity|].
  cbn [keyed newKey]. destruct k as [|c k'].
  - rewrite keyed_empty_prefix. exact IH.
  - apply keyed_prefixed. discriminate.
Qed.

Lemma toString_skips_empty_prefix m :
  tree (_maskObj m) = true ->
  toString m =
  ("mask[" ++ join "," (map (fun p => join "." (skip_empty p)) (leaf_paths (_maskObj m)))
     ++ "]")%string.
Proof.
  intros Ht. unfold toString, _objToStr. rewrite (recurse_keyed _ None Ht).
  do 3 f_equal. apply map_ext. intros p. apply keyed_root.
Qed.

(** The empty tree, with or without prototype, serializes to [mask[]]. *)
Lemma toString_empty q : toString {| _maskObj := VObject q [] |} = "mask[]".
Proof. reflexivity. Qed.

(** *** The serialized paths do not depend on the order of creation *)

Lemma in_recurse q ps cur s :
  In s (recurse (VObject q ps) cur) <->
  exists k v, In (k, v) ps /\
    (if truthy v && typeof_object v && (0 <? keys_length v)%nat
     then In s (recurse v (Some (newKey cur k))) else s = newKey cur k).
Proof.
  induction ps as [|[k v] r IHr].
  - simpl. split; [intros [] | intros (k & v & [] & _)].
  - rewrite recurse_cons, in_app_iff, IHr. split.
    + intros [H|(k' & v' & Hin & H)].
      * exists k, v. split; [left; reflexivity|].
        destruct (truthy v && typeof_object v && (0 <? keys_length v)%nat);
          [assumption | destruct H as [H|[]]; symmetry; exact H].
      * exists k', v'. split; [right; assumption | assumption].
    + intros (k' & v' & [Heq|Hin] & H).
      * inversion Heq; subst. left.
        destruct (truthy v' && typeof_object v' && (0 <? keys_length v')%nat);
          [assumption | left; symmetry; exact H].
      * right. exists k', v'. split; assumption.
Qed.

Lemma same_mapping_guard v1 v2 :
  same_mapping v1 v2 ->
  truthy v1 && typeof_object v1 && (0 <? keys_length v1)%nat =
  truthy v2 && typeof_object v2 && (0 <? keys_length v2)%nat.
Proof.
  intros H. inversion H as [p1 ps1 p2 ps2 H12 H21]; subst. simpl.
  destruct ps1 as [|[k1 c1] r1], ps2 as [|[k2 c2] r2]; try reflexivity.
  - destruct (H21 k2 c2 (or_introl eq_refl)) as (? & [] & _).
  - destruct (H12 k1 c1 (or_introl eq_refl)) as (? & [] & _).
Qed.

Lemma recurse_same_mapping_incl v1 :
  forall v2 cur s, same_mapping v1 v2 ->
  In s (recurse v1 cur) -> In s (recurse v2 cur).
Proof.
  induction v1 as [| | | |q ps IH] using value_induction; intros v2 cur s Hs; try (inversion Hs; fail).
  inversion Hs as [p1 ps1 p2 ps2 H12 H21]; subst.
  rewrite !in_recurse. intros (k & v & Hin & H).
  destruct (H12 k v Hin) as (c2 & Hin2 & Hsame).
  exists k, c2. split; [assumption|].
  rewrite <- (same_mapping_guard _ _ Hsame).
  destruct (truthy v && typeof_object v && (0 <? keys_length v)%nat); [|assumption].
  rewrite Forall_forall in IH. apply (IH (k, v) Hin); assumption.
Qed.

Lemma same_mapping_sym v1 : forall v2, same_mapping v1 v2 -> same_mapping v2 v1.
Proof.
  induction v1 as [| | | |q ps IH] using value_induction; intros v2 Hs; try (inversion Hs; fail).
  inversion Hs as [p1 ps1 p2 ps2 H12 H21]; subst.
  rewrite Forall_forall in IH.
  constructor.
  - intros k c2 Hin. destruct (H21 k c2 Hin) as (c1 & Hin1 & Hsame).
    exists c1. split; [assumption | apply (IH (k, c1) Hin1); assumption].
  - intros k c1 Hin. destruct (H12 k c1 Hin) as (c2 & Hin2 & Hsame).
    exists c2. split; [assumption | apply (IH (k, c1) Hin); assumption].
Qed.

(** Two trees that hold the same mapping serialize to the same set of
    paths, however each of them was built. *)
Lemma recurse_same_mapping v1 v2 cur s :
  same_mapping v1 v2 -> (In s (recurse v1 cur) <-> In s (recurse v2 cur)).
Proof.
  intros H. split; apply recurse_same_mapping_incl;
    [assumption | apply same_mapping_sym; assumption].
Qed.

Lemma _checkKeys_cons p k c r :
  _checkKeys (VObject p ((k, c) :: r)) =
  if has_dot k then Throw (SyntaxError periods)
  else bind (if descends c then _checkKeys c else Normal tt)
            (fun _ => _checkKeys (VObject p r)).
Proof. reflexivity. Qed.

Lemma _checkKeys_object_results v :
  v <> VNull ->
  _checkKeys v = Normal tt \/ _checkKeys v = Throw (SyntaxError periods).
Proof.
  induction v as [| | | |q ps IH] using value_induction; intros Hn;
    try (left; reflexivity); [contradiction|].
  clear Hn. induction IH as [|[k c] r Hc _ IHr]; [left; reflexivity|].
  rewrite _checkKeys_cons. destruct (has_dot k); [right; reflexivity|].
  simpl in Hc. destruct (descends c) eqn:Ed.
  - assert (c <> VNull) as Hcn by (intros ->; discriminate).
    destruct (Hc Hcn) as [-> | ->]; simpl; [apply IHr | right; reflexivity].
  - simpl. apply IHr.
Qed.

Lemma _checkKeys_throws p ps k c :
  In (k, c) ps ->
  has_dot k = true \/ (descends c = true /\ _checkKeys c = Throw (SyntaxError periods)) ->
  _checkKeys (VObject p ps) = Throw (SyntaxError periods).
Proof.
  induction ps as [|[k' c'] r IHr]; intros Hin H; [destruct Hin|].
  rewrite _checkKeys_cons.
  destruct (has_dot k') eqn:Ek'; [reflexivity|].
  destruct Hin as [Heq|Hin].
  - inversion Heq; subst. destruct H as [H|[Hd Hc]]; [congruence|].
    rewrite Hd, Hc. reflexivity.
  - destruct (descends c') eqn:Ed; simpl; [|apply IHr; assumption].
    assert (c' <> VNull) as Hcn by (intros ->; discriminate).
    destruct (_checkKeys_object_results c' Hcn) as [-> | ->]; simpl;
      [apply IHr; assumption | reflexivity].
Qed.

Lemma plain_mapping_descends c :
  plain_mapping c -> dotted_through_plain c -> descends c = true.
Proof.
  intros (qs & -> & Hc) Hd. unfold descends, constructor_is_Object, has_key.
  rewrite Hc. simpl.
  inversion Hd as [? ? ? ? Hin _|? ? ? ? Hin _ _]; subst;
    destruct qs; [destruct Hin | reflexivity | destruct Hin | reflexivity].
Qed.

Lemma dotted_through_plain_rejected v :
  dotted_through_plain v -> _checkKeys v = Throw (SyntaxError periods).
Proof.
  induction 1 as [p ps k c Hin Hk | p ps k c Hin Hp Hd IH].
  - apply (_checkKeys_throws p ps k c Hin). left. assumption.
  - apply (_checkKeys_throws p ps k c Hin). right.
    split; [apply plain_mapping_descends; assumption | assumption].
Qed.

(** The two ways to build [{a: {x: {}}, b: {}}] give strings that list the
    same paths, in the order in which the keys were created. *)
Example stepwise_and_at_once :
  toString built_stepwise = "mask[a.x,b]" /\
  toString built_at_once = "mask[b,a.x]" /\
  forall s, In s (recurse (_maskObj built_stepwise) None) <->
            In s (recurse (_maskObj built_at_once) None).
Proof.
  split; [reflexivity|]. split; [reflexivity|].
  intros s. apply recurse_same_mapping.
  assert (same_mapping empty_object empty_object) as Hleaf.
  { constructor; intros k c []. }
  assert (same_mapping (VObject NullProto [("x", empty_object)])
                       (VObject ObjectProto [("x", empty_object)])) as Hx.
  { constructor; intros k c [E|[]]; inversion E; subst;
      exists empty_object; (split; [left; reflexivity | exact Hleaf]). }
  constructor; intros k c [E|[E|[]]]; inversion E; subst; eexists;
    (split; [|eassumption]); simpl; auto.
Qed.

(** *** Own properties after a write *)

Lemma lookup_In k ps c : lookup k ps = Some c -> In (k, c) ps.
Proof.
  induction ps as [|[k' c'] r IH]; simpl; [discriminate|].
  destruct (String.eqb_spec k k') as [->|]; intros H.
  - inversion H; subst. left. reflexivity.
  - right. apply IH. assumption.
Qed.

Lemma In_has_key k c ps : In (k, c) ps -> has_key k ps = true.
Proof.
  unfold has_key. induction ps as [|[k' c'] r IH]; simpl; [intros []|].
  intros [Heq|Hin].
  - inversion Heq; subst. rewrite String.eqb_refl. reflexivity.
  - destruct (String.eqb k k'); [reflexivity | apply IH; assumption].
Qed.

Lemma lookup_overwrite_same k v ps :
  has_key k ps = true -> lookup k (overwrite k v ps) = Some v.
Proof.
  unfold has_key. induction ps as [|[k' c'] r IH]; simpl; [discriminate|].
  destruct (String.eqb k k') eqn:E; simpl.
  - rewrite String.eqb_refl. reflexivity.
  - rewrite E. exact IH.
Qed.

Lemma lookup_place_same k v ps :
  has_key k ps = false -> lookup k (place k v ps) = Some v.
Proof.
  unfold has_key. induction ps as [|[k' c'] r IH]; simpl.
  - rewrite String.eqb_refl. reflexivity.
  - destruct (String.eqb k k') eqn:E; [discriminate|]. intros H.
    destruct (array_index k) as [n|]; [destruct (array_index k') as [n'|];
      [destruct (n <? n')%N|]|]; simpl;
      rewrite ?String.eqb_refl, ?E; auto.
Qed.

Lemma lookup_insert_same k v ps : lookup k (insert k v ps) = Some v.
Proof.
  unfold insert. destruct (has_key k ps) eqn:E;
    [apply lookup_overwrite_same | apply lookup_place_same]; assumption.
Qed.

Lemma In_overwrite k v ps k' c' :
  In (k', c') (overwrite k v ps) ->
  (k' = k /\ c' = v /\ has_key k ps = true) \/ In (k', c') ps.
Proof.
  induction ps as [|[k2 c2] r IH]; simpl; [intros []|].
  destruct (String.eqb_spec k k2) as [->|Hne].
  - intros [Heq|Hin].
    + inversion Heq; subst. left. unfold has_key. simpl.
      rewrite String.eqb_refl. auto.
    + right. right. assumption.
  - intros [Heq|Hin]; [right; left; assumption|].
    destruct (IH Hin) as [(-> & -> & Hk)|Hin'].
    + left. unfold has_key in *. simpl.
      destruct (String.eqb k k2); auto.
    + right. right. assumption.
Qed.

Lemma In_place k v ps k' c' :
  In (k', c') (place k v ps) <-> (k', c') = (k, v) \/ In (k', c') ps.
Proof.
  induction ps as [|[k2 c2] r IH]; simpl; [intuition congruence|].
  destruct (array_index k) as [n|]; [destruct (array_index k2) as [n2|];
    [destruct (n <? n2)%N|]|]; simpl; rewrite ?IH; intuition congruence.
Qed.

Lemma In_insert k v ps k' c' :
  In (k', c') (insert k v ps) -> (k' = k /\ c' = v) \/ In (k', c') ps.
Proof.
  unfold insert. destruct (has_key k ps).
  - intros H. apply In_overwrite in H as [(-> & -> & _)|H]; auto.
  - rewrite In_place. intros [H|H]; [inversion H; subst|]; auto.
Qed.

Lemma has_key_overwrite k v ps k' :
  has_key k' (overwrite k v ps) = has_key k' ps.
Proof.
  unfold has_key. induction ps as [|[k2 c2] r IH]; simpl; [reflexivity|].
  destruct (String.eqb_spec k k2) as [->|Hne]; simpl.
  - destruct (String.eqb k' k2); reflexivity.
  - destruct (String.eqb k' k2); [reflexivity | exact IH].
Qed.

Lemma has_key_In k ps : has_key k ps = true -> exists c, In (k, c) ps.
Proof.
  unfold has_key. destruct (lookup k ps) eqn:E; [|discriminate].
  intros _. eexists. apply lookup_In. eassumption.
Qed.

Lemma has_key_insert k v ps k' :
  has_key k' (insert k v ps) = String.eqb k' k || has_key k' ps.
Proof.
  destruct (has_key k' (insert k v ps)) eqn:E.
  - apply has_key_In in E as (c & Hin). apply In_insert in Hin as [(-> & _)|Hin].
    + rewrite String.eqb_refl. reflexivity.
    + rewrite (In_has_key _ _ _ Hin). rewrite orb_true_r. reflexivity.
  - symmetry. apply orb_false_iff. split.
    + destruct (String.eqb_spec k' k) as [->|]; [|reflexivity].
      unfold has_key in E. rewrite lookup_insert_same in E. discriminate.
    + destruct (has_key k' ps) eqn:E2; [|reflexivity].
      apply has_key_In in E2 as (c & Hin).
      assert (exists c2, In (k', c2) (insert k v ps)) as (c2 & Hin2).
      { unfold insert. destruct (has_key k ps).
        - clear E. induction ps as [|[k2 c2] r IH]; [destruct Hin|]. simpl.
          destruct (String.eqb_spec k k2) as [->|Hne].
          + destruct Hin as [Heq|Hin]; [inversion Heq; subst; eexists; left; reflexivity|].
            eexists. right. eassumption.
          + destruct Hin as [Heq|Hin]; [eexists; left; eassumption|].
            destruct (IH Hin) as (c3 & H3). eexists. right. eassumption.
        - exists c. apply In_place. right. assumption. }
      rewrite (In_has_key _ _ _ Hin2) in E. discriminate.
Qed.

(** *** Keys without ['.'] *)













(** *** Path resolution *)

Ltac case_if :=
  match goal with |- context [if ?b then _ else _] => destruct b end.

Lemma get_truthy_own ref key r :
  get ref key = Normal r -> truthy r = true ->
  exists p ps, ref = VObject p ps /\ lookup key ps = Some r.
Proof.
  destruct ref as [| | | |p ps]; simpl; try discriminate.
  - case_if; [discriminate|]. intros H; inversion H; subst. discriminate.
  - case_if; [discriminate|]. intros H; inversion H; subst. discriminate.
  - destruct (lookup key ps) as [c|] eqn:E.
    + intros H; inversion H; subst. eauto.
    + destruct p; [case_if; [discriminate|]|];
        intros H; inversion H; subst; discriminate.
Qed.

Lemma get_own p ps key c : lookup key ps = Some c -> get (VObject p ps) key = Normal c.
Proof. simpl. intros ->. reflexivity. Qed.

Lemma walk_cons m path key rest ref :
  walk m path (key :: rest) ref =
  bind (get ref key) (fun r =>
    if truthy r then walk m path rest r
    else Throw (ReferenceError (not_found_message key path m))).
Proof. reflexivity. Qed.

Lemma walk_step m path key rest ref out :
  walk m path (key :: rest) ref = Normal out ->
  exists p ps r, ref = VObject p ps /\ lookup key ps = Some r /\ truthy r = true
                 /\ walk m path rest r = Normal out.
Proof.
  rewrite walk_cons. destruct (get ref key) as [r| |] eqn:E; simpl; try discriminate.
  destruct (truthy r) eqn:Et; [|discriminate]. intros H.
  destruct (get_truthy_own _ _ _ E Et) as (p & ps & -> & Hl).
  exists p, ps, r. auto.
Qed.

Lemma walk_app m path pre : forall post ref,
  walk m path (pre ++ post) ref =
  bind (walk m path pre ref) (fun r => walk m path post r).
Proof.
  induction pre as [|key rest IH]; intros post ref; [reflexivity|].
  rewrite <- app_comm_cons, !walk_cons.
  destruct (get ref key) as [r| |]; simpl; try reflexivity.
  destruct (truthy r); [apply IH | reflexivity].
Qed.

Lemma walk_resolve m path segs : forall root r,
  resolve segs root = Some r -> walk m path segs root = Normal r.
Proof.
  induction segs as [|key rest IH]; intros root r.
  - simpl. intros H; inversion H; reflexivity.
  - cbn [resolve]. destruct root as [| | | |p ps]; try discriminate.
    destruct (lookup key ps) as [c|] eqn:E; [|discriminate].
    destruct (truthy c) eqn:Et; [|discriminate]. intros H.
    rewrite walk_cons, (get_own p ps key c E). cbn [bind].
    rewrite Et. apply IH. assumption.
Qed.


Lemma graft_truthy m path segs : forall root out new,
  walk m path segs root = Normal out -> truthy new = true ->
  truthy (graft segs new root) = true.
Proof.
  destruct segs as [|key rest]; intros root out new H Hn; [exact Hn|].
  apply walk_step in H as (p & ps & r & -> & Hl & _ & _).
  simpl. rewrite Hl. reflexivity.
Qed.

(** After a write through the reference, the same segments lead to the
    object that was written. *)
Lemma walk_graft m path m2 path2 segs : forall root out new,
  walk m path segs root = Normal out -> truthy new = true ->
  walk m2 path2 segs (graft segs new root) = Normal new.
Proof.
  induction segs as [|key rest IH]; intros root out new H Hn; [reflexivity|].
  pose proof (graft_truthy m path rest) as Ht.
  apply walk_step in H as (p & ps & r & -> & Hl & _ & Hw).
  simpl graft. rewrite Hl, walk_cons.
  rewrite (get_own p _ key (graft rest new r)).
  - simpl. rewrite (Ht r out new Hw Hn). apply (IH r out new Hw Hn).
  - apply lookup_overwrite_same. unfold has_key. rewrite Hl. reflexivity.
Qed.

(** *** The segments of a path *)

Lemma Forall_removelast {A} (P : A -> Prop) l : Forall P l -> Forall P (removelast l).
Proof.
  induction 1 as [|x l Hx Hl IH]; simpl; [constructor|].
  destruct l; [constructor | constructor; assumption].
Qed.



Lemma parent_segments_dotless path :
  Forall (fun x => has_dot x = false) (removelast (split_dot path)).
Proof. apply Forall_removelast, split_dot_segments. Qed.

Lemma dotless_single k : has_dot k = false ->
  last (split_dot k) "" = k /\ join "." (removelast (split_dot k)) = "".
Proof. intros H. rewrite (split_dot_dotless k H). split; reflexivity. Qed.

(** *** The subtree built by [push] *)

Lemma fold_add_name_has_key names : forall acc k,
  has_key k (fold_left add_name names acc) =
  existsb (String.eqb k) (map property_key names) || has_key k acc.
Proof.
  induction names as [|n r IH]; intros acc k; [reflexivity|].
  cbn [fold_left map existsb]. rewrite IH. unfold add_name. rewrite has_key_insert.
  destruct (String.eqb k (property_key n)); simpl;
    [rewrite orb_true_r; reflexivity | reflexivity].
Qed.

Lemma fold_add_name_values names : forall acc,
  (forall k c, In (k, c) acc -> c = empty_object) ->
  forall k c, In (k, c) (fold_left add_name names acc) -> c = empty_object.
Proof.
  induction names as [|n r IH]; intros acc Hacc k c; [apply Hacc|].
  cbn [fold_left]. apply IH. intros k' c' Hin.
  apply In_insert in Hin as [(_ & ->)|Hin]; [reflexivity | eapply Hacc; eauto].
Qed.

Lemma existsb_eqb_In k l : existsb (String.eqb k) l = true <-> In k l.
Proof.
  rewrite existsb_exists. split.
  - intros (x & Hin & E). apply String.eqb_eq in E. subst. assumption.
  - intros H. exists k. split; [assumption | apply String.eqb_refl].
Qed.

Lemma tempObj_props p : tempObj p = VObject NullProto (own_props (tempObj p)).
Proof. reflexivity. Qed.

Lemma tempObj_children p k c :
  In (k, c) (own_props (tempObj p)) -> c = empty_object /\ named p k.
Proof.
  destruct p as [| | | |s|names|]; cbn [tempObj own_props named];
    try (intros H; destruct H; fail).
  - intros H. apply In_insert in H as [(-> & ->)|[]]. auto.
  - intros H. split.
    + apply (fold_add_name_values names [] (fun _ _ F => match F with end) k c H).
    + apply In_has_key in H.
      rewrite fold_add_name_has_key, orb_false_r in H.
      apply existsb_eqb_In. assumption.
Qed.

Lemma tempObj_named p k :
  named p k -> lookup k (own_props (tempObj p)) = Some empty_object.
Proof.
  intros H.
  assert (has_key k (own_props (tempObj p)) = true) as Hk.
  { destruct p as [| | | |s|names|]; simpl in *; try contradiction.
    - subst. unfold has_key. rewrite lookup_insert_same. reflexivity.
    - rewrite fold_add_name_has_key, orb_false_r.
      apply existsb_eqb_In. assumption. }
  unfold has_key in Hk. destruct (lookup k _) as [c|] eqn:E; [|discriminate].
  apply lookup_In in E. apply tempObj_children in E as [-> _]. reflexivity.
Qed.


Lemma dotted_name_accepted p :
  dotted_name p ->
  negb (prop_truthy p) || (negb (typeof_string p) && negb (Array_isArray p)) = false.
Proof.
  destruct p as [| | | |s|names|]; simpl; try contradiction; [|reflexivity].
  destruct s; [discriminate | reflexivity].
Qed.

Lemma dotted_name_tempObj p : dotted_name p -> dotted_through_plain (tempObj p).
Proof.
  intros H. rewrite tempObj_props.
  assert (exists k, named p k /\ has_dot k = true) as (k & Hn & Hk).
  { destruct p as [| | | |s|names|]; simpl in *; try contradiction.
    - exists s. auto.
    - destruct H as (n & Hin & Hd). exists (property_key n).
      split; [apply in_map; assumption | assumption]. }
  apply (dotted_here NullProto _ k empty_object); [|assumption].
  apply lookup_In, tempObj_named. assumption.
Qed.

(** *** What [set] can throw *)







(** *** One call of [set], [unset] or [push] *)

Lemma put_Normal ref target val ref' :
  put ref target val = Normal ref' ->
  exists p ps, ref = VObject p ps /\ ref' = VObject p (insert target val ps).
Proof.
  destruct ref as [| | | |p ps]; simpl; try discriminate;
    try (case_if; discriminate).
  destruct p; [case_if; [discriminate|]|]; intros H; inversion H; eauto.
Qed.



(** The parent object that [set] and [unset] resolve is, after a write
    through it, the object written. *)
Lemma parent_ref_graft sk m ref new :
  parent_ref sk m = Normal ref -> truthy new = true ->
  parent_ref sk {| _maskObj := graft (parent_segments sk) new (_maskObj m) |}
  = Normal new.
Proof.
  unfold parent_ref, parent_segments, _getRef.
  destruct (String.eqb sk ""); [reflexivity|].
  intros H Hn. simpl _maskObj. eapply walk_graft; eassumption.
Qed.






Lemma set_replaces val path m m' :
  set val path m = (Normal tt, m') ->
  if String.eqb path "" then _maskObj m' = default_object val
  else exists parent,
    parent_ref (join "." (removelast (split_dot path))) m' = Normal parent /\
    get parent (last (split_dot path) "") = Normal (default_object val).
Proof.
  unfold set.
  destruct (_checkKeys (default_object val)) as [[]|e|]; try discriminate.
  destruct (String.eqb path ""); [intros H; inversion H; reflexivity|].
  destruct (parent_ref _ m) as [ref|e|] eqn:Er; try discriminate.
  destruct (put ref _ _) as [ref'|e|] eqn:Eq; try discriminate.
  intros H; inversion H; subst.
  apply put_Normal in Eq as (p & ps & -> & ->).
  eexists. split.
  - eapply parent_ref_graft; [eassumption | reflexivity].
  - apply get_own, lookup_insert_same.
Qed.

(** *** Reads and writes that stay in the tree *)

Lemma vacant_get r key :
  vacant r key <-> exists v, get r key = Normal v /\ truthy v = false.
Proof.
  split.
  - destruct r as [| |b|n|p ps]; simpl; try contradiction.
    + intros ->. exists VUndefined. split; reflexivity.
    + intros ->. exists VUndefined. split; reflexivity.
    + destruct (lookup key ps) as [v|]; [intros H; exists v; auto|].
      intros [-> | H]; [exists VUndefined; split; reflexivity|].
      destruct p; [rewrite H|]; exists VUndefined; split; reflexivity.
  - intros (v & Hg & Hv). destruct r as [| |b|n|p ps]; simpl in *; try discriminate.
    + revert Hg. case_if; [discriminate | reflexivity].
    + revert Hg. case_if; [discriminate | reflexivity].
    + destruct (lookup key ps) as [c|]; [inversion Hg; subst; assumption|].
      destruct p; [|left; reflexivity]. right. revert Hg. case_if; [discriminate | reflexivity].
Qed.

Lemma walk_Normal_resolve m path segs : forall root r,
  walk m path segs root = Normal r -> resolve segs root = Some r.
Proof.
  induction segs as [|key rest IH]; intros root r H.
  - inversion H; reflexivity.
  - apply walk_step in H as (p & ps & c & -> & Hl & Ht & Hw).
    cbn [resolve]. rewrite Hl, Ht. apply IH, Hw.
Qed.

Lemma parent_ref_resolve sk m ref :
  parent_ref sk m = Normal ref <->
  resolve (parent_segments sk) (_maskObj m) = Some ref.
Proof.
  assert (parent_ref sk m = walk m sk (parent_segments sk) (_maskObj m)) as ->.
  { unfold parent_ref, parent_segments, _getRef. destruct (String.eqb sk ""); reflexivity. }
  split; [apply walk_Normal_resolve | apply walk_resolve].
Qed.

Lemma put_assigns_own ref target val :
  assigns_own ref target <-> exists ref', put ref target val = Normal ref'.
Proof.
  split.
  - destruct ref as [| | | |p ps]; simpl; try contradiction.
    destruct p; [|eauto]. intros [H | [H | H]]; [discriminate | |].
    + apply String.eqb_neq in H. rewrite H. simpl. eauto.
    + rewrite H, andb_false_r. eauto.
  - intros (ref' & H). destruct ref as [| | | |p ps]; simpl in *; try discriminate;
      try (revert H; case_if; discriminate).
    destruct p; [|left; reflexivity]. right.
    destruct (String.eqb_spec target "__proto__") as [E|E]; [|left; assumption].
    right. destruct (has_key target ps); [reflexivity|]. simpl in H. discriminate.
Qed.

(** [set] returns, having written in the tree, exactly when the value
    passes [_checkKeys] and the path is empty or the write is one in the
    tree. *)
Lemma set_returns val path m :
  (exists m', set val path m = (Normal tt, m')) <->
  _checkKeys (default_object val) = Normal tt /\ (path = "" \/ writes_in_tree path m).
Proof.
  unfold set, writes_in_tree. split.
  - intros (m' & H).
    destruct (_checkKeys (default_object val)) as [[]|e|]; try discriminate.
    split; [reflexivity|].
    destruct (String.eqb_spec path "") as [E|E]; [left; assumption | right].
    destruct (parent_ref _ m) as [ref|e|] eqn:Er; try discriminate.
    destruct (put ref _ _) as [ref'|e|] eqn:Eq; try discriminate.
    exists ref. split; [apply parent_ref_resolve, Er|].
    apply (put_assigns_own ref _ (default_object val)). eauto.
  - intros (-> & H).
    destruct (String.eqb_spec path "") as [E|E]; [eauto|].
    destruct H as [H | (ref & Hr & Ha)]; [contradiction|].
    apply parent_ref_resolve in Hr. rewrite Hr.
    apply (put_assigns_own ref _ (default_object val)) in Ha as (ref' & ->). eauto.
Qed.

(** *** The claims about the mask *)

(** Claim C1, at the tree [{'': {a: {}}}].  The claim wants the
    serialization [mask[L]] with [L] the comma-joined list of the dot-joined
    root-to-leaf paths.  [set] accepts this tree; its only leaf path is
    [''], ['a'], whose dot-joined form is [.a]; and [toString] gives
    [mask[a]], because [newKey] tests the prefix for truthiness and the
    empty string is not truthy. *)
Theorem toString_drops_empty_root_key :
  tree empty_key_tree = true /\
  set empty_key_tree "" new = (Normal tt, {| _maskObj := empty_key_tree |}) /\
  leaf_paths empty_key_tree = [[""; "a"]] /\
  serialization_spec empty_key_tree = "mask[.a]" /\
  toString {| _maskObj := empty_key_tree |} = "mask[a]".
Proof. repeat split. Qed.

(** Claim C2, as amended.  For every tree state and every path, [set]
    with a value that has a key containing ['.'], at its top level or nested
    in it through plain nested mappings, fails with the [SyntaxError] of
    [_checkKeys] and leaves the instance as it was before the call; and so
    does [push] with a property name that contains ['.']. *)
Theorem set_rejects_dotted_key (val : value) (p : prop) (path : string) (m : SLAPIMask) :
  (dotted_through_plain val ->
   set val path m = (Throw (SyntaxError periods), m)) /\
  (dotted_name p ->
   push p path m = (Throw (SyntaxError periods), m)).
Proof.
  assert (forall v, dotted_through_plain v ->
            set v path m = (Throw (SyntaxError periods), m)) as Hset.
  { intros v Hv. unfold set.
    assert (default_object v = v) as -> by (destruct Hv; reflexivity).
    rewrite (dotted_through_plain_rejected v Hv). reflexivity. }
  split; [apply Hset|].
  intros Hp. unfold push. rewrite (dotted_name_accepted p Hp).
  apply Hset, dotted_name_tempObj, Hp.
Qed.

(** C2 at [{a: {'b.c': {}}}] and at [['x', 'y.z']], path [k], on the empty
    tree. *)
Lemma set_rejects_dotted_key_witness :
  set (VObject ObjectProto [("a", VObject ObjectProto [("b.c", empty_object)])])
      "k" new = (Throw (SyntaxError periods), new) /\
  push (PArray [NString "x"; NString "y.z"]) "k" new
  = (Throw (SyntaxError periods), new).
Proof.
  split.
  - apply (set_rejects_dotted_key
             (VObject ObjectProto [("a", VObject ObjectProto [("b.c", empty_object)])])
             PUndefined "k" new).
    apply (dotted_below _ _ "a" (VObject ObjectProto [("b.c", empty_object)])).
    + left. reflexivity.
    + exists [("b.c", empty_object)]. split; reflexivity.
    + apply (dotted_here _ _ "b.c" empty_object); [left; reflexivity | reflexivity].
  - apply (set_rejects_dotted_key VUndefined
             (PArray [NString "x"; NString "y.z"]) "k" new).
    exists (NString "y.z"). split; [right; left; reflexivity | reflexivity].
Defined.

(** C2 as it is stated fails: [set] accepts [{a: o}], where [o] has no
    prototype and the key ['b.c'], and makes it the root. *)
Lemma set_accepts_dotted_key_without_prototype :
  let val := VObject ObjectProto [("a", VObject NullProto [("b.c", empty_object)])] in
  dotted_anywhere val = true /\
  set val "" new = (Normal tt, {| _maskObj := val |}) /\
  ~ (forall val path m, dotted_anywhere val = true ->
       set val path m = (Throw (SyntaxError periods), m)).
Proof.
  split; [reflexivity|]. split; [reflexivity|].
  intros H.
  specialize (H (VObject ObjectProto [("a", VObject NullProto [("b.c", empty_object)])])
                "" new eq_refl).
  discriminate H.
Qed.




(** A [set] whose walk to the parent reads a falsy value fails with the
    [ReferenceError] of [_getRef]. *)
Lemma set_reading_falsy (val : value) (path : string) (m : SLAPIMask)
  (pre : list string) (key : string) (post : list string) (r v : value) :
  _checkKeys (default_object val) = Normal tt ->
  removelast (split_dot path) = pre ++ key :: post ->
  join "." (removelast (split_dot path)) <> "" ->
  resolve pre (_maskObj m) = Some r ->
  get r key = Normal v -> truthy v = false ->
  set val path m =
  (Throw (ReferenceError
            (not_found_message key (join "." (removelast (split_dot path))) m)), m).
Proof.
  intros Hc Hsplit Hne Hpre Hget Hv. unfold set. rewrite Hc.
  destruct (String.eqb_spec path "") as [->|_].
  { destruct pre; discriminate Hsplit. }
  assert (split_dot (join "." (removelast (split_dot path))) = pre ++ key :: post)
    as Hsk.
  { rewrite split_dot_join;
      [assumption | rewrite Hsplit; destruct pre; discriminate
       | apply parent_segments_dotless]. }
  set (sk := join "." (removelast (split_dot path))) in *.
  unfold parent_ref, _getRef.
  destruct (String.eqb_spec sk "") as [E|_]; [contradiction|].
  rewrite Hsk, walk_app, (walk_resolve _ _ _ _ _ Hpre). cbn [bind].
  rewrite walk_cons, Hget. cbn [bind]. rewrite Hv. reflexivity.
Qed.

(** Claim C4, as amended.  For every tree state, every value that passes
    [_checkKeys], and every path whose parent path (the path without its
    final segment) is not the empty string: when the node reached through
    the segments before it, by truthy own properties, holds nothing or a
    falsy value under a segment of the parent path, and inherits no member
    of that name ([constructor], [toString], [__proto__] and the like on a
    node with [Object.prototype]), [set] fails with the [ReferenceError] of
    [_getRef], whose message names that segment, the parent path and the
    serialized mask, and the instance is left as it was. *)
Theorem set_missing_parent_segment (val : value) (path : string) (m : SLAPIMask)
  (pre : list string) (key : string) (post : list string) (r : value) :
  _checkKeys (default_object val) = Normal tt ->
  removelast (split_dot path) = pre ++ key :: post ->
  join "." (removelast (split_dot path)) <> "" ->
  resolve pre (_maskObj m) = Some r ->
  vacant r key ->
  set val path m =
  (Throw (ReferenceError
            (not_found_message key (join "." (removelast (split_dot path))) m)), m).
Proof.
  intros Hc Hsplit Hne Hpre Hv. apply vacant_get in Hv as (v & Hget & Hv).
  exact (set_reading_falsy val path m pre key post r v Hc Hsplit Hne Hpre Hget Hv).
Qed.

(** C4 at the path [a.x.y.z] on the tree [{a: {}}]: the segment [x] is
    missing, and the message names it with the parent path [a.x.y]. *)
Lemma set_missing_parent_segment_witness :
  set empty_object "a.x.y.z" {| _maskObj := VObject NullProto [("a", empty_object)] |}
  = (Throw (ReferenceError
       (dquote ++ "x" ++ dquote ++ " of path " ++ dquote ++ "a.x.y" ++ dquote
        ++ " doesn't exist in the current mask. (mask[a])")),
     {| _maskObj := VObject NullProto [("a", empty_object)] |}).
Proof.
  apply (set_missing_parent_segment empty_object "a.x.y.z"
           {| _maskObj := VObject NullProto [("a", empty_object)] |}
           ["a"] "x" ["y"] empty_object).
  - reflexivity.
  - reflexivity.
  - discriminate.
  - reflexivity.
  - right. reflexivity.
Defined.

(** C4 as it is stated fails.  The path [.b] has the two segments [''] and
    [b]; on the empty tree the intermediate segment [''] is absent, and
    [set] returns normally, with [b] assigned at the root.  And where [set]
    does fail, at the path [x.y.z] on the empty tree, the message names the
    parent path [x.y], not the path [x.y.z] that [set] was given. *)
Lemma set_not_found_as_stated :
  set empty_object ".b" new
  = (Normal tt, {| _maskObj := VObject NullProto [("b", empty_object)] |}) /\
  set empty_object "x.y.z" new
  = (Throw (ReferenceError (not_found_message "x" "x.y" new)), new) /\
  not_found_message "x" "x.y" new <> not_found_message "x" "x.y.z" new /\
  ~ (forall val path m pre key post r,
       removelast (split_dot path) = pre ++ key :: post ->
       resolve pre (_maskObj m) = Some r ->
       lookup key (own_props r) = None ->
       set val path m = (Throw (ReferenceError (not_found_message key path m)), m)).
Proof.
  split; [reflexivity|]. split; [reflexivity|]. split; [discriminate|].
  intros H.
  specialize (H empty_object ".b" new [] "" [] (_maskObj new)
                eq_refl eq_refl eq_refl).
  discriminate H.
Qed.

(** A segment that names a member the node inherits is not reported: the
    walk goes on into the object of the runtime.  After [push('a')],
    [set({}, 'a.constructor.x')] reaches the function [Object] through
    [{}.constructor]. *)
Example set_through_inherited_member :
  let m := {| _maskObj := VObject NullProto [("a", empty_object)] |} in
  push (PString "a") "" new = (Normal tt, m) /\
  ~ vacant empty_object "constructor" /\
  set empty_object "a.constructor.x" m = (Foreign, m) /\
  unset "a.constructor.x" m = (Foreign, m).
Proof.
  split; [reflexivity|]. split; [|split; reflexivity].
  simpl. intros [H | H]; discriminate H.
Qed.







(** *** More on the mask *)

(** *** More on own properties *)

Lemma overwrite_same k r ps : lookup k ps = Some r -> overwrite k r ps = ps.
Proof.
  induction ps as [|[k' v'] rest IH]; simpl; [reflexivity|].
  destruct (String.eqb_spec k k') as [->|Hne]; intros H.
  - inversion H; subst. reflexivity.
  - rewrite (IH H). reflexivity.
Qed.

Lemma overwrite_overwrite k a b ps :
  overwrite k a (overwrite k b ps) = overwrite k a ps.
Proof.
  induction ps as [|[k' v'] rest IH]; simpl; [reflexivity|].
  destruct (String.eqb k k') eqn:E; simpl.
  - rewrite String.eqb_refl. reflexivity.
  - rewrite E, IH. reflexivity.
Qed.

Lemma overwrite_place k a b ps :
  has_key k ps = false -> overwrite k b (place k a ps) = place k b ps.
Proof.
  unfold has_key. induction ps as [|[k' v'] rest IH]; simpl.
  - rewrite String.eqb_refl. reflexivity.
  - destruct (String.eqb k k') eqn:E; [discriminate|]. intros H.
    destruct (array_index k) as [n|]; [destruct (array_index k') as [n'|];
      [destruct (n <? n')%N|]|]; simpl;
      rewrite ?String.eqb_refl, ?E; try rewrite (IH H); reflexivity.
Qed.

Lemma has_key_place k v ps : has_key k (place k v ps) = true.
Proof.
  apply (In_has_key k v). apply In_place. left. reflexivity.
Qed.

Lemma insert_insert k a b ps : insert k b (insert k a ps) = insert k b ps.
Proof.
  unfold insert. destruct (has_key k ps) eqn:E.
  - rewrite has_key_overwrite, E. apply overwrite_overwrite.
  - rewrite has_key_place. apply overwrite_place. assumption.
Qed.

Lemma remove_absent k ps : has_key k ps = false -> remove k ps = ps.
Proof.
  unfold has_key. induction ps as [|[k' v'] rest IH]; simpl; [reflexivity|].
  destruct (String.eqb k k'); [discriminate|]. intros H. rewrite (IH H). reflexivity.
Qed.

Lemma remove_place k v ps : has_key k ps = false -> remove k (place k v ps) = ps.
Proof.
  intros Hk. pose proof (remove_absent k ps Hk) as Hr. revert Hk Hr.
  unfold has_key. induction ps as [|[k' v'] rest IH]; simpl.
  - rewrite String.eqb_refl. reflexivity.
  - destruct (String.eqb k k') eqn:E; [discriminate|]. intros H Hr.
    inversion Hr as [Hr']. rewrite Hr'.
    destruct (array_index k) as [n|]; [destruct (array_index k') as [n'|];
      [destruct (n <? n')%N|]|]; simpl;
      rewrite ?String.eqb_refl, ?E, ?Hr'; try rewrite (IH H Hr'); reflexivity.
Qed.

Lemma remove_insert k v ps : has_key k ps = false -> remove k (insert k v ps) = ps.
Proof. intros H. unfold insert. rewrite H. apply remove_place. assumption. Qed.


Lemma lookup_overwrite_other k v ps k' :
  k' <> k -> lookup k' (overwrite k v ps) = lookup k' ps.
Proof.
  intros Hne. induction ps as [|[k2 c2] r IH]; simpl; [reflexivity|].
  destruct (String.eqb_spec k k2) as [->|Hk]; simpl.
  - apply String.eqb_neq in Hne. rewrite Hne. reflexivity.
  - destruct (String.eqb k' k2); [reflexivity | exact IH].
Qed.

Lemma lookup_place_other k v ps k' :
  k' <> k -> lookup k' (place k v ps) = lookup k' ps.
Proof.
  intros Hne. apply String.eqb_neq in Hne.
  induction ps as [|[k2 c2] r IH]; simpl; [rewrite Hne; reflexivity|].
  destruct (array_index k) as [n|]; [destruct (array_index k2) as [n2|];
    [destruct (n <? n2)%N|]|]; simpl; rewrite ?Hne, ?IH; reflexivity.
Qed.

Lemma lookup_insert_other k v ps k' :
  k' <> k -> lookup k' (insert k v ps) = lookup k' ps.
Proof.
  intros H. unfold insert. destruct (has_key k ps);
    [apply lookup_overwrite_other | apply lookup_place_other]; assumption.
Qed.

Lemma lookup_remove_other k ps k' :
  k' <> k -> lookup k' (remove k ps) = lookup k' ps.
Proof.
  intros Hne. induction ps as [|[k2 c2] r IH]; simpl; [reflexivity|].
  destruct (String.eqb_spec k k2) as [->|Hk]; simpl.
  - apply String.eqb_neq in Hne. rewrite Hne. exact IH.
  - destruct (String.eqb k' k2); [reflexivity | exact IH].
Qed.

(** *** Writing twice through the same reference *)

Lemma graft_same m path segs : forall root ref,
  walk m path segs root = Normal ref -> graft segs ref root = root.
Proof.
  induction segs as [|key rest IH]; intros root ref H.
  - inversion H; reflexivity.
  - apply walk_step in H as (p & ps & r & -> & Hl & _ & Hw).
    simpl. rewrite Hl, (IH r ref Hw), (overwrite_same key r ps Hl). reflexivity.
Qed.

Lemma graft_graft m path segs : forall root ref x y,
  walk m path segs root = Normal ref ->
  graft segs y (graft segs x root) = graft segs y root.
Proof.
  induction segs as [|key rest IH]; intros root ref x y H; [reflexivity|].
  apply walk_step in H as (p & ps & r & -> & Hl & _ & Hw).
  simpl. rewrite Hl.
  rewrite lookup_overwrite_same by (unfold has_key; rewrite Hl; reflexivity).
  rewrite overwrite_overwrite, (IH r ref x y Hw). reflexivity.
Qed.


(** What [set] and [unset] resolve as the parent object, and the two
    writes one after the other. *)
Lemma parent_graft_same sk m ref :
  parent_ref sk m = Normal ref ->
  graft (parent_segments sk) ref (_maskObj m) = _maskObj m.
Proof.
  unfold parent_ref, parent_segments, _getRef.
  destruct (String.eqb sk "").
  - intros H; inversion H; reflexivity.
  - apply graft_same.
Qed.

Lemma parent_graft_graft sk m ref x y :
  parent_ref sk m = Normal ref ->
  graft (parent_segments sk) y (graft (parent_segments sk) x (_maskObj m))
  = graft (parent_segments sk) y (_maskObj m).
Proof.
  unfold parent_ref, parent_segments, _getRef.
  destruct (String.eqb sk ""); [reflexivity|].
  intros H. eapply graft_graft. eassumption.
Qed.



(** *** The segments of the parent path *)

Lemma join_empty l : join "." l = "" -> l = [] \/ l = [""].
Proof.
  destruct l as [|x [|y r]]; simpl; intros H; [left; reflexivity | right; subst; reflexivity|].
  destruct x; discriminate H.
Qed.

Lemma parent_segments_of_path path :
  removelast (split_dot path) <> [""] ->
  parent_segments (join "." (removelast (split_dot path)))
  = removelast (split_dot path).
Proof.
  intros Hn. unfold parent_segments.
  destruct (String.eqb_spec (join "." (removelast (split_dot path))) "") as [E|E].
  - apply join_empty in E as [E|E]; [symmetry; assumption | contradiction].
  - apply split_dot_join; [|apply parent_segments_dotless].
    intros E'. rewrite E' in E. apply E. reflexivity.
Qed.

Lemma split_dot_parent_target path :
  split_dot path = removelast (split_dot path) ++ [last (split_dot path) ""].
Proof. apply app_removelast_last, split_dot_not_nil. Qed.

(** A walk that succeeds does so whatever path its message would name. *)
Lemma walk_Normal_any m path m2 path2 segs : forall root ref,
  walk m path segs root = Normal ref -> walk m2 path2 segs root = Normal ref.
Proof.
  induction segs as [|key rest IH]; intros root ref H; [exact H|].
  apply walk_step in H as (p & ps & r & -> & Hl & Ht & Hw).
  rewrite walk_cons, (get_own p ps key r Hl). cbn [bind]. rewrite Ht.
  apply IH. assumption.
Qed.

(** After a [set] that has returned and written in the tree, [_getRef]
    finds the value. *)
Lemma stored_then_found (val : value) (path : string) (m m' : SLAPIMask) :
  set val path m = (Normal tt, m') ->
  truthy (default_object val) = true ->
  removelast (split_dot path) <> [""] ->
  _getRef path m' = Normal (default_object val).
Proof.
  intros Hs Ht Hn. pose proof (set_replaces val path m m' Hs) as Hr.
  unfold _getRef. destruct (String.eqb_spec path "") as [E|E].
  - rewrite Hr. reflexivity.
  - destruct Hr as (parent & Hp & Hg).
    rewrite (split_dot_parent_target path), walk_app.
    assert (walk m' path (removelast (split_dot path)) (_maskObj m') = Normal parent) as ->.
    { revert Hp. unfold parent_ref, _getRef.
      destruct (String.eqb_spec (join "." (removelast (split_dot path))) "") as [E'|E'].
      - apply join_empty in E' as [E'|E']; [|contradiction].
        rewrite E'. intros H. exact H.
      - rewrite split_dot_join;
          [| intros E2; rewrite E2 in E'; apply E'; reflexivity
           | apply parent_segments_dotless].
        apply walk_Normal_any. }
    cbn [bind]. rewrite walk_cons, Hg. cbn [bind]. rewrite Ht. reflexivity.
Qed.

(** Property X1.  What [set] stores, [_getRef] finds.  For a truthy value
    that passes [_checkKeys] ([{}] for a value left out) and a path that is
    empty or whose write is one in the tree (the parent path leads through
    truthy own properties to an object, and the final segment is not
    [__proto__] where that object inherits the accessor and holds no such
    key), [set] returns and [_getRef] of the same path then returns that
    value, the root for the empty path.  A path whose parent is the empty
    segment alone, as ['.b'], is left out: there [set] writes at the root
    and [_getRef] looks under the key ['']. *)
Theorem set_then_getRef (val : value) (path : string) (m : SLAPIMask) :
  _checkKeys (default_object val) = Normal tt ->
  path = "" \/ writes_in_tree path m ->
  truthy (default_object val) = true ->
  removelast (split_dot path) <> [""] ->
  exists m', set val path m = (Normal tt, m') /\
             _getRef path m' = Normal (default_object val).
Proof.
  intros Hc Hw Ht Hn.
  destruct (proj2 (set_returns val path m) (conj Hc Hw)) as (m' & Hs).
  exists m'. split; [exact Hs|].
  exact (stored_then_found val path m m' Hs Ht Hn).
Qed.

(** X1 at the path ['a.b'] of the mask [{a: {}}]. *)
Lemma set_then_getRef_witness :
  exists m',
    set (VObject ObjectProto [("x", empty_object)]) "a.b"
      {| _maskObj := VObject NullProto [("a", VObject NullProto [])] |}
    = (Normal tt, m') /\
    _getRef "a.b" m' = Normal (VObject ObjectProto [("x", empty_object)]).
Proof.
  apply (set_then_getRef (VObject ObjectProto [("x", empty_object)]) "a.b"
           {| _maskObj := VObject NullProto [("a", VObject NullProto [])] |}).
  - reflexivity.
  - right. exists (VObject NullProto []). split; [reflexivity|]. left. reflexivity.
  - reflexivity.
  - discriminate.
Defined.

(** Inverting a call of [set] that returns normally at a path that is not
    the root. *)
Lemma set_Normal val path m m' :
  set val path m = (Normal tt, m') -> path <> "" ->
  exists p ps,
    _checkKeys (default_object val) = Normal tt /\
    parent_ref (join "." (removelast (split_dot path))) m = Normal (VObject p ps) /\
    put (VObject p ps) (last (split_dot path) "") (default_object val)
    = Normal (VObject p (insert (last (split_dot path) "") (default_object val) ps)) /\
    _maskObj m' =
    graft (parent_segments (join "." (removelast (split_dot path))))
      (VObject p (insert (last (split_dot path) "") (default_object val) ps))
      (_maskObj m).
Proof.
  intros Hs Hne. unfold set in Hs.
  destruct (_checkKeys (default_object val)) as [[]|e|] eqn:Ec; try discriminate.
  apply String.eqb_neq in Hne. rewrite Hne in Hs.
  destruct (parent_ref _ m) as [ref|e|] eqn:Er; try discriminate.
  destruct (put ref _ _) as [ref'|e|] eqn:Eq; try discriminate.
  inversion Hs; subst. pose proof Eq as Eq'.
  apply put_Normal in Eq' as (p & ps & -> & ->).
  exists p, ps. auto.
Qed.

(** Of two [set] calls at a path that both return on a mask, the second
    after the first leaves what it leaves alone. *)
Lemma set_twice (v1 v2 : value) (path : string) (m m1 m2 : SLAPIMask) :
  set v1 path m = (Normal tt, m1) -> set v2 path m = (Normal tt, m2) ->
  set v2 path m1 = (Normal tt, m2).
Proof.
  intros H1 H2. destruct (String.eqb_spec path "") as [->|Hne].
  - unfold set in *.
    destruct (_checkKeys (default_object v2)) as [[]|e|]; try discriminate.
    simpl in *. inversion H2; reflexivity.
  - destruct (set_Normal v1 path m m1 H1 Hne) as (p & ps & _ & Hp & Hq1 & Hr1).
    destruct (set_Normal v2 path m m2 H2 Hne) as (p' & ps' & Hc & Hp' & Hq2 & Hr2).
    rewrite Hp in Hp'. inversion Hp'; subst p' ps'. clear Hp'.
    set (sk := join "." (removelast (split_dot path))) in *.
    set (t := last (split_dot path) "") in *.
    assert (m1 = {| _maskObj := graft (parent_segments sk)
                     (VObject p (insert t (default_object v1) ps)) (_maskObj m) |}) as ->.
    { destruct m1. simpl in Hr1. rewrite Hr1. reflexivity. }
    unfold set. rewrite Hc.
    apply String.eqb_neq in Hne. rewrite Hne.
    fold sk. fold t.
    rewrite (parent_ref_graft sk m (VObject p ps)
               (VObject p (insert t (default_object v1) ps)) Hp eq_refl).
    assert (put (VObject p (insert t (default_object v1) ps)) t (default_object v2)
            = Normal (VObject p (insert t (default_object v2) ps))) as ->.
    { simpl. rewrite insert_insert. destruct p; [|reflexivity].
      rewrite has_key_insert, String.eqb_refl. simpl. rewrite andb_false_r. reflexivity. }
    simpl _maskObj. rewrite (parent_graft_graft sk m _ _ _ Hp).
    destruct m2. simpl in Hr2. rewrite Hr2. reflexivity.
Qed.

(** Property X2.  A second [set] at the same path overrides the first.  For
    two values that pass [_checkKeys] and a path that is empty or whose
    write is one in the tree (the final segment not [__proto__] where the
    parent inherits the accessor and holds no such key), [set v1 path] and
    [set v2 path] both return, and [set v2 path] after [set v1 path] leaves
    the mask that [set v2 path] alone leaves. *)
Theorem set_overrides_set (v1 v2 : value) (path : string) (m : SLAPIMask) :
  _checkKeys (default_object v1) = Normal tt ->
  _checkKeys (default_object v2) = Normal tt ->
  path = "" \/ writes_in_tree path m ->
  exists m1 m2,
    set v1 path m = (Normal tt, m1) /\ set v2 path m = (Normal tt, m2) /\
    set v2 path m1 = (Normal tt, m2).
Proof.
  intros H1 H2 Hw.
  destruct (proj2 (set_returns v1 path m) (conj H1 Hw)) as (m1 & Hs1).
  destruct (proj2 (set_returns v2 path m) (conj H2 Hw)) as (m2 & Hs2).
  exists m1, m2. split; [exact Hs1|]. split; [exact Hs2|].
  exact (set_twice v1 v2 path m m1 m2 Hs1 Hs2).
Qed.

(** X2 at the path ['a.b'] of the mask [{a: {}}], with [{}] then [{x: {}}]. *)
Lemma set_overrides_set_witness :
  exists m1 m2,
    set empty_object "a.b" {| _maskObj := VObject NullProto [("a", VObject NullProto [])] |}
    = (Normal tt, m1) /\
    set (VObject ObjectProto [("x", empty_object)]) "a.b"
      {| _maskObj := VObject NullProto [("a", VObject NullProto [])] |}
    = (Normal tt, m2) /\
    set (VObject ObjectProto [("x", empty_object)]) "a.b" m1 = (Normal tt, m2).
Proof.
  apply (set_overrides_set empty_object (VObject ObjectProto [("x", empty_object)]) "a.b"
           {| _maskObj := VObject NullProto [("a", VObject NullProto [])] |}).
  - reflexivity.
  - reflexivity.
  - right. exists (VObject NullProto []). split; [reflexivity|]. left. reflexivity.
Defined.

(** After a [set] that has returned and added a key, [unset] restores the
    mask. *)
Lemma unset_after_set (val : value) (path : string) (m m1 : SLAPIMask)
  (p : proto) (ps : props) :
  set val path m = (Normal tt, m1) -> path <> "" ->
  parent_ref (join "." (removelast (split_dot path))) m = Normal (VObject p ps) ->
  has_key (last (split_dot path) "") ps = false ->
  unset path m1 = (Normal tt, m).
Proof.
  intros H1 Hne Hp Hk.
  destruct (set_Normal val path m m1 H1 Hne) as (p' & ps' & _ & Hp' & _ & Hr1).
  rewrite Hp in Hp'. inversion Hp'; subst p' ps'. clear Hp'.
  set (sk := join "." (removelast (split_dot path))) in *.
  set (t := last (split_dot path) "") in *.
  assert (m1 = {| _maskObj := graft (parent_segments sk)
                   (VObject p (insert t (default_object val) ps)) (_maskObj m) |}) as ->.
  { destruct m1. simpl in Hr1. rewrite Hr1. reflexivity. }
  unfold unset. apply String.eqb_neq in Hne. rewrite Hne. fold sk. fold t.
  rewrite (parent_ref_graft sk m (VObject p ps)
             (VObject p (insert t (default_object val) ps)) Hp eq_refl).
  simpl del. rewrite (remove_insert t _ ps Hk). simpl _maskObj.
  rewrite (parent_graft_graft sk m _ _ _ Hp), (parent_graft_same sk m _ Hp).
  destruct m; reflexivity.
Qed.

(** Property X3.  [unset] undoes a [set] that added a key.  When the parent
    path leads through truthy own properties to an object that does not
    hold the target key, the target not being [__proto__] unless that
    object has no prototype, [set] of a value that passes [_checkKeys]
    returns, and [unset] of the same path afterwards returns and restores
    the mask as it was. *)
Theorem unset_undoes_set (val : value) (path : string) (m : SLAPIMask)
  (p : proto) (ps : props) :
  _checkKeys (default_object val) = Normal tt -> path <> "" ->
  resolve (parent_segments (join "." (removelast (split_dot path)))) (_maskObj m)
  = Some (VObject p ps) ->
  has_key (last (split_dot path) "") ps = false ->
  p = NullProto \/ last (split_dot path) "" <> "__proto__" ->
  exists m1, set val path m = (Normal tt, m1) /\ unset path m1 = (Normal tt, m).
Proof.
  intros Hc Hne Hr Hk Hp.
  assert (writes_in_tree path m) as Hw.
  { exists (VObject p ps). split; [exact Hr|]. simpl. tauto. }
  destruct (proj2 (set_returns val path m) (conj Hc (or_intror Hw))) as (m1 & Hs).
  exists m1. split; [exact Hs|].
  apply parent_ref_resolve in Hr.
  exact (unset_after_set val path m m1 p ps Hs Hne Hr Hk).
Qed.

(** X3 at the path ['a.b'] of the mask [{a: {}}]. *)
Lemma unset_undoes_set_witness :
  exists m1,
    set empty_object "a.b" {| _maskObj := VObject NullProto [("a", empty_object)] |}
    = (Normal tt, m1) /\
    unset "a.b" m1
    = (Normal tt, {| _maskObj := VObject NullProto [("a", empty_object)] |}).
Proof.
  apply (unset_undoes_set empty_object "a.b"
           {| _maskObj := VObject NullProto [("a", empty_object)] |} ObjectProto []).
  - reflexivity.
  - discriminate.
  - reflexivity.
  - reflexivity.
  - right. discriminate.
Defined.



(** Property X5.  [unset] of a key that its parent does not hold returns and
    leaves the mask as it was: [delete] does not fail on a missing
    property. *)
Theorem unset_absent_key (path : string) (m : SLAPIMask) (p : proto) (ps : props) :
  path <> "" ->
  parent_ref (join "." (removelast (split_dot path))) m = Normal (VObject p ps) ->
  has_key (last (split_dot path) "") ps = false ->
  unset path m = (Normal tt, m).
Proof.
  intros Hne Hp Hk. unfold unset. apply String.eqb_neq in Hne. rewrite Hne, Hp.
  simpl del. rewrite (remove_absent _ ps Hk), (parent_graft_same _ m _ Hp).
  destruct m; reflexivity.
Qed.

(** X5 at the path ['a.z'] of the mask [{a: {c: {}}}]. *)
Lemma unset_absent_key_witness :
  unset "a.z"
    {| _maskObj := VObject NullProto [("a", VObject NullProto [("c", empty_object)])] |}
  = (Normal tt,
     {| _maskObj := VObject NullProto [("a", VObject NullProto [("c", empty_object)])] |}).
Proof.
  apply (unset_absent_key "a.z" _ NullProto [("c", empty_object)]);
    [discriminate | reflexivity | reflexivity].
Defined.

(** An [unset] whose walk to the parent reads a falsy value fails with the
    [ReferenceError] of [_getRef]. *)
Lemma unset_reading_falsy (path : string) (m : SLAPIMask)
  (pre : list string) (key : string) (post : list string) (r v : value) :
  removelast (split_dot path) = pre ++ key :: post ->
  join "." (removelast (split_dot path)) <> "" ->
  resolve pre (_maskObj m) = Some r ->
  get r key = Normal v -> truthy v = false ->
  unset path m =
  (Throw (ReferenceError
            (not_found_message key (join "." (removelast (split_dot path))) m)), m).
Proof.
  intros Hsplit Hne Hpre Hget Hv. unfold unset.
  destruct (String.eqb_spec path "") as [->|_].
  { destruct pre; discriminate Hsplit. }
  assert (split_dot (join "." (removelast (split_dot path))) = pre ++ key :: post)
    as Hsk.
  { rewrite split_dot_join;
      [assumption | rewrite Hsplit; destruct pre; discriminate
       | apply parent_segments_dotless]. }
  set (sk := join "." (removelast (split_dot path))) in *.
  unfold parent_ref, _getRef.
  destruct (String.eqb_spec sk "") as [E|_]; [contradiction|].
  rewrite Hsk, walk_app, (walk_resolve _ _ _ _ _ Hpre). cbn [bind].
  rewrite walk_cons, Hget. cbn [bind]. rewrite Hv. reflexivity.
Qed.

(** Property X6.  [unset] fails like [set] on a missing parent.  When the
    node reached holds nothing or a falsy value under a segment of the
    parent path, and inherits no member of that name, [unset] throws the
    [ReferenceError] of [_getRef], which names that segment and the parent
    path, and the mask is unchanged. *)
Theorem unset_missing_parent_segment (path : string) (m : SLAPIMask)
  (pre : list string) (key : string) (post : list string) (r : value) :
  removelast (split_dot path) = pre ++ key :: post ->
  join "." (removelast (split_dot path)) <> "" ->
  resolve pre (_maskObj m) = Some r ->
  vacant r key ->
  unset path m =
  (Throw (ReferenceError
            (not_found_message key (join "." (removelast (split_dot path))) m)), m).
Proof.
  intros Hsplit Hne Hpre Hv. apply vacant_get in Hv as (v & Hget & Hv).
  exact (unset_reading_falsy path m pre key post r v Hsplit Hne Hpre Hget Hv).
Qed.

(** X6 at the path ['a.b.c'] of the mask [{a: {}}]. *)
Lemma unset_missing_parent_segment_witness :
  unset "a.b.c" {| _maskObj := VObject NullProto [("a", VObject NullProto [])] |}
  = (Throw (ReferenceError
              (dquote ++ "b" ++ dquote ++ " of path " ++ dquote ++ "a.b" ++ dquote
                 ++ " doesn't exist in the current mask. (mask[a])")),
     {| _maskObj := VObject NullProto [("a", VObject NullProto [])] |}).
Proof.
  apply (unset_missing_parent_segment "a.b.c"
           {| _maskObj := VObject NullProto [("a", VObject NullProto [])] |}
           ["a"] "b" [] (VObject NullProto []));
    [reflexivity | discriminate | reflexivity | left; reflexivity].
Defined.

(** Property X7.  A call of [set], [unset] or [push] that throws leaves the
    mask as it was before the call, whatever the exception. *)
Theorem thrown_call_changes_nothing (o : op) (m : SLAPIMask) (e : exn) :
  fst (apply_op o m) = Throw e -> snd (apply_op o m) = m.
Proof.
  assert (forall val path, fst (set val path m) = Throw e -> snd (set val path m) = m)
    as Hset.
  { intros val path. unfold set.
    destruct (_checkKeys (default_object val)) as [[]|e'|]; try reflexivity.
    destruct (String.eqb path ""); [discriminate|].
    destruct (parent_ref _ m) as [ref|e'|]; try reflexivity.
    destruct (put ref _ _) as [ref'|e'|]; try reflexivity. discriminate. }
  destruct o as [val path|path|p path]; simpl.
  - apply Hset.
  - unfold unset. destruct (String.eqb path ""); [discriminate|].
    destruct (parent_ref _ m) as [ref|e'|]; try reflexivity.
    destruct (del ref _) as [ref'|e'|]; try reflexivity. discriminate.
  - unfold push. case_if; [reflexivity | apply Hset].
Qed.

(** X7 at a [set] under the missing key ['x']. *)
Lemma thrown_call_changes_nothing_witness :
  snd (apply_op (OpSet empty_object "x.y")
         {| _maskObj := VObject NullProto [("a", empty_object)] |})
  = {| _maskObj := VObject NullProto [("a", empty_object)] |}.
Proof.
  apply (thrown_call_changes_nothing (OpSet empty_object "x.y")
           {| _maskObj := VObject NullProto [("a", empty_object)] |}
           (ReferenceError
              (not_found_message "x" "x"
                 {| _maskObj := VObject NullProto [("a", empty_object)] |}))).
  reflexivity.
Defined.

(** A [set] or [unset] at a root key that has returned has left the other
    root keys as they were. *)
Lemma root_key_frame (val : value) (k k' : string) (m m' : SLAPIMask)
  (p : proto) (ps : props) :
  has_dot k = false -> k <> "" -> k' <> k ->
  _maskObj m = VObject p ps ->
  (set val k m = (Normal tt, m') ->
   exists ps', _maskObj m' = VObject p ps' /\ lookup k' ps' = lookup k' ps) /\
  (unset k m = (Normal tt, m') ->
   exists ps', _maskObj m' = VObject p ps' /\ lookup k' ps' = lookup k' ps).
Proof.
  intros Hk Hne Hk' Hroot. destruct (dotless_single k Hk) as [Hlast Hparent].
  split.
  - intros Hs. destruct (set_Normal val k m m' Hs Hne) as (q & qs & _ & Hp & _ & Hr).
    rewrite Hparent in Hp, Hr. rewrite Hlast in Hr.
    unfold parent_ref in Hp. simpl in Hp. rewrite Hroot in Hp. inversion Hp; subst q qs.
    simpl in Hr. eexists. split; [exact Hr|]. apply lookup_insert_other. assumption.
  - unfold unset. apply String.eqb_neq in Hne. rewrite Hne, Hparent, Hlast.
    unfold parent_ref. simpl. rewrite Hroot. simpl. intros H; inversion H; subst.
    simpl. eexists. split; [reflexivity|]. apply lookup_remove_other. assumption.
Qed.

(** Property X8.  [set] and [unset] at a root key touch no other root key.
    On a root that is an object, for a key [k] without ['.'] and not
    empty: [unset k] returns; [set val k] returns when the value passes
    [_checkKeys] and [k] is not [__proto__] on a root that inherits the
    accessor and holds no such key; and after either the root is an object
    of the same prototype in which every other key [k'] holds what it held,
    or is absent as it was. *)
Theorem set_keeps_other_keys (val : value) (k k' : string) (m : SLAPIMask)
  (p : proto) (ps : props) :
  has_dot k = false -> k <> "" -> k' <> k ->
  _maskObj m = VObject p ps ->
  (_checkKeys (default_object val) = Normal tt ->
   p = NullProto \/ k <> "__proto__" \/ has_key k ps = true ->
   exists ps', set val k m = (Normal tt, {| _maskObj := VObject p ps' |}) /\
               lookup k' ps' = lookup k' ps) /\
  (exists ps', unset k m = (Normal tt, {| _maskObj := VObject p ps' |}) /\
               lookup k' ps' = lookup k' ps).
Proof.
  intros Hk Hne Hk' Hroot. destruct (dotless_single k Hk) as [Hlast Hparent].
  split.
  - intros Hc Hp.
    assert (writes_in_tree k m) as Hw.
    { exists (VObject p ps). rewrite Hparent, Hlast. split; [simpl; congruence | exact Hp]. }
    destruct (proj2 (set_returns val k m) (conj Hc (or_intror Hw))) as (m' & Hs).
    destruct (proj1 (root_key_frame val k k' m m' p ps Hk Hne Hk' Hroot) Hs)
      as (ps' & Hr & Hl).
    exists ps'. split; [|exact Hl]. rewrite Hs. destruct m' as [root]. simpl in Hr.
    rewrite Hr. reflexivity.
  - exists (remove k ps). split; [|apply lookup_remove_other; assumption].
    unfold unset. apply String.eqb_neq in Hne. rewrite Hne, Hparent, Hlast.
    unfold parent_ref. simpl. rewrite Hroot. reflexivity.
Qed.

(** X8 at a [set] at ['a'] beside the key ['b']. *)
Lemma set_keeps_other_keys_witness :
  exists ps',
    set (VObject ObjectProto [("y", empty_object)]) "a"
      {| _maskObj := VObject NullProto
           [("a", empty_object); ("b", VObject NullProto [("x", empty_object)])] |}
    = (Normal tt, {| _maskObj := VObject NullProto ps' |}) /\
    lookup "b" ps'
    = lookup "b" [("a", empty_object); ("b", VObject NullProto [("x", empty_object)])].
Proof.
  apply (proj1 (set_keeps_other_keys (VObject ObjectProto [("y", empty_object)]) "a" "b"
                  {| _maskObj := VObject NullProto
                       [("a", empty_object);
                        ("b", VObject NullProto [("x", empty_object)])] |}
                  NullProto
                  [("a", empty_object); ("b", VObject NullProto [("x", empty_object)])]
                  eq_refl ltac:(discriminate) ltac:(discriminate) eq_refl)).
  - reflexivity.
  - left. reflexivity.
Defined.

(** *** Chains of nested pushes *)

Lemma chain_onto_app pre suf v :
  chain_onto (pre ++ suf) v = chain_onto pre (chain_onto suf v).
Proof. apply fold_right_app. Qed.

Lemma chain_onto_truthy ks x : truthy x = true -> truthy (chain_onto ks x) = true.
Proof. destruct ks; [trivial | reflexivity]. Qed.

Lemma walk_chain m path pre x :
  truthy x = true -> walk m path pre (chain_onto pre x) = Normal x.
Proof.
  intros Hx. induction pre as [|k rest IH]; [reflexivity|].
  cbn [chain_onto fold_right]. rewrite walk_cons.
  rewrite (get_own NullProto _ k (chain_onto rest x))
    by (simpl; rewrite String.eqb_refl; reflexivity).
  cbn [bind]. rewrite chain_onto_truthy by assumption. exact IH.
Qed.

Lemma graft_chain pre new x : graft pre new (chain_onto pre x) = chain_onto pre new.
Proof.
  induction pre as [|k rest IH]; [reflexivity|].
  cbn [chain_onto fold_right graft lookup]. rewrite String.eqb_refl.
  cbn [overwrite]. rewrite String.eqb_refl. fold (chain_onto rest x).
  rewrite IH. reflexivity.
Qed.

Lemma parent_ref_walk sk m :
  parent_ref sk m = walk m sk (parent_segments sk) (_maskObj m).
Proof.
  unfold parent_ref, parent_segments, _getRef.
  destruct (String.eqb sk ""); reflexivity.
Qed.

Lemma join_names_not_empty ks :
  ks <> [] -> Forall field_name ks -> join "." ks <> "".
Proof.
  intros Hn Hf. destruct ks as [|x [|y r]]; [contradiction| |].
  - inversion Hf as [|? ? [_ Hx] _]; subst. exact Hx.
  - inversion Hf as [|? ? [_ Hx] _]; subst. simpl. destruct x; [contradiction | discriminate].
Qed.

Lemma field_names_dotless ks :
  Forall field_name ks -> Forall (fun x => has_dot x = false) ks.
Proof. apply Forall_impl. intros k [H _]. exact H. Qed.

Lemma tempObj_single k :
  tempObj (PString k) = VObject NullProto [(k, empty_object)].
Proof. reflexivity. Qed.

Lemma _checkKeys_single k :
  has_dot k = false -> _checkKeys (VObject NullProto [(k, empty_object)]) = Normal tt.
Proof. intros H. rewrite _checkKeys_cons, H. reflexivity. Qed.

Lemma push_first k m :
  field_name k -> push (PString k) "" m = (Normal tt, {| _maskObj := chain [k] |}).
Proof.
  intros [Hd Hne]. unfold push. simpl prop_truthy.
  apply String.eqb_neq in Hne. rewrite Hne. cbn [negb orb typeof_string andb].
  rewrite tempObj_single. unfold set. cbn [default_object].
  rewrite (_checkKeys_single k Hd). reflexivity.
Qed.

Lemma push_next done k :
  done <> [] -> Forall field_name done -> field_name k ->
  push (PString k) (join "." done) {| _maskObj := chain done |}
  = (Normal tt, {| _maskObj := chain (done ++ [k]) |}).
Proof.
  intros Hn Hf [Hd Hne].
  pose proof (join_names_not_empty done Hn Hf) as Hpath.
  assert (split_dot (join "." done) = done) as Hsplit
    by (apply split_dot_join; [assumption | apply field_names_dotless; assumption]).
  pose proof (app_removelast_last "" Hn) as Hdone.
  set (pre := removelast done) in *. set (t := last done "") in *.
  assert (parent_segments (join "." (removelast (split_dot (join "." done)))) = pre)
    as Hseg.
  { rewrite parent_segments_of_path; [rewrite Hsplit; reflexivity|].
    rewrite Hsplit. fold pre. intros E.
    assert (In "" done) as Hin by (rewrite Hdone, E; left; reflexivity).
    rewrite Forall_forall in Hf. destruct (Hf "" Hin) as [_ F]. apply F. reflexivity. }
  assert (chain done = chain_onto pre (VObject NullProto [(t, empty_object)])) as Hc.
  { unfold chain. rewrite Hdone at 1. rewrite chain_onto_app. reflexivity. }
  assert (chain (done ++ [k])
          = chain_onto pre (VObject NullProto
                              [(t, VObject NullProto [(k, empty_object)])])) as Hc2.
  { unfold chain. rewrite Hdone at 1. rewrite <- app_assoc, chain_onto_app. reflexivity. }
  rewrite Hc2, Hc. clear Hc Hc2.
  unfold push. simpl prop_truthy.
  apply String.eqb_neq in Hne. rewrite Hne. cbn [negb orb typeof_string andb].
  rewrite tempObj_single. unfold set. cbn [default_object].
  rewrite (_checkKeys_single k Hd).
  apply String.eqb_neq in Hpath. rewrite Hpath.
  rewrite parent_ref_walk, Hseg, Hsplit. fold pre. fold t. simpl _maskObj.
  rewrite walk_chain by reflexivity.
  cbn [put]. unfold insert, has_key. cbn [lookup].
  rewrite String.eqb_refl. cbn [overwrite]. rewrite String.eqb_refl.
  rewrite graft_chain. reflexivity.
Qed.

Lemma push_chain_from done : forall todo,
  done <> [] -> Forall field_name done -> Forall field_name todo ->
  push_chain done todo {| _maskObj := chain done |}
  = (Normal tt, {| _maskObj := chain (done ++ todo) |}).
Proof.
  intros todo. revert done.
  induction todo as [|k rest IH]; intros done Hn Hd Ht.
  - rewrite app_nil_r. reflexivity.
  - inversion Ht as [|? ? Hk Hrest]; subst.
    cbn [push_chain]. rewrite (push_next done k Hn Hd Hk).
    rewrite IH; [rewrite <- app_assoc; reflexivity | destruct done; discriminate | | assumption].
    apply Forall_app. split; [assumption | constructor; [assumption | constructor]].
Qed.

Lemma tree_chain ks : tree (chain ks) = true.
Proof.
  induction ks as [|k rest IH]; [reflexivity|].
  change (chain (k :: rest)) with (VObject NullProto [(k, chain rest)]).
  rewrite tree_cons, IH. reflexivity.
Qed.

Lemma leaf_paths_chain ks : ks <> [] -> leaf_paths (chain ks) = [ks].
Proof.
  induction ks as [|k rest IH]; intros Hn; [contradiction|].
  change (chain (k :: rest)) with (VObject NullProto [(k, chain rest)]).
  rewrite leaf_paths_cons. destruct rest as [|k2 rest'].
  - reflexivity.
  - change (is_leaf (chain (k2 :: rest'))) with false. cbn iota.
    rewrite IH by discriminate. reflexivity.
Qed.

(** Property X9.  The chained pushes.  Pushing the names k1, ..., kn (each not
    empty and without ['.']) one under the other, each at the dot-joined
    path of the ones before it, returns at every step, from any mask, and
    leaves the chain k1 > ... > kn alone: the first push, at the root,
    replaces the tree.  The mask then serializes to [mask[k1.k2. ... .kn]]. *)
Theorem push_chain_nests (ks : list string) (m : SLAPIMask) :
  ks <> [] -> Forall field_name ks ->
  push_chain [] ks m = (Normal tt, {| _maskObj := chain ks |}) /\
  toString {| _maskObj := chain ks |} = ("mask[" ++ join "." ks ++ "]")%string.
Proof.
  intros Hn Hf. destruct ks as [|k rest]; [contradiction|].
  inversion Hf as [|? ? Hk Hrest]; subst. split.
  - cbn [push_chain join]. rewrite (push_first k m Hk).
    apply (push_chain_from [k] rest);
      [discriminate | constructor; [assumption | constructor] | assumption].
  - unfold toString, _objToStr. cbn [_maskObj].
    rewrite (recurse_keyed _ None (tree_chain (k :: rest))).
    rewrite leaf_paths_chain by discriminate. cbn [map join].
    rewrite keyed_root. destruct Hk as [_ Hk]. destruct k; [contradiction | reflexivity].
Qed.

(** X9 at the names ['a'], ['b'], ['c']. *)
Lemma push_chain_nests_witness :
  push_chain [] ["a"; "b"; "c"] new
  = (Normal tt, {| _maskObj := chain ["a"; "b"; "c"] |}) /\
  toString {| _maskObj := chain ["a"; "b"; "c"] |} = "mask[a.b.c]".
Proof.
  apply (push_chain_nests ["a"; "b"; "c"] new); [discriminate|].
  repeat (constructor; [split; [reflexivity | discriminate]|]). constructor.
Defined.

(** *** The names [push] lists *)

Lemma recurse_leaves q ps :
  (forall k c, In (k, c) ps -> c = empty_object) ->
  recurse (VObject q ps) None = map fst ps.
Proof.
  induction ps as [|[k c] r IH]; intros H; [reflexivity|].
  rewrite recurse_cons, (H k c (or_introl eq_refl)). cbn [map fst].
  rewrite IH by (intros k' c' Hin; apply (H k' c'); right; assumption).
  reflexivity.
Qed.

Lemma map_fst_overwrite k v ps : map fst (overwrite k v ps) = map fst ps.
Proof.
  induction ps as [|[k' v'] r IH]; simpl; [reflexivity|].
  destruct (String.eqb_spec k k') as [->|_]; simpl; [reflexivity | rewrite IH; reflexivity].
Qed.

Lemma In_keys_place k v ps x :
  In x (map fst (place k v ps)) <-> x = k \/ In x (map fst ps).
Proof.
  rewrite !in_map_iff. split.
  - intros ([k' c'] & <- & Hin). apply In_place in Hin as [E|Hin].
    + inversion E; subst. left. reflexivity.
    + right. exists (k', c'). auto.
  - intros [->|([k' c'] & <- & Hin)].
    + exists (k, v). split; [reflexivity | apply In_place; left; reflexivity].
    + exists (k', c'). split; [reflexivity | apply In_place; right; assumption].
Qed.

Lemma NoDup_keys_place k v ps :
  ~ In k (map fst ps) -> NoDup (map fst ps) -> NoDup (map fst (place k v ps)).
Proof.
  induction ps as [|[k' v'] r IH]; intros Hk Hn.
  - simpl. constructor; [intros [] | constructor].
  - inversion Hn as [|? ? Hk' Hr]; subst.
    assert (NoDup (k :: k' :: map fst r)) as Hfront
      by (constructor; assumption).
    assert (NoDup (k' :: map fst (place k v r))) as Hback.
    { constructor.
      - rewrite In_keys_place. intros [E|Hin]; [|contradiction].
        apply Hk. left. assumption.
      - apply IH; [|assumption]. intros Hin. apply Hk. right. assumption. }
    simpl place.
    destruct (array_index k) as [n|]; [destruct (array_index k') as [n'|];
      [destruct (n <? n')%N|]|]; assumption.
Qed.

Lemma absent_key_not_In k ps : has_key k ps = false -> ~ In k (map fst ps).
Proof.
  intros H Hin. apply in_map_iff in Hin as ([k' c] & E & Hin). simpl in E. subst.
  rewrite (In_has_key _ _ _ Hin) in H. discriminate.
Qed.

Lemma NoDup_keys_insert k v ps :
  NoDup (map fst ps) -> NoDup (map fst (insert k v ps)).
Proof.
  unfold insert. destruct (has_key k ps) eqn:E; intros H.
  - rewrite map_fst_overwrite. assumption.
  - apply NoDup_keys_place; [apply absent_key_not_In|]; assumption.
Qed.

Lemma NoDup_keys_tempObj p : NoDup (map fst (own_props (tempObj p))).
Proof.
  destruct p as [| | | |s|names|]; cbn [tempObj own_props];
    try (constructor; fail).
  - apply NoDup_keys_insert. constructor.
  - assert (forall acc, NoDup (map fst acc) ->
              NoDup (map fst (fold_left add_name names acc))) as H.
    { induction names as [|n r IH]; intros acc Hacc; [assumption|].
      cbn [fold_left]. apply IH. apply NoDup_keys_insert. assumption. }
    apply H. constructor.
Qed.

(** Property X10.  After a [push] at the root that returns, the mask
    serializes to [mask[...]] with the property keys of the names pushed,
    comma-separated, each exactly once however often it was given. *)
Theorem push_at_root_lists_names (p : prop) (m m' : SLAPIMask) :
  push p "" m = (Normal tt, m') ->
  toString m' = ("mask[" ++ join "," (map fst (own_props (tempObj p))) ++ "]")%string /\
  NoDup (map fst (own_props (tempObj p))) /\
  (forall k, In k (map fst (own_props (tempObj p))) <-> named p k).
Proof.
  intros H. split; [|split].
  - assert (_maskObj m' = tempObj p) as Hroot.
    { unfold push in H. revert H. case_if; [discriminate|]. intros H.
      apply set_replaces in H. exact H. }
    unfold toString, _objToStr. rewrite Hroot, tempObj_props.
    rewrite recurse_leaves; [reflexivity|].
    intros k c Hin. apply (tempObj_children p k c Hin).
  - apply NoDup_keys_tempObj.
  - intros k. split.
    + intros Hin. apply in_map_iff in Hin as ([k' c] & E & Hin). simpl in E. subst.
      apply (tempObj_children p k c Hin).
    + intros Hn. apply tempObj_named in Hn. apply lookup_In in Hn.
      apply in_map_iff. exists (k, empty_object). auto.
Qed.

(** X10 at the names ['a'], ['b'], ['a']. *)
Lemma push_at_root_lists_names_witness :
  let p := PArray [NString "a"; NString "b"; NString "a"] in
  toString {| _maskObj := VObject NullProto [("a", empty_object); ("b", empty_object)] |}
  = "mask[a,b]" /\
  NoDup (map fst (own_props (tempObj p))) /\
  (forall k, In k (map fst (own_props (tempObj p))) <-> named p k).
Proof.
  exact (push_at_root_lists_names (PArray [NString "a"; NString "b"; NString "a"])
           {| _maskObj := VObject NullProto [("x", empty_object)] |}
           {| _maskObj := VObject NullProto [("a", empty_object); ("b", empty_object)] |}
           eq_refl).
Defined.

(** Property X11.  [set({})] and [set()] at the root are [unset()]: each
    returns and makes the root the empty object [{}], whatever the mask
    held, and the mask then serializes to [mask[]]. *)
Theorem set_empty_is_unset (m : SLAPIMask) :
  set empty_object "" m = unset "" m /\
  set VUndefined "" m = unset "" m /\
  toString (snd (unset "" m)) = "mask[]".
Proof. repeat split. Qed.

(** Property X12.  On a tree whose root holds no empty key with children,
    [toString] is [mask[L]] with [L] the comma-joined list of the dot-joined
    root-to-leaf paths, in enumeration order; empty keys below the root and
    an empty leaf key at the root included. *)
Theorem toString_of_tree (m : SLAPIMask) :
  tree (_maskObj m) = true ->
  (forall k c, In (k, c) (own_props (_maskObj m)) -> k = "" -> is_leaf c = true) ->
  toString m = serialization_spec (_maskObj m).
Proof.
  destruct m as [root]. simpl. intros Ht Hk.
  destruct (tree_object root Ht) as (q & ps & ->).
  unfold toString, serialization_spec, _objToStr. simpl _maskObj.
  rewrite (recurse_root q ps Ht Hk). reflexivity.
Qed.

(** X12 at a tree with an empty leaf key at the root and one below. *)
Lemma toString_of_tree_witness :
  toString {| _maskObj := VObject NullProto
                [("a", VObject NullProto [("b", empty_object); ("", empty_object)]);
                 ("", empty_object); ("d", empty_object)] |}
  = "mask[a.b,a.,,d]".
Proof.
  apply (toString_of_tree
           {| _maskObj := VObject NullProto
                [("a", VObject NullProto [("b", empty_object); ("", empty_object)]);
                 ("", empty_object); ("d", empty_object)] |}); [reflexivity|].
  simpl. intros k c [H | [H | [H | []]]] Hk; subst k; inversion H; reflexivity.
Defined.

(** Property X13.  The paths [toString] lists depend on the mapping only.  Two
    trees that hold the same keys at every level, in whatever order and
    with whatever prototypes, list the same paths. *)
Theorem toString_same_paths (m1 m2 : SLAPIMask) (s : string) :
  same_mapping (_maskObj m1) (_maskObj m2) ->
  (In s (recurse (_maskObj m1) None) <-> In s (recurse (_maskObj m2) None)).
Proof.
  intros H. split; apply recurse_same_mapping_incl;
    [assumption | apply same_mapping_sym; assumption].
Qed.

(** X13 at [{a: {}, b: {}}] and [{b: {}, a: {}}]. *)
Lemma toString_same_paths_witness :
  In "b" (recurse (VObject NullProto [("a", empty_object); ("b", empty_object)]) None) <->
  In "b" (recurse (VObject ObjectProto [("b", empty_object); ("a", empty_object)]) None).
Proof.
  apply (toString_same_paths
           {| _maskObj := VObject NullProto [("a", empty_object); ("b", empty_object)] |}
           {| _maskObj := VObject ObjectProto [("b", empty_object); ("a", empty_object)] |}
           "b").
  simpl. constructor; intros k c Hin; simpl in Hin;
    destruct Hin as [H | [H | []]]; inversion H; subst;
    exists empty_object; (split; [simpl; tauto | constructor; intros ? ? []]).
Defined.

End MaskFacts.

(** ** Facts about the request builder *)

Module RequestFacts.

Import Str StrFacts Request.

(** *** The page indices *)

Lemma indices_from_done i pages : (i > pages)%Z -> indices_from i pages = [].
Proof.
  intros H. unfold indices_from.
  replace (Z.to_nat (pages + 1 - i)) with 0 by lia. reflexivity.
Qed.

Lemma indices_from_step i pages :
  (i <= pages)%Z -> indices_from i pages = i :: indices_from (i + 1) pages.
Proof.
  intros H. unfold indices_from.
  replace (Z.to_nat (pages + 1 - i)) with (S (Z.to_nat (pages + 1 - (i + 1)))) by lia.
  cbn [seq map]. f_equal; [lia|].
  rewrite <- seq_shift, map_map. apply map_ext. intros k. lia.
Qed.

(** *** The loop of [getNumOfPages] and the pagination of the specification *)

Lemma pages_loop_fetch_pages R pages i resArr r w :
  pages_loop R pages i resArr r w =
  match fetch_pages R pages (indices_from i pages) r w with
  | (Returns results, r', w') => (Returns (resArr ++ results), r', w')
  | (Throws e, r', w') => (Throws e, r', w')
  end.
Proof.
  funelim (pages_loop R pages i resArr r w).
  - (* the counter has passed [pages] *)
    rewrite indices_from_done by lia. simpl. rewrite app_nil_r. reflexivity.
  - (* the page is fetched and the loop goes on *)
    rewrite indices_from_step by lia. cbn [fetch_pages].
    match goal with
    | E : exec _ _ _ = _, IH : pages_loop _ _ _ _ _ _ = (let (_, _) := _ in _) |- _ =>
        rewrite E, IH
    end.
    destruct (fetch_pages R pages (indices_from (i + 1) pages) _ _) as [[[results|e] r2] w2];
      [rewrite <- app_assoc; reflexivity | reflexivity].
  - (* [exec] throws *)
    rewrite indices_from_step by lia. cbn [fetch_pages].
    match goal with E : exec _ _ _ = _ |- _ => rewrite E end. reflexivity.
Qed.

Lemma getNumOfPages_flattened R pages r w :
  getNumOfPages R pages r w =
  flattened (fetch_pages R pages (page_indices pages) r w).
Proof.
  unfold getNumOfPages, page_indices. rewrite pages_loop_fetch_pages.
  destruct (fetch_pages R pages (indices_from 1 pages) r w) as [[[results|e] r2] w2];
    reflexivity.
Qed.

(** *** The flattening *)

Lemma concat_apply_flattened_once results :
  concat_apply results = flattened_once results.
Proof.
  unfold concat_apply. induction results as [|x rest IH]; [reflexivity|].
  cbn [flat_map flattened_once]. rewrite IH. destruct x; reflexivity.
Qed.

(** *** The parameters of a query *)

Lemma query_params_parts R r :
  query_params R r = expected_params R r.
Proof.
  unfold query_params, expected_params, mask_param, filter_param, limit_param.
  destruct (String.eqb (Mask.maskString (mask r)) "mask[]");
    destruct (JSON_stringify R (filter (options r))) as [f|];
    try destruct (String.eqb f "{}"); reflexivity.
Qed.

Lemma page_url_query R i r : page_url R i r = query_url R (page i r).
Proof.
  unfold page_url, query_url. rewrite query_params_parts. reflexivity.
Qed.

(** *** One call of [exec] *)

Lemma same_query_refl r : same_query r r.
Proof. repeat split. Qed.

Lemma same_query_trans r1 r2 r3 :
  same_query r1 r2 -> same_query r2 r3 -> same_query r1 r3.
Proof.
  unfold same_query. intros (A1 & A2 & A3 & A4 & A5) (B1 & B2 & B3 & B4 & B5).
  repeat split; congruence.
Qed.

Lemma same_query_page i r r' : same_query r r' -> same_query r (page i r').
Proof. unfold same_query. simpl. tauto. Qed.

Lemma query_url_same R r r' :
  same_query r r' -> offset (options r') = offset (options r) ->
  query_url R r' = query_url R r.
Proof.
  unfold same_query, query_url, query_params.
  intros (-> & -> & -> & -> & _) ->. reflexivity.
Qed.

Lemma page_url_same R i r r' : same_query r r' -> page_url R i r' = page_url R i r.
Proof.
  intros H. rewrite !page_url_query. apply query_url_same.
  - apply same_query_trans with r'; [assumption|].
    apply same_query_page, same_query_refl.
  - destruct H as (_ & _ & Hl & _). simpl. rewrite Hl. reflexivity.
Qed.

Lemma exec_round R r w :
  truthy (username (config r)) = true -> truthy (password (config r)) = true ->
  truthy (service (config r)) = true -> truthy (func (config r)) = true ->
  toLocaleLowerCase (sent_method r) <> "post" ->
  transport_answers R ->
  exists init response result r' w',
    exec R r w = (Returns result, r', w') /\
    fetch R (fetches w) (query_url R r) init = Returns response /\
    response_json response = Returns result /\
    log w' = log w ++ [EvFetch (query_url R r) init] /\
    fetches w' = S (fetches w) /\
    same_query r r'.
Proof.
  intros Hu Hp Hs Hf Hm Ht. unfold exec, urlQuery, now, do_fetch.
  rewrite Hu, Hp. simpl negb. cbn [orb].
  cbv beta iota zeta. simpl config. rewrite Hs, Hf. cbn [negb].
  cbv beta iota zeta.
  apply String.eqb_neq in Hm.
  change (sent_method (with_results r _)) with (sent_method r).
  rewrite Hm.
  match goal with
  | |- context [fetch R ?n ?u ?i] =>
      destruct (Ht n u i) as (response & result & Hfetch & Hjson);
      exists i, response, result
  end.
  simpl fetches in *. simpl ticks.
  rewrite Hfetch. cbv beta iota zeta. rewrite Hjson.
  eexists. eexists. split; [reflexivity|].
  repeat split; assumption.
Qed.

(** *** The claims about the request builder *)

(** Claim C6.  For a builder with a service and a function, [urlQuery]
    is the endpoint, the service, ['/'], the function, ['?'] and the query
    string of: [objectMask] unless the mask serializes to [mask[]],
    [objectFilter] unless the filter serializes to [{}], and always
    [resultLimit] with [offset,limit]; with an empty mask, an empty filter,
    limit 25 and offset 0 the query string is [resultLimit=0%2C25]. *)
Theorem urlQuery_query_string (R : runtime) (r : SLAPIRequest) :
  truthy (service (config r)) = true -> truthy (func (config r)) = true ->
  urlQuery R r =
    Returns (endpoint (config r) ++ to_string (service (config r)) ++ "/"
               ++ to_string (func (config r)) ++ "?"
               ++ params_toString (expected_params R r))%string
  /\ (Mask.toString (mask r) = "mask[]" ->
      JSON_stringify R (filter (options r)) = Some "{}" ->
      limit (options r) = 25%Z -> offset (options r) = 0%Z ->
      urlQuery R r =
        Returns (endpoint (config r) ++ to_string (service (config r)) ++ "/"
                   ++ to_string (func (config r)) ++ "?resultLimit=0%2C25")%string).
Proof.
  intros Hs Hf.
  assert (urlQuery R r = Returns (query_url R r)) as Hq.
  { unfold urlQuery. rewrite Hs, Hf. reflexivity. }
  split.
  - rewrite Hq. unfold query_url. rewrite query_params_parts. reflexivity.
  - intros Hm Hfl Hl Ho. rewrite Hq. unfold query_url. rewrite query_params_parts.
    unfold expected_params, mask_param, filter_param, limit_param,
      Mask.maskString, Mask.mask.
    rewrite Hm, Hfl, Hl, Ho. reflexivity.
Qed.

(** C6 at the service [S] and the function [F], with the defaults of the
    constructor. *)
Lemma urlQuery_query_string_witness :
  urlQuery (sample_runtime JNull) sample_request
  = Returns "https://api.softlayer.com/rest/v3.1/S/F?resultLimit=0%2C25".
Proof.
  apply (proj2 (urlQuery_query_string (sample_runtime JNull) sample_request
                  eq_refl eq_refl)); reflexivity.
Defined.

(** Claim C7.  When the username or the password is falsy (unset, in
    particular), [exec] returns an [Error] value, does not throw, and leaves
    the instance (stored response and timestamps included) and the world
    (no request, no clock reading) as they were. *)
Theorem exec_without_credentials (R : runtime) (r : SLAPIRequest) (w : world) :
  truthy (username (config r)) = false \/ truthy (password (config r)) = false ->
  exec R r w = (Returns (JError "Invalid API token"), r, w).
Proof.
  intros H. unfold exec.
  destruct H as [-> | ->]; [reflexivity | rewrite orb_true_r; reflexivity].
Qed.

(** C7 at a builder whose password is [undefined]. *)
Lemma exec_without_credentials_witness :
  exec (sample_runtime JNull) (set_password JUndefined sample_request) fresh_world
  = (Returns (JError "Invalid API token"),
     set_password JUndefined sample_request, fresh_world).
Proof.
  apply (exec_without_credentials (sample_runtime JNull)
           (set_password JUndefined sample_request) fresh_world).
  right. reflexivity.
Defined.

(** *** The pages in order *)

Lemma page_rounds_length R r n indices results events :
  page_rounds R r n indices results events ->
  List.length indices = List.length results.
Proof.
  induction 1 as [|? ? ? ? ? ? ? ? ? ? ? ? IH]; [reflexivity|].
  cbn [List.length]. rewrite IH. reflexivity.
Qed.

Lemma fetch_pages_rounds R pages r0 indices : forall r w,
  same_query r0 r ->
  truthy (username (config r0)) = true -> truthy (password (config r0)) = true ->
  truthy (service (config r0)) = true -> truthy (func (config r0)) = true ->
  toLocaleLowerCase (sent_method r0) <> "post" ->
  transport_answers R ->
  exists results events r' w',
    fetch_pages R pages indices r w = (Returns results, r', w') /\
    page_rounds R r0 (fetches w) indices results events /\
    log w' = log w ++ events.
Proof.
  induction indices as [|i rest IH]; intros r w Hsame Hu Hp Hs Hf Hm Ht.
  - exists [], [], r, w. repeat split; [constructor | rewrite app_nil_r; reflexivity].
  - assert (same_query r0 (page i r)) as Hpage by (apply same_query_page; assumption).
    pose proof Hpage as (Hc & _ & _ & _ & Hmeth).
    destruct (exec_round R (page i r) w) as
      (init & response & result & r1 & w1 & He & Hfetch & Hjson & Hlog & Hn & Hsame1);
      try (rewrite Hc; assumption); [|assumption|].
    { unfold sent_method in *. rewrite Hmeth. assumption. }
    assert (same_query r0 r1) as Hsame01 by (eapply same_query_trans; eassumption).
    destruct (IH r1 (timeout 300 (console_log (progress i pages r1) w1))
                Hsame01 Hu Hp Hs Hf Hm Ht)
      as (results & events & r2 & w2 & Hrest & Hrounds & Hlog2).
    exists (result :: results),
      (EvFetch (page_url R i r0) init :: EvLog (progress i pages r1)
         :: EvTimeout 300 :: events), r2, w2.
    assert (query_url R (page i r) = page_url R i r0) as Hurl.
    { rewrite <- page_url_query. apply (page_url_same R i r0 r Hsame). }
    rewrite Hurl in *.
    split; [|split].
    + cbn [fetch_pages]. rewrite He, Hrest. reflexivity.
    + econstructor; [eassumption | eassumption|].
      simpl fetches in Hrounds. rewrite Hn in Hrounds. assumption.
    + rewrite Hlog2. unfold timeout, console_log. simpl log.
      rewrite Hlog, <- !app_assoc. reflexivity.
Qed.

(** Claim C8.  [getNumOfPages] is the pagination of the specification
    over the page indices 1 to [pages], followed by the one-level
    flattening: for each index in turn it sets the page, calls [exec], logs
    and pauses 300 ms.  With credentials, a service and a function, a method
    other than [post] and a transport that answers, it returns normally: the
    world sees exactly one request per page, [pages] of them, in page
    order, each at the URL of its page (the query with the offset of the
    limit [i - 1] times) and followed by a progress line and the pause,
    and the value returned and stored is the concatenation of the parsed
    bodies in that order, flattened by one level: the elements of a body
    that is an array, any other body as one element. *)
Theorem getNumOfPages_pages_in_order (R : runtime) (pages : Z) (r : SLAPIRequest) (w : world) :
  getNumOfPages R pages r w = flattened (fetch_pages R pages (page_indices pages) r w) /\
  (truthy (username (config r)) = true -> truthy (password (config r)) = true ->
   truthy (service (config r)) = true -> truthy (func (config r)) = true ->
   toLocaleLowerCase (sent_method r) <> "post" ->
   transport_answers R ->
   exists results events r' w',
     getNumOfPages R pages r w = (Returns (JArray (flattened_once results)), r', w') /\
     resArr r' = Some (flattened_once results) /\
     List.length results = Z.to_nat pages /\
     page_rounds R r (fetches w) (page_indices pages) results events /\
     log w' = log w ++ events).
Proof.
  split; [apply getNumOfPages_flattened|].
  intros Hu Hp Hs Hf Hm Ht.
  destruct (fetch_pages_rounds R pages r (page_indices pages) r w
              (same_query_refl r) Hu Hp Hs Hf Hm Ht)
    as (results & events & r' & w' & Hfp & Hrounds & Hlog).
  exists results, events, (with_resArr r' (concat_apply results)), w'.
  rewrite getNumOfPages_flattened, Hfp. unfold flattened.
  rewrite <- concat_apply_flattened_once.
  split; [reflexivity|]. split; [reflexivity|]. split; [|split; assumption].
  rewrite <- (page_rounds_length R r _ _ _ _ Hrounds).
  unfold page_indices, indices_from. rewrite length_map, length_seq.
  f_equal. lia.
Qed.

(** C8 at two pages, with a transport that answers [[1, 2]] each time:
    two requests, at the offsets 0 and 25, and the four elements. *)
Lemma getNumOfPages_pages_in_order_witness :
  let R := sample_runtime (JArray [JNumber 1; JNumber 2]) in
  exists r' w' init1 init2 message1 message2,
    getNumOfPages R 2 sample_request fresh_world
    = (Returns (JArray [JNumber 1; JNumber 2; JNumber 1; JNumber 2]), r', w') /\
    resArr r' = Some [JNumber 1; JNumber 2; JNumber 1; JNumber 2] /\
    log w'
    = [EvFetch "https://api.softlayer.com/rest/v3.1/S/F?resultLimit=0%2C25" init1;
       EvLog message1; EvTimeout 300;
       EvFetch "https://api.softlayer.com/rest/v3.1/S/F?resultLimit=25%2C25" init2;
       EvLog message2; EvTimeout 300].
Proof.
  intros R.
  destruct (proj2 (getNumOfPages_pages_in_order R 2 sample_request fresh_world)
              eq_refl eq_refl eq_refl eq_refl ltac:(discriminate)
              (fun n u init =>
                 ex_intro _ _ (ex_intro _ _ (conj eq_refl eq_refl))))
    as (results & events & r' & w' & Hg & Hr & _ & Hrounds & Hlog).
  change (page_indices 2) with [1%Z; 2%Z] in Hrounds.
  inversion Hrounds as [|n1 i1 rest1 init1 resp1 res1 msg1 results1 events1 Hf1 Hj1 Hrest1];
    subst.
  inversion Hrest1 as [|n2 i2 rest2 init2 resp2 res2 msg2 results2 events2 Hf2 Hj2 Hrest2];
    subst.
  inversion Hrest2; subst.
  inversion Hf1; subst. inversion Hf2; subst.
  inversion Hj1; subst. inversion Hj2; subst.
  exists r', w', init1, init2, msg1, msg2.
  split; [exact Hg|]. split; [exact Hr|]. exact Hlog.
Defined.

(** Claim C9, as amended.  [employeeLogin] fails with the [Error] for
    missing credentials when one of its three arguments is falsy (absent, in
    particular).  With three truthy arguments, when the exchange returns a
    value whose [error] field is truthy, it fails with an [Error] carrying
    that field, and the instance, username and password included, is left
    as it was. *)
Theorem employeeLogin_failures (R : runtime) (u p t : js) (r : SLAPIRequest) (w : world) :
  (truthy u = false \/ truthy p = false \/ truthy t = false ->
   employeeLogin R u p t r w = (Throws (Mask.Error "Missing login credentials"), r, w)) /\
  (truthy u = true -> truthy p = true -> truthy t = true ->
   forall result a' w' error,
     exec R (apiCall u p t) w = (Returns result, a', w') ->
     get_field result "error" = Returns error -> truthy error = true ->
     employeeLogin R u p t r w = (Throws (Mask.Error (to_string error)), r, w')).
Proof.
  split.
  - intros H. unfold employeeLogin.
    destruct H as [-> | [-> | ->]]; simpl; rewrite ?orb_true_r; reflexivity.
  - intros Hu Hp Ht result a' w' error He Hg Herr. unfold employeeLogin.
    rewrite Hu, Hp, Ht. cbn [negb orb]. rewrite He, Hg, Herr. reflexivity.
Qed.

(** C9 at a response [{error: 'Invalid token'}]. *)
Lemma employeeLogin_failures_witness :
  employeeLogin (sample_runtime (JObject [("error", JString "Invalid token")]))
    (JString "employee") (JString "secret") (JString "123456")
    sample_request fresh_world
  = (Throws (Mask.Error "Invalid token"), sample_request,
     snd (exec (sample_runtime (JObject [("error", JString "Invalid token")]))
            (apiCall (JString "employee") (JString "secret") (JString "123456"))
            fresh_world)).
Proof.
  eapply (proj2 (employeeLogin_failures
                   (sample_runtime (JObject [("error", JString "Invalid token")]))
                   (JString "employee") (JString "secret") (JString "123456")
                   sample_request fresh_world) eq_refl eq_refl eq_refl
            (JObject [("error", JString "Invalid token")]) _ _
            (JString "Invalid token")); reflexivity.
Defined.

(** C9 as it is stated fails: the response [{error: '', userId: 7,
    hash: 'h'}] carries an [error] field, and [employeeLogin] returns
    normally, with the username and the password of the instance
    replaced. *)
Lemma employeeLogin_ignores_falsy_error :
  let body := [("error", JString ""); ("userId", JNumber 7); ("hash", JString "h")] in
  let R := sample_runtime (JObject body) in
  let u := JString "employee" in
  let p := JString "secret" in
  let t := JString "123456" in
  fst (fst (exec R (apiCall u p t) fresh_world)) = Returns (JObject body) /\
  fst (employeeLogin R u p t sample_request fresh_world)
  = (Returns tt, set_password (JString "h") (set_username (JNumber 7) sample_request)) /\
  ~ (forall R u p t r w fields a' w' error,
       truthy u = true -> truthy p = true -> truthy t = true ->
       exec R (apiCall u p t) w = (Returns (JObject fields), a', w') ->
       In ("error", error) fields ->
       exists e w'', employeeLogin R u p t r w = (Throws e, r, w'')).
Proof.
  split; [reflexivity|]. split; [reflexivity|].
  intros H.
  set (body := [("error", JString ""); ("userId", JNumber 7); ("hash", JString "h")]).
  destruct (H (sample_runtime (JObject body))
              (JString "employee") (JString "secret") (JString "123456")
              sample_request fresh_world body _ _ (JString "")
              eq_refl eq_refl eq_refl eq_refl (or_introl eq_refl)) as (e & w'' & E).
  discriminate E.
Qed.

(** *** More on the request builder *)

(** *** [url] and [urlQuery] *)

(** Property X14.  [urlQuery] throws exactly when [url] throws, with the same
    error, and otherwise is [url], ['?'] and the query string. *)
Theorem urlQuery_extends_url (R : runtime) (r : SLAPIRequest) :
  urlQuery R r =
  match url r with
  | Returns u => Returns (u ++ "?" ++ params_toString (query_params R r))%string
  | Throws e => Throws e
  end.
Proof.
  unfold urlQuery, url, query_url.
  destruct (truthy (service (config r))); [|reflexivity].
  destruct (truthy (func (config r))); [|reflexivity].
  cbn [negb]. rewrite !append_assoc. reflexivity.
Qed.

(** *** The characters of a query string *)

Lemma count_char_app c a b :
  count_char c (a ++ b) = count_char c a + count_char c b.
Proof. induction a as [|x a IH]; simpl; [reflexivity | rewrite IH; lia]. Qed.

Lemma count_char_encoded c (x : ascii) :
  c = "&"%char \/ c = "="%char ->
  count_char c (fold_right (fun b acc => encode_byte b ++ acc)%string "" (utf8 x)) = 0.
Proof.
  intros [-> | ->];
    destruct x as [[] [] [] [] [] [] [] []]; reflexivity.
Qed.

Lemma count_char_urlencode c s :
  c = "&"%char \/ c = "="%char -> count_char c (urlencode s) = 0.
Proof.
  intros Hc. induction s as [|x s IH]; [reflexivity|].
  cbn [urlencode]. rewrite count_char_app, IH, (count_char_encoded c x Hc). reflexivity.
Qed.

Lemma count_char_pair c nv :
  c = "&"%char \/ c = "="%char ->
  count_char c (urlencode (fst nv) ++ "=" ++ urlencode (snd nv))
  = if Ascii.eqb "=" c then 1 else 0.
Proof.
  intros Hc. rewrite !count_char_app, !count_char_urlencode by assumption.
  destruct Hc as [-> | ->]; reflexivity.
Qed.

(** Property X15.  The query string of n parameters holds exactly n ['='] and
    n - 1 ['&'] (none for n = 0), whatever the names and values: they are
    encoded so that neither character is left in them. *)
Theorem query_string_delimiters (l : params) :
  count_char "=" (params_toString l) = List.length l /\
  count_char "&" (params_toString l) = List.length l - 1.
Proof.
  unfold params_toString.
  set (f := fun nv : string * string =>
              (urlencode (fst nv) ++ "=" ++ urlencode (snd nv))%string).
  assert (forall nv, count_char "=" (f nv) = 1 /\ count_char "&" (f nv) = 0) as Hf.
  { intros nv. unfold f. rewrite !count_char_pair by auto. split; reflexivity. }
  induction l as [|nv [|nv' r] IH]; [split; reflexivity | |].
  - cbn [map join List.length]. apply Hf.
  - destruct IH as [IHe IHa]. destruct (Hf nv) as [He Ha].
    change (map f (nv :: nv' :: r)) with (f nv :: map f (nv' :: r)).
    change (map f (nv' :: r)) with (f nv' :: map f r) in *.
    rewrite join_cons2.
    rewrite !(count_char_app _ (f nv)), !(count_char_app _ "&").
    rewrite He, Ha, IHe, IHa. cbn [List.length]. split; simpl; lia.
Qed.

(** *** What [exec] changes *)

Lemma exec_keeps R r w o r' w' :
  exec R r w = (o, r', w') ->
  config r' = config r /\ mask r' = mask r /\ resArr r' = resArr r /\
  offset (options r') = offset (options r) /\
  limit (options r') = limit (options r) /\
  filter (options r') = filter (options r) /\
  body (options r') = body (options r) /\
  method (options r') = method (options r).
Proof.
  unfold exec, now, do_fetch. intros H.
  destruct (negb (truthy (username (config r))) || negb (truthy (password (config r)))).
  { inversion H; subst. repeat split. }
  cbv beta iota zeta in H.
  destruct (urlQuery R _) as [q|e]; [|inversion H; subst; repeat split].
  destruct (String.eqb _ "post").
  - destruct (url _) as [u|e]; [|inversion H; subst; repeat split].
    cbv beta iota zeta in H.
    destruct (fetch R _ _ _) as [response|e]; [|inversion H; subst; repeat split].
    cbv beta iota zeta in H.
    destruct (response_json response); inversion H; subst; repeat split.
  - cbv beta iota zeta in H.
    destruct (fetch R _ _ _) as [response|e]; [|inversion H; subst; repeat split].
    cbv beta iota zeta in H.
    destruct (response_json response); inversion H; subst; repeat split.
Qed.

Lemma exec_world R r w o r' w' :
  exec R r w = (o, r', w') ->
  ticks w <= ticks w' <= ticks w + 2 /\
  fetches w <= fetches w' <= S (fetches w) /\
  exists events, log w' = log w ++ events /\ List.length events <= 1.
Proof.
  unfold exec, now, do_fetch. intros H.
  assert (forall w0 : world, exists events : list event,
            log w0 = log w0 ++ events /\ List.length events <= 1) as Hnone.
  { intros w0. exists []. rewrite app_nil_r. split; [reflexivity | simpl; lia]. }
  destruct (negb (truthy (username (config r))) || negb (truthy (password (config r)))).
  { inversion H; subst. repeat split; try lia. apply Hnone. }
  cbv beta iota zeta in H.
  destruct (urlQuery R _) as [q|e].
  2:{ inversion H; subst. simpl. repeat split; try lia. apply (Hnone w). }
  destruct (String.eqb _ "post").
  - destruct (url _) as [u|e].
    2:{ inversion H; subst. simpl. repeat split; try lia. apply (Hnone w). }
    cbv beta iota zeta in H.
    destruct (fetch R _ _ _) as [response|e].
    2:{ inversion H; subst. simpl. repeat split; try lia.
        eexists. split; [reflexivity | simpl; lia]. }
    cbv beta iota zeta in H.
    destruct (response_json response); inversion H; subst; simpl;
      (repeat split; try lia; eexists; split; [reflexivity | simpl; lia]).
  - cbv beta iota zeta in H.
    destruct (fetch R _ _ _) as [response|e].
    2:{ inversion H; subst. simpl. repeat split; try lia.
        eexists. split; [reflexivity | simpl; lia]. }
    cbv beta iota zeta in H.
    destruct (response_json response); inversion H; subst; simpl;
      (repeat split; try lia; eexists; split; [reflexivity | simpl; lia]).
Qed.

(** Property X16.  Whatever it returns or throws, [exec] leaves the
    configuration, the mask, the stored page results, the offset, the limit,
    the filter, the body and the method as they were (only the results
    record and the headers can change); it reads the clock at most twice and
    sends at most one request. *)
Theorem exec_changes_results_and_headers_only
  (R : runtime) (r r' : SLAPIRequest) (w w' : world) (o : outcome js) :
  exec R r w = (o, r', w') ->
  (config r' = config r /\ mask r' = mask r /\ resArr r' = resArr r /\
   offset (options r') = offset (options r) /\
   limit (options r') = limit (options r) /\
   filter (options r') = filter (options r) /\
   body (options r') = body (options r) /\
   method (options r') = method (options r)) /\
  (ticks w <= ticks w' <= ticks w + 2 /\
   fetches w <= fetches w' <= S (fetches w) /\
   exists events, log w' = log w ++ events /\ List.length events <= 1).
Proof.
  intros H. split; [eapply exec_keeps | eapply exec_world]; eassumption.
Qed.

(** X16 at a call that is answered. *)
Lemma exec_changes_results_and_headers_only_witness :
  let R := sample_runtime (JObject []) in
  let a := exec R sample_request fresh_world in
  (config (snd (fst a)) = config sample_request /\
   mask (snd (fst a)) = mask sample_request /\
   resArr (snd (fst a)) = resArr sample_request /\
   offset (options (snd (fst a))) = offset (options sample_request) /\
   limit (options (snd (fst a))) = limit (options sample_request) /\
   filter (options (snd (fst a))) = filter (options sample_request) /\
   body (options (snd (fst a))) = body (options sample_request) /\
   method (options (snd (fst a))) = method (options sample_request)) /\
  (ticks fresh_world <= ticks (snd a) <= ticks fresh_world + 2 /\
   fetches fresh_world <= fetches (snd a) <= S (fetches fresh_world) /\
   exists events, log (snd a) = log fresh_world ++ events /\ List.length events <= 1).
Proof.
  intros R a.
  apply (exec_changes_results_and_headers_only R sample_request (snd (fst a))
           fresh_world (snd a) (fst (fst a))).
  reflexivity.
Defined.

(** *** One call of [exec], step by step *)

Lemma exec_unauthenticated R r w :
  truthy (username (config r)) = false \/ truthy (password (config r)) = false ->
  exec R r w = (Returns (JError "Invalid API token"), r, w).
Proof.
  intros H. unfold exec.
  destruct H as [-> | ->]; [reflexivity | rewrite orb_true_r; reflexivity].
Qed.

(** With credentials, a service and a function, [exec] sends the request
    and goes on as the transport answers. *)
Lemma exec_configured R r w :
  truthy (username (config r)) = true -> truthy (password (config r)) = true ->
  truthy (service (config r)) = true -> truthy (func (config r)) = true ->
  exec R r w =
  let w1 := {| ticks := S (ticks w); fetches := S (fetches w);
               log := log w ++ [EvFetch (sent_url R r) (sent_init R r)] |} in
  let r1 := set_header "Authorization"
              (authorization R (username (config r)) (password (config r)))
              (started R r w) in
  match fetch R (fetches w) (sent_url R r) (sent_init R r) with
  | Throws e => (Throws e, r1, w1)
  | Returns response =>
      (response_json response,
       with_results r1 {| res := Some response;
                          start := Some (Date_now R (ticks w));
                          end_ := Some (Date_now R (S (ticks w))) |},
       {| ticks := S (S (ticks w)); fetches := S (fetches w);
          log := log w ++ [EvFetch (sent_url R r) (sent_init R r)] |})
  end.
Proof.
  intros Hu Hp Hs Hf. unfold exec, urlQuery, url, now, do_fetch.
  rewrite Hu, Hp. cbn [negb orb]. cbv beta iota zeta.
  simpl config. rewrite Hs, Hf. cbn [negb]. cbv beta iota zeta.
  change (sent_method (with_results r _)) with (sent_method r).
  unfold sent_url, sent_init, authorization.
  destruct (String.eqb (toLocaleLowerCase (sent_method r)) "post"); cbv beta iota zeta;
    simpl; destruct (fetch R _ _ _) as [response|e]; try reflexivity;
    destruct (response_json response); reflexivity.
Qed.

Lemma exec_invalid_service R r w :
  truthy (username (config r)) = true -> truthy (password (config r)) = true ->
  truthy (service (config r)) = false ->
  exec R r w = (Throws (Mask.Error "Invalid service"), started R r w,
                {| ticks := S (ticks w); fetches := fetches w; log := log w |}).
Proof.
  intros Hu Hp Hs. unfold exec, urlQuery, now. rewrite Hu, Hp. cbn [negb orb].
  cbv beta iota zeta. simpl config. rewrite Hs. reflexivity.
Qed.

Lemma exec_invalid_function R r w :
  truthy (username (config r)) = true -> truthy (password (config r)) = true ->
  truthy (service (config r)) = true -> truthy (func (config r)) = false ->
  exec R r w = (Throws (Mask.Error "Invalid function"), started R r w,
                {| ticks := S (ticks w); fetches := fetches w; log := log w |}).
Proof.
  intros Hu Hp Hs Hf. unfold exec, urlQuery, now. rewrite Hu, Hp. cbn [negb orb].
  cbv beta iota zeta. simpl config. rewrite Hs, Hf. reflexivity.
Qed.

(** Property X17.  With credentials but without a service, [exec] throws the
    [Error] 'Invalid service' of [urlQuery], after it has recorded the start
    time and before any request is sent; with a service but without a
    function, 'Invalid function' likewise. *)
Theorem exec_unconfigured (R : runtime) (r : SLAPIRequest) (w : world) :
  truthy (username (config r)) = true -> truthy (password (config r)) = true ->
  (truthy (service (config r)) = false ->
   exec R r w = (Throws (Mask.Error "Invalid service"), started R r w,
                 {| ticks := S (ticks w); fetches := fetches w; log := log w |})) /\
  (truthy (service (config r)) = true -> truthy (func (config r)) = false ->
   exec R r w = (Throws (Mask.Error "Invalid function"), started R r w,
                 {| ticks := S (ticks w); fetches := fetches w; log := log w |})).
Proof.
  intros Hu Hp. split; [apply exec_invalid_service | apply exec_invalid_function];
    assumption.
Qed.

(** X17 at a builder after [service(null)]. *)
Lemma exec_unconfigured_witness :
  let R := sample_runtime (JObject []) in
  let r := set_service JNull sample_request in
  exec R r fresh_world
  = (Throws (Mask.Error "Invalid service"), started R r fresh_world,
     {| ticks := 1; fetches := 0; log := [] |}).
Proof.
  intros R r.
  apply (proj1 (exec_unconfigured R r fresh_world eq_refl eq_refl)). reflexivity.
Defined.

Lemma filter_out_then_in name (l : params) :
  List.filter (fun nv => String.eqb (fst nv) name)
    (List.filter (fun nv => negb (String.eqb (fst nv) name)) l) = [].
Proof.
  induction l as [|[n v] r IH]; [reflexivity|]. simpl.
  destruct (String.eqb n name) eqn:E; simpl; [exact IH | rewrite E; exact IH].
Qed.

Lemma params_set_only name value l :
  List.filter (fun nv => String.eqb (fst nv) name) (params_set name value l)
  = [(name, value)].
Proof.
  induction l as [|[n v] r IH]; simpl.
  - rewrite String.eqb_refl. reflexivity.
  - destruct (String.eqb_spec n name) as [->|Hne]; simpl.
    + rewrite String.eqb_refl. f_equal. apply filter_out_then_in.
    + apply String.eqb_neq in Hne. rewrite Hne. exact IH.
Qed.

(** Property X18.  With credentials, a service and a function, [exec] sends
    exactly one request: at [urlQuery], or at the bare [url] when the method
    is 'post' in any letter case; with the method as it was given; with the
    body for a post only; and with exactly one [authorization] header, the
    [Basic] one made of the username, [':'] and the password. *)
Theorem exec_sends_one_request (R : runtime) (r : SLAPIRequest) (w : world) :
  truthy (username (config r)) = true -> truthy (password (config r)) = true ->
  truthy (service (config r)) = true -> truthy (func (config r)) = true ->
  exists init,
    log (snd (exec R r w)) = log w ++ [EvFetch (sent_url R r) init] /\
    fetches (snd (exec R r w)) = S (fetches w) /\
    init_method init = sent_method r /\
    init_body init = (if String.eqb (toLocaleLowerCase (sent_method r)) "post"
                      then Some (body (options r)) else None) /\
    List.filter (fun nv => String.eqb (fst nv) "authorization") (init_headers init)
    = [("authorization",
        authorization R (username (config r)) (password (config r)))].
Proof.
  intros Hu Hp Hs Hf. exists (sent_init R r).
  rewrite (exec_configured R r w Hu Hp Hs Hf). cbv zeta.
  split; [|split; [|split; [reflexivity | split; [reflexivity|]]]].
  - destruct (fetch R _ _ _); reflexivity.
  - destruct (fetch R _ _ _); reflexivity.
  - apply (params_set_only "authorization").
Qed.

(** X18 at a builder with the method ['POST'] and a body. *)
Lemma exec_sends_one_request_witness :
  let R := sample_runtime (JObject []) in
  let r := set_body [("k", "v")] (set_method "POST" sample_request) in
  exists init,
    log (snd (exec R r fresh_world)) = [EvFetch "https://api.softlayer.com/rest/v3.1/S/F" init] /\
    fetches (snd (exec R r fresh_world)) = 1 /\
    init_method init = "POST" /\
    init_body init = Some [("k", "v")] /\
    List.filter (fun nv => String.eqb (fst nv) "authorization") (init_headers init)
    = [("authorization", "Basic user:key")].
Proof.
  intros R r.
  exact (exec_sends_one_request R r fresh_world eq_refl eq_refl eq_refl eq_refl).
Defined.

(** What a call that returns a parsed body has recorded. *)
Lemma exec_Returns R r w result r' w' :
  truthy (username (config r)) = true -> truthy (password (config r)) = true ->
  exec R r w = (Returns result, r', w') ->
  exists response,
    fetch R (fetches w) (sent_url R r) (sent_init R r) = Returns response /\
    response_json response = Returns result /\
    results r' = {| res := Some response; start := Some (Date_now R (ticks w));
                    end_ := Some (Date_now R (S (ticks w))) |} /\
    log w' = log w ++ [EvFetch (sent_url R r) (sent_init R r)].
Proof.
  intros Hu Hp H.
  destruct (truthy (service (config r))) eqn:Hs.
  2:{ rewrite (exec_invalid_service R r w Hu Hp Hs) in H. discriminate. }
  destruct (truthy (func (config r))) eqn:Hf.
  2:{ rewrite (exec_invalid_function R r w Hu Hp Hs Hf) in H. discriminate. }
  rewrite (exec_configured R r w Hu Hp Hs Hf) in H. cbv zeta in H.
  destruct (fetch R _ _ _) as [response|e]; [|discriminate].
  inversion H; subst. exists response. repeat split; assumption.
Qed.

(** Property X19.  After an [exec] with credentials that returns, [duration]
    is the difference of the two clock readings of that call, in decimal,
    followed by [ms]. *)
Theorem duration_after_exec (R : runtime) (r r' : SLAPIRequest) (w w' : world)
  (result : js) :
  truthy (username (config r)) = true -> truthy (password (config r)) = true ->
  exec R r w = (Returns result, r', w') ->
  duration r' = (of_Z (Date_now R (S (ticks w)) - Date_now R (ticks w)) ++ "ms")%string.
Proof.
  intros Hu Hp H. destruct (exec_Returns R r w result r' w' Hu Hp H)
    as (response & _ & _ & Hr & _).
  unfold duration. rewrite Hr. reflexivity.
Qed.

(** X19 with a clock that advances by 7 at each reading. *)
Lemma duration_after_exec_witness :
  duration (snd (fst (exec (counting_runtime (JArray [])) sample_request fresh_world)))
  = "7ms".
Proof.
  apply (duration_after_exec (counting_runtime (JArray [])) sample_request _
           fresh_world
           (snd (exec (counting_runtime (JArray [])) sample_request fresh_world))
           (JArray [])); reflexivity.
Defined.

(** Property X20.  After an [exec] with credentials that returns,
    [totalItems] is read from the response of that call: the text of its
    [SoftLayer-Total-Items] header, or the number 0 when the header is
    missing or empty. *)
Theorem totalItems_after_exec (R : runtime) (r r' : SLAPIRequest) (w w' : world)
  (result : js) :
  truthy (username (config r)) = true -> truthy (password (config r)) = true ->
  exec R r w = (Returns result, r', w') ->
  exists response,
    fetch R (fetches w) (sent_url R r) (sent_init R r) = Returns response /\
    response_json response = Returns result /\
    totalItems r' = total_of response.
Proof.
  intros Hu Hp H.
  destruct (exec_Returns R r w result r' w' Hu Hp H) as (response & Hf & Hj & Hr & _).
  exists response. split; [assumption|]. split; [assumption|].
  unfold totalItems. rewrite Hr. reflexivity.
Qed.

(** X20 with a transport that reports 42 items. *)
Lemma totalItems_after_exec_witness :
  let R := counting_runtime (JArray []) in
  exists response,
    fetch R 0 (sent_url R sample_request) (sent_init R sample_request)
    = Returns response /\
    response_json response = Returns (JArray []) /\
    totalItems (snd (fst (exec R sample_request fresh_world))) = total_of response.
Proof.
  intros R.
  apply (totalItems_after_exec R sample_request _ fresh_world
           (snd (exec R sample_request fresh_world)) (JArray [])); reflexivity.
Defined.

(** *** Pagination at its edges *)

Lemma length_indices_from i pages :
  List.length (indices_from i pages) = Z.to_nat (pages + 1 - i).
Proof. unfold indices_from. rewrite length_map, length_seq. reflexivity. Qed.

(** Property X21.  [getNumOfPages] with a page count of zero or less returns
    the empty array at once: no request, no log line, no pause; of the
    instance only [resArr] changes, to the empty array. *)
Theorem getNumOfPages_no_pages (R : runtime) (pages : Z) (r : SLAPIRequest) (w : world) :
  (pages <= 0)%Z ->
  getNumOfPages R pages r w = (Returns (JArray []), with_resArr r [], w).
Proof.
  intros H. rewrite getNumOfPages_flattened. unfold page_indices.
  rewrite indices_from_done by lia. reflexivity.
Qed.

(** X21 at the page count -3. *)
Lemma getNumOfPages_no_pages_witness :
  getNumOfPages (sample_runtime (JArray [])) (-3) sample_request fresh_world
  = (Returns (JArray []), with_resArr sample_request [], fresh_world).
Proof.
  apply (getNumOfPages_no_pages (sample_runtime (JArray [])) (-3) sample_request
           fresh_world).
  lia.
Defined.

Lemma concat_apply_errors message n :
  concat_apply (repeat (JError message) n) = repeat (JError message) n.
Proof.
  unfold concat_apply. induction n as [|n IH]; [reflexivity|].
  simpl. f_equal. exact IH.
Qed.

Lemma fetch_pages_unauthenticated R pages indices : forall r w,
  truthy (username (config r)) = false \/ truthy (password (config r)) = false ->
  exists r',
    fetch_pages R pages indices r w
    = (Returns (repeat (JError "Invalid API token") (List.length indices)), r',
       {| ticks := ticks w; fetches := fetches w;
          log := log w ++ flat_map (fun i => [EvLog (progress i pages r); EvTimeout 300])
                            indices |}) /\
    config r' = config r /\ results r' = results r.
Proof.
  induction indices as [|i rest IH]; intros r w Hc.
  - exists r. cbn [fetch_pages flat_map List.length repeat]. rewrite app_nil_r.
    destruct w; repeat split.
  - cbn [fetch_pages]. rewrite (exec_unauthenticated R (page i r) w Hc).
    destruct (IH (page i r) (timeout 300 (console_log (progress i pages (page i r)) w)) Hc)
      as (r' & Hf & Hcfg & Hres).
    rewrite Hf. exists r'. repeat split; try assumption.
    cbn [List.length repeat flat_map]. f_equal. f_equal.
    unfold timeout, console_log, emit. cbn [ticks fetches log].
    rewrite <- !app_assoc. cbn [app].
    reflexivity.
Qed.

(** Property X22.  Without a username or without a password,
    [getNumOfPages] does not fail: it returns an array with one 'Invalid API
    token' [Error] per page, sends no request and reads no clock; after each
    page it still logs the progress line, with the duration the instance had
    before the call, and pauses for 300 ms. *)
Theorem getNumOfPages_without_credentials (R : runtime) (pages : Z)
  (r : SLAPIRequest) (w : world) :
  truthy (username (config r)) = false \/ truthy (password (config r)) = false ->
  exists r',
    getNumOfPages R pages r w
    = (Returns (JArray (repeat (JError "Invalid API token") (Z.to_nat pages))), r',
       {| ticks := ticks w; fetches := fetches w;
          log := log w ++ flat_map (fun i => [EvLog (progress i pages r); EvTimeout 300])
                            (page_indices pages) |}) /\
    results r' = results r /\ config r' = config r.
Proof.
  intros Hc.
  destruct (fetch_pages_unauthenticated R pages (page_indices pages) r w Hc)
    as (r' & Hf & Hcfg & Hres).
  assert (List.length (page_indices pages) = Z.to_nat pages) as Hp.
  { unfold page_indices. rewrite length_indices_from. f_equal. lia. }
  rewrite Hp in *.
  exists (with_resArr r' (repeat (JError "Invalid API token") (Z.to_nat pages))).
  rewrite getNumOfPages_flattened, Hf. unfold flattened.
  rewrite concat_apply_errors. repeat split; assumption.
Qed.

(** X22 at two pages. *)
Lemma getNumOfPages_without_credentials_witness :
  let R := sample_runtime (JArray []) in
  exists r',
    getNumOfPages R 2 anonymous_request fresh_world
    = (Returns (JArray [JError "Invalid API token"; JError "Invalid API token"]), r',
       {| ticks := 0; fetches := 0;
          log := [EvLog "Retrieved page 1 of 2 in 0ms"; EvTimeout 300;
                  EvLog "Retrieved page 2 of 2 in 0ms"; EvTimeout 300] |}) /\
    results r' = results anonymous_request /\ config r' = config anonymous_request.
Proof.
  intros R.
  apply (getNumOfPages_without_credentials R 2 anonymous_request fresh_world).
  left. reflexivity.
Defined.

Lemma fetch_pages_keeps R pages indices : forall r w results r' w',
  fetch_pages R pages indices r w = (Returns results, r', w') ->
  config r' = config r /\ mask r' = mask r /\
  limit (options r') = limit (options r) /\
  filter (options r') = filter (options r) /\
  offset (options r') =
    match indices with
    | [] => offset (options r)
    | _ => page_offset (last indices 0%Z) r
    end.
Proof.
  induction indices as [|i rest IH]; intros r w results r' w' H.
  - inversion H; subst. repeat split.
  - cbn [fetch_pages] in H.
    destruct (exec R (page i r) w) as [[[result|e] r1] w1] eqn:He; [|discriminate].
    destruct (fetch_pages R pages rest r1 _) as [[[results'|e] r2] w2] eqn:Hf;
      [|discriminate].
    inversion H; subst.
    destruct (exec_keeps R _ _ _ _ _ He) as (Hc & Hm & _ & Ho & Hl & Hfl & _).
    destruct (IH _ _ _ _ _ Hf) as (Hc2 & Hm2 & Hl2 & Hfl2 & Ho2).
    simpl in Hc, Hm, Ho, Hl, Hfl.
    repeat split; try congruence.
    destruct rest as [|j rest'].
    + rewrite Ho2, Ho. reflexivity.
    + rewrite Ho2. unfold page_offset. rewrite Hl. reflexivity.
Qed.

Lemma last_page_index pages :
  (1 <= pages)%Z -> page_indices pages <> [] /\ last (page_indices pages) 0%Z = pages.
Proof.
  intros H. unfold page_indices, indices_from.
  replace (Z.to_nat (pages + 1 - 1)) with (S (Z.to_nat (pages - 1))) by lia.
  rewrite seq_S, map_app. cbn [map]. split.
  - intros E. apply app_eq_nil in E as [_ E]. discriminate.
  - rewrite last_last. lia.
Qed.

(** Property X23.  After a [getNumOfPages] of at least one page and fewer
    than 2^53 that returns, the builder is left on the last page: its
    offset is the product of [pages - 1] and the limit as the doubles give
    it, which is the integer (pages - 1) * limit when the limit and that
    product are safe integers; its limit, configuration, mask and filter
    are as before. *)
Theorem getNumOfPages_leaves_last_page (R : runtime) (pages : Z)
  (r r' : SLAPIRequest) (w w' : world) (v : js) :
  (1 <= pages)%Z -> Num.safe pages ->
  getNumOfPages R pages r w = (Returns v, r', w') ->
  offset (options r') = Num.mul (Num.sub pages 1%Z) (limit (options r)) /\
  (forall l : Z, limit (options r) = l -> Num.safe l -> Num.safe ((pages - 1) * l) ->
     offset (options r') = ((pages - 1) * l)%Z) /\
  limit (options r') = limit (options r) /\
  config r' = config r /\ mask r' = mask r /\
  filter (options r') = filter (options r).
Proof.
  intros Hp Hsafe H. rewrite getNumOfPages_flattened in H.
  destruct (fetch_pages R pages (page_indices pages) r w) as [[[results|e] r1] w1] eqn:Hf;
    [|discriminate].
  simpl in H. inversion H; subst.
  destruct (fetch_pages_keeps R pages _ _ _ _ _ _ Hf) as (Hc & Hm & Hl & Hfl & Ho).
  destruct (last_page_index pages Hp) as [Hn Hlast].
  assert (offset (options r1) = Num.mul (Num.sub pages 1%Z) (limit (options r))) as Hoff.
  { rewrite Ho, Hlast. destruct (page_indices pages); [contradiction | reflexivity]. }
  simpl. repeat split; try assumption.
  intros l El Hsl Hprod. rewrite Hoff, El.
  assert (Num.safe (pages - 1)) as Hp1 by (unfold Num.safe, Num.two53 in *; lia).
  assert (Num.safe 1) as H1 by reflexivity.
  rewrite (NumFacts.sub_safe pages 1 Hsafe H1 Hp1).
  apply (NumFacts.mul_safe (pages - 1) l Hp1 Hsl Hprod).
Qed.

(** X23 at three pages of the default limit. *)
Lemma getNumOfPages_leaves_last_page_witness :
  let R := sample_runtime (JArray [JNumber 1]) in
  let r' := snd (fst (getNumOfPages R 3 sample_request fresh_world)) in
  offset (options r') = 50%Z.
Proof.
  intros R r'.
  apply (proj1 (proj2 (getNumOfPages_leaves_last_page R 3 sample_request r' fresh_world
           (snd (getNumOfPages R 3 sample_request fresh_world))
           (JArray [JNumber 1; JNumber 1; JNumber 1])
           ltac:(lia) ltac:(reflexivity)
           ltac:(unfold r'; rewrite getNumOfPages_flattened; vm_compute; reflexivity)))
           25%Z); reflexivity.
Defined.

(** *** The exchange of [employeeLogin] *)

Lemma exec_apiCall R u p t w :
  truthy u = true -> truthy p = true ->
  exec R (apiCall u p t) w =
  match fetch R (fetches w) login_url (login_init R u p t) with
  | Throws e =>
      (Throws e,
       set_header "Authorization" (authorization R u p) (started R (apiCall u p t) w),
       sent login_url (login_init R u p t) w)
  | Returns response =>
      (response_json response,
       with_results
         (set_header "Authorization" (authorization R u p) (started R (apiCall u p t) w))
         {| res := Some response; start := Some (Date_now R (ticks w));
            end_ := Some (Date_now R (S (ticks w))) |},
       answered login_url (login_init R u p t) w)
  end.
Proof.
  intros Hu Hp.
  rewrite (exec_configured R (apiCall u p t) w Hu Hp eq_refl eq_refl).
  reflexivity.
Qed.

(** Property X24.  With three truthy arguments, [employeeLogin] sends
    exactly one request, the same whatever the instance it is called on: a
    [post] to [getEncryptedSessionToken] of [SoftLayer_User_Employee] at the
    default endpoint, with the token as the form field [remoteToken] and the
    [Basic] authorization of the username and password given.  Whatever
    the outcome, nothing of the instance changes but its username and
    password. *)
Theorem employeeLogin_posts_login (R : runtime) (u p t : js) (r : SLAPIRequest)
  (w : world) :
  truthy u = true -> truthy p = true -> truthy t = true ->
  exists o r' w',
    employeeLogin R u p t r w = (o, r', w') /\
    log w' = log w ++ [EvFetch login_url (login_init R u p t)] /\
    fetches w' = S (fetches w) /\
    results r' = results r /\ options r' = options r /\ mask r' = mask r /\
    resArr r' = resArr r /\
    endpoint (config r') = endpoint (config r) /\
    service (config r') = service (config r) /\
    func (config r') = func (config r).
Proof.
  intros Hu Hp Ht. unfold employeeLogin. rewrite Hu, Hp, Ht. cbn [negb orb].
  rewrite (exec_apiCall R u p t w Hu Hp).
  destruct (fetch R _ _ _) as [response|e].
  2:{ eexists _, _, _. split; [reflexivity|]. repeat split. }
  destruct (response_json response) as [result|e].
  2:{ eexists _, _, _. split; [reflexivity|]. repeat split. }
  destruct (get_field result "error") as [error|e].
  2:{ eexists _, _, _. split; [reflexivity|]. repeat split. }
  destruct (truthy error).
  { eexists _, _, _. split; [reflexivity|]. repeat split. }
  destruct (get_field result "userId"), (get_field result "hash");
    eexists _, _, _; (split; [reflexivity|]); repeat split.
Qed.

(** X24 at a numeric token. *)
Lemma employeeLogin_posts_login_witness :
  let R := sample_runtime (JObject [("userId", JNumber 7); ("hash", JString "h")]) in
  let u := JString "employee" in
  let p := JString "secret" in
  let t := JNumber 123456 in
  exists o r' w',
    employeeLogin R u p t sample_request fresh_world = (o, r', w') /\
    log w' = [EvFetch login_url
                {| init_headers := [("authorization", "Basic employee:secret")];
                   init_method := "post";
                   init_body := Some [("remoteToken", "123456")];
                   init_mode := "cors"; init_credentials := "include" |}] /\
    fetches w' = 1 /\
    results r' = results sample_request /\ options r' = options sample_request /\
    mask r' = mask sample_request /\ resArr r' = resArr sample_request /\
    endpoint (config r') = endpoint (config sample_request) /\
    service (config r') = service (config sample_request) /\
    func (config r') = func (config sample_request).
Proof.
  intros R u p t.
  exact (employeeLogin_posts_login R u p t sample_request fresh_world
           eq_refl eq_refl eq_refl).
Defined.

(** Property X25.  When the login is answered with an object whose [error]
    is falsy or absent, [employeeLogin] returns, and the instance has the
    [userId] of the answer as its username and the [hash] as its password;
    the rest of the instance is as before. *)
Theorem employeeLogin_adopts_session (R : runtime) (u p t : js) (r : SLAPIRequest)
  (w : world) (response : Response) (fields : list (string * js)) :
  truthy u = true -> truthy p = true -> truthy t = true ->
  fetch R (fetches w) login_url (login_init R u p t) = Returns response ->
  response_json response = Returns (JObject fields) ->
  truthy (field_of "error" fields) = false ->
  exists r',
    employeeLogin R u p t r w
    = (Returns tt, r', answered login_url (login_init R u p t) w) /\
    username (config r') = field_of "userId" fields /\
    password (config r') = field_of "hash" fields /\
    endpoint (config r') = endpoint (config r) /\
    service (config r') = service (config r) /\
    func (config r') = func (config r) /\
    results r' = results r /\ options r' = options r /\ mask r' = mask r /\
    resArr r' = resArr r.
Proof.
  intros Hu Hp Ht Hf Hj He. unfold employeeLogin. rewrite Hu, Hp, Ht. cbn [negb orb].
  rewrite (exec_apiCall R u p t w Hu Hp), Hf, Hj. cbn [get_field]. rewrite He.
  eexists. split; [reflexivity|]. repeat split.
Qed.

(** X25 at the answer [{userId: 7, hash: 'h'}]. *)
Lemma employeeLogin_adopts_session_witness :
  let fields := [("userId", JNumber 7); ("hash", JString "h")] in
  let R := sample_runtime (JObject fields) in
  let u := JString "employee" in
  let p := JString "secret" in
  let t := JString "123456" in
  exists r',
    employeeLogin R u p t sample_request fresh_world
    = (Returns tt, r', answered login_url (login_init R u p t) fresh_world) /\
    username (config r') = JNumber 7 /\
    password (config r') = JString "h" /\
    endpoint (config r') = endpoint (config sample_request) /\
    service (config r') = service (config sample_request) /\
    func (config r') = func (config sample_request) /\
    results r' = results sample_request /\ options r' = options sample_request /\
    mask r' = mask sample_request /\ resArr r' = resArr sample_request.
Proof.
  intros fields R u p t.
  exact (employeeLogin_adopts_session R u p t sample_request fresh_world
           {| response_headers := []; response_json := Returns (JObject fields) |}
           fields eq_refl eq_refl eq_refl eq_refl eq_refl eq_refl).
Defined.

(** Property X26.  When the login request fails, or the body of the answer
    does not parse, [employeeLogin] throws that exception; when the body is
    [null] (or [undefined]) it throws a [TypeError]; the instance is
    unchanged in each case. *)
Theorem employeeLogin_failed_exchange (R : runtime) (u p t : js) (r : SLAPIRequest)
  (w : world) :
  truthy u = true -> truthy p = true -> truthy t = true ->
  (forall e, fetch R (fetches w) login_url (login_init R u p t) = Throws e ->
     employeeLogin R u p t r w = (Throws e, r, sent login_url (login_init R u p t) w)) /\
  (forall response, fetch R (fetches w) login_url (login_init R u p t) = Returns response ->
     (forall e, response_json response = Throws e ->
        employeeLogin R u p t r w
        = (Throws e, r, answered login_url (login_init R u p t) w)) /\
     (response_json response = Returns JNull \/
      response_json response = Returns JUndefined ->
        employeeLogin R u p t r w
        = (Throws Mask.TypeError, r, answered login_url (login_init R u p t) w))).
Proof.
  intros Hu Hp Ht.
  split; [intros e Hf | intros response Hf; split; [intros e Hj | intros Hj]];
    unfold employeeLogin; rewrite Hu, Hp, Ht; cbn [negb orb];
    rewrite (exec_apiCall R u p t w Hu Hp), Hf; try reflexivity.
  - rewrite Hj. reflexivity.
  - destruct Hj as [-> | ->]; reflexivity.
Qed.

(** X26 at the answer [null]. *)
Lemma employeeLogin_failed_exchange_witness :
  let R := sample_runtime JNull in
  let u := JString "employee" in
  let p := JString "secret" in
  let t := JString "123456" in
  employeeLogin R u p t sample_request fresh_world
  = (Throws Mask.TypeError, sample_request,
     answered login_url (login_init R u p t) fresh_world).
Proof.
  intros R u p t.
  apply (proj2 (proj2 (employeeLogin_failed_exchange R u p t sample_request fresh_world
                         eq_refl eq_refl eq_refl)
                  {| response_headers := []; response_json := Returns JNull |} eq_refl)).
  left. reflexivity.
Defined.

(** Property X27.  When the answer has no truthy [error] and no truthy
    [userId], or no truthy [hash] (an array, a number or a string as the
    body, in particular), [employeeLogin] still returns, and leaves the
    instance without credentials: every [exec] on it afterwards returns the
    'Invalid API token' [Error] and sends nothing. *)
Theorem employeeLogin_without_session (R : runtime) (u p t : js) (r : SLAPIRequest)
  (w : world) (response : Response) (result error userId hash : js) :
  truthy u = true -> truthy p = true -> truthy t = true ->
  fetch R (fetches w) login_url (login_init R u p t) = Returns response ->
  response_json response = Returns result ->
  get_field result "error" = Returns error -> truthy error = false ->
  get_field result "userId" = Returns userId ->
  get_field result "hash" = Returns hash ->
  truthy userId = false \/ truthy hash = false ->
  exists r' w',
    employeeLogin R u p t r w = (Returns tt, r', w') /\
    forall w'', exec R r' w'' = (Returns (JError "Invalid API token"), r', w'').
Proof.
  intros Hu Hp Ht Hf Hj He Herr Hi Hh Hno. unfold employeeLogin.
  rewrite Hu, Hp, Ht. cbn [negb orb].
  rewrite (exec_apiCall R u p t w Hu Hp), Hf, Hj, He, Herr, Hi, Hh.
  eexists _, _. split; [reflexivity|]. intros w''.
  apply exec_unauthenticated. simpl. exact Hno.
Qed.

(** X27 at the answer [[]]. *)
Lemma employeeLogin_without_session_witness :
  let R := sample_runtime (JArray []) in
  let u := JString "employee" in
  let p := JString "secret" in
  let t := JString "123456" in
  exists r' w',
    employeeLogin R u p t sample_request fresh_world = (Returns tt, r', w') /\
    forall w'', exec R r' w'' = (Returns (JError "Invalid API token"), r', w'').
Proof.
  intros R u p t.
  apply (employeeLogin_without_session R u p t sample_request fresh_world
           {| response_headers := []; response_json := Returns (JArray []) |}
           (JArray []) JUndefined JUndefined JUndefined);
    try reflexivity.
  left. reflexivity.
Defined.

(** *** The setters *)

(** Property X28.  [endpoint()], [service()] and [function()] without an
    argument restore the defaults: [url] is then that of [getObject] on
    [SoftLayer_Hardware_Server] at the default endpoint, whatever the
    instance was.  A falsy argument other than [undefined] ([null], [''],
    [0], [false]) is stored as it is, and [url] and [urlQuery] then throw
    'Invalid service', or 'Invalid function'. *)
Theorem setters_default_and_reject (R : runtime) (r : SLAPIRequest) :
  url (set_function JUndefined (set_service JUndefined (set_endpoint None r)))
  = Returns "https://api.softlayer.com/rest/v3.1/SoftLayer_Hardware_Server/getObject" /\
  (forall v, v <> JUndefined -> truthy v = false ->
     url (set_service v r) = Throws (Mask.Error "Invalid service") /\
     urlQuery R (set_service v r) = Throws (Mask.Error "Invalid service") /\
     url (set_function v (set_service JUndefined r))
     = Throws (Mask.Error "Invalid function") /\
     urlQuery R (set_function v (set_service JUndefined r))
     = Throws (Mask.Error "Invalid function")).
Proof.
  split; [reflexivity|]. intros v Hv Hf.
  unfold url, urlQuery, set_service, set_function. simpl.
  destruct v; try contradiction; try discriminate Hf; simpl in *; rewrite ?Hf;
    repeat split; reflexivity.
Qed.

(** X28 at the empty string. *)
Lemma setters_default_and_reject_witness :
  let R := sample_runtime (JObject []) in
  url (set_service (JString "") sample_request) = Throws (Mask.Error "Invalid service") /\
  urlQuery R (set_service (JString "") sample_request)
  = Throws (Mask.Error "Invalid service") /\
  url (set_function (JString "") (set_service JUndefined sample_request))
  = Throws (Mask.Error "Invalid function") /\
  urlQuery R (set_function (JString "") (set_service JUndefined sample_request))
  = Throws (Mask.Error "Invalid function").
Proof.
  intros R.
  apply (proj2 (setters_default_and_reject R sample_request) (JString ""));
    [discriminate | reflexivity].
Defined.

(** *** The query string of a page *)

Lemma urlencode_app a b : urlencode (a ++ b) = (urlencode a ++ urlencode b)%string.
Proof.
  induction a as [|c a IH]; [reflexivity|].
  cbn [append urlencode]. rewrite IH, append_assoc. reflexivity.
Qed.

Lemma urlencode_uint d :
  urlencode (NilEmpty.string_of_uint d) = NilEmpty.string_of_uint d.
Proof.
  induction d; cbn [NilEmpty.string_of_uint urlencode]; [reflexivity | ..];
    rewrite IHd; reflexivity.
Qed.

(** The decimal digits of an integer hold nothing to encode. *)
Lemma urlencode_decimal n : urlencode (Num.decimal n) = Num.decimal n.
Proof.
  assert (forall d, urlencode (NilZero.string_of_uint d) = NilZero.string_of_uint d) as H.
  { intros d. unfold NilZero.string_of_uint.
    destruct d; [reflexivity | ..]; apply urlencode_uint. }
  unfold Num.decimal, NilZero.string_of_int.
  destruct (Z.to_int n) as [d|d]; [apply H|].
  change (urlencode (String "-" (NilZero.string_of_uint d)))
    with (String "-" (urlencode (NilZero.string_of_uint d))).
  rewrite H. reflexivity.
Qed.

Lemma params_toString_last (l : params) (nv : string * string) :
  params_toString (l ++ [nv])
  = (leading_params l ++ urlencode (fst nv) ++ "=" ++ urlencode (snd nv))%string.
Proof.
  unfold leading_params, params_toString.
  induction l as [|x [|y l] IH]; [reflexivity | |].
  { cbn [map app join]. rewrite <- append_assoc. reflexivity. }
  change (map ?f ((x :: y :: l) ++ [nv])) with (f x :: map f ((y :: l) ++ [nv])).
  change (map ?f (x :: y :: l)) with (f x :: map f (y :: l)).
  change (map ?f ((y :: l) ++ [nv])) with (f y :: map f (l ++ [nv])) in *.
  change (map ?f (y :: l)) with (f y :: map f l) in *.
  rewrite !join_cons2. rewrite IH. rewrite !append_assoc. reflexivity.
Qed.

Lemma urlQuery_resultLimit R r :
  truthy (service (config r)) = true -> truthy (func (config r)) = true ->
  urlQuery R r
  = Returns (base_url r ++ "?" ++ leading_params (mask_param r ++ filter_param R r)%list
               ++ "resultLimit=" ++ urlencode (Num.to_string (offset (options r)))
               ++ "%2C" ++ urlencode (Num.to_string (limit (options r))))%string.
Proof.
  intros Hs Hf. unfold urlQuery. rewrite Hs, Hf. cbn [negb].
  unfold query_url, base_url.
  rewrite query_params_parts. unfold expected_params.
  unfold limit_param. rewrite app_assoc, params_toString_last.
  cbn [fst snd].
  rewrite !urlencode_app.
  rewrite !append_assoc. reflexivity.
Qed.

(** The offset of a page of safe integers. *)
Lemma page_offset_safe (i l : Z) :
  Num.safe i -> Num.safe (i - 1) -> Num.safe l -> Num.safe ((i - 1) * l) ->
  Num.mul (Num.sub i 1%Z) l = ((i - 1) * l)%Z.
Proof.
  intros Hi Hi1 Hl Hp.
  assert (Num.safe 1) as H1 by reflexivity.
  rewrite (NumFacts.sub_safe i 1 Hi H1 Hi1).
  apply (NumFacts.mul_safe (i - 1) l Hi1 Hl Hp).
Qed.

(** Property X29.  After [page(p)], [urlQuery] ends with [resultLimit=],
    the offset, [%2C] and the limit, each the encoded string of the number;
    the offset is the product of [p - 1] and the limit as the doubles give
    it.  [objectMask] and [objectFilter], when present, come before it.
    When [p], [p - 1], the limit and the product are safe integers, the
    two numbers are (p - 1) * limit and the limit in decimal, and the comma
    is the only character of the value that is encoded. *)
Theorem urlQuery_of_page (R : runtime) (p : Num.number) (r : SLAPIRequest) :
  truthy (service (config r)) = true -> truthy (func (config r)) = true ->
  urlQuery R (page p r)
  = Returns (base_url r ++ "?" ++ leading_params (mask_param r ++ filter_param R r)%list
               ++ "resultLimit="
               ++ urlencode (Num.to_string (Num.mul (Num.sub p 1%Z) (limit (options r))))
               ++ "%2C" ++ urlencode (Num.to_string (limit (options r))))%string /\
  (forall i l : Z,
     p = i -> limit (options r) = l ->
     Num.safe i -> Num.safe (i - 1) -> Num.safe l -> Num.safe ((i - 1) * l) ->
     urlQuery R (page p r)
     = Returns (base_url r ++ "?"
                  ++ leading_params (mask_param r ++ filter_param R r)%list
                  ++ "resultLimit=" ++ Num.decimal ((i - 1) * l)
                  ++ "%2C" ++ Num.decimal l)%string).
Proof.
  intros Hs Hf.
  pose proof (urlQuery_resultLimit R (page p r) Hs Hf) as H.
  split; [exact H|].
  intros i l -> El Hi Hi1 Hl Hp. rewrite H. simpl options. cbn [offset limit].
  rewrite El, (page_offset_safe i l Hi Hi1 Hl Hp).
  rewrite !NumFacts.to_string_safe, !urlencode_decimal by assumption.
  reflexivity.
Qed.

(** X29 at the third page of the default limit, and at the page
    100000000001 of the limit 100000000000, where the offset is printed in
    exponent form and its ['+'] is encoded. *)
Lemma urlQuery_of_page_witness :
  let R := sample_runtime (JObject []) in
  urlQuery R (page 3%Z sample_request)
  = Returns "https://api.softlayer.com/rest/v3.1/S/F?resultLimit=50%2C25" /\
  urlQuery R (page 100000000001%Z (set_limit (Some (Num.Finite 100000000000)) sample_request))
  = Returns "https://api.softlayer.com/rest/v3.1/S/F?resultLimit=1e%2B22%2C100000000000".
Proof.
  intros R. split.
  - exact (proj2 (urlQuery_of_page R 3%Z sample_request eq_refl eq_refl)
             3%Z 25%Z eq_refl eq_refl eq_refl eq_refl eq_refl eq_refl).
  - refine (eq_trans
              (proj1 (urlQuery_of_page R 100000000001%Z
                        (set_limit (Some (Num.Finite 100000000000)) sample_request)
                        eq_refl eq_refl)) _).
    vm_compute. reflexivity.
Defined.

(** Property X30.  The order of [limit] and [page] matters.  [page(p)] after
    [limit(l)] gives the offset of [p - 1] times [l]; [limit(l)] after
    [page(p)] keeps the offset computed from the limit before; the products
    are those of the doubles, and the query carries the encoded strings of
    the numbers.  For safe integers [p], [p - 1], [l] and (p - 1) * l, the
    first query ends with [resultLimit=] (p - 1) * l [%2C] l in decimal.
    And [search()], [limit()] and [offset()] without arguments restore
    [resultLimit=0%2C25] and drop [objectFilter], where [JSON.stringify]
    gives ['{}'] for [{}]. *)
Theorem paging_setters_in_query (R : runtime) (p l : Num.number) (r : SLAPIRequest) :
  truthy (service (config r)) = true -> truthy (func (config r)) = true ->
  JSON_stringify R (JObject []) = Some "{}" ->
  urlQuery R (page p (set_limit (Some l) r))
  = Returns (base_url r ++ "?" ++ leading_params (mask_param r ++ filter_param R r)%list
               ++ "resultLimit=" ++ urlencode (Num.to_string (Num.mul (Num.sub p 1%Z) l))
               ++ "%2C" ++ urlencode (Num.to_string l))%string /\
  urlQuery R (set_limit (Some l) (page p r))
  = Returns (base_url r ++ "?" ++ leading_params (mask_param r ++ filter_param R r)%list
               ++ "resultLimit="
               ++ urlencode (Num.to_string (Num.mul (Num.sub p 1%Z) (limit (options r))))
               ++ "%2C" ++ urlencode (Num.to_string l))%string /\
  urlQuery R (set_offset None (set_limit None (search JUndefined r)))
  = Returns (base_url r ++ "?" ++ leading_params (mask_param r)
               ++ "resultLimit=0%2C25")%string /\
  (forall i n : Z,
     p = i -> l = n ->
     Num.safe i -> Num.safe (i - 1) -> Num.safe n -> Num.safe ((i - 1) * n) ->
     urlQuery R (page p (set_limit (Some l) r))
     = Returns (base_url r ++ "?"
                  ++ leading_params (mask_param r ++ filter_param R r)%list
                  ++ "resultLimit=" ++ Num.decimal ((i - 1) * n)
                  ++ "%2C" ++ Num.decimal n)%string).
Proof.
  intros Hs Hf Hj.
  pose proof (urlQuery_resultLimit R (page p (set_limit (Some l) r)) Hs Hf) as H1.
  split; [exact H1|]. split; [|split].
  - apply (urlQuery_resultLimit R (set_limit (Some l) (page p r))); assumption.
  - rewrite (urlQuery_resultLimit R (set_offset None (set_limit None (search JUndefined r))))
      by assumption.
    unfold filter_param. simpl options. cbn [filter]. rewrite Hj. cbn [String.eqb].
    rewrite app_nil_r. reflexivity.
  - intros i n -> -> Hi Hi1 Hn Hp. rewrite H1. simpl options. cbn [offset limit].
    rewrite (page_offset_safe i n Hi Hi1 Hn Hp).
    rewrite !NumFacts.to_string_safe, !urlencode_decimal by assumption.
    reflexivity.
Qed.

(** X30 at the third page and the limit 10. *)
Lemma paging_setters_in_query_witness :
  let R := sample_runtime (JObject []) in
  urlQuery R (page 3%Z (set_limit (Some (Num.Finite 10)) sample_request))
  = Returns "https://api.softlayer.com/rest/v3.1/S/F?resultLimit=20%2C10" /\
  urlQuery R (set_limit (Some (Num.Finite 10)) (page 3%Z sample_request))
  = Returns "https://api.softlayer.com/rest/v3.1/S/F?resultLimit=50%2C10" /\
  urlQuery R (set_offset None (set_limit None (search JUndefined sample_request)))
  = Returns "https://api.softlayer.com/rest/v3.1/S/F?resultLimit=0%2C25".
Proof.
  intros R.
  pose proof (paging_setters_in_query R 3%Z 10%Z sample_request eq_refl eq_refl eq_refl)
    as (_ & H2 & H3 & H4).
  split; [|split].
  - exact (H4 3%Z 10%Z eq_refl eq_refl eq_refl eq_refl eq_refl eq_refl).
  - refine (eq_trans H2 _). vm_compute. reflexivity.
  - exact H3.
Defined.

End RequestFacts.
